(** * oberonjs, [src/context.js]: semantic analysis and code synthesis

    A shallow embedding of the translation contexts of [context.js] that
    decide the properties stated below, and the proofs of these properties.

    Conventions of the embedding.
    - A JavaScript exception is a value: every fallible operation returns a
      [Result].  [Errors.Error] carries its message, built exactly as the
      source builds it.
    - The code generator is an external collaborator ([js/CodeGenerator.js]);
      what a context does to it is recorded as the list of calls it receives.
    - Objects compared by reference in the source (record, pointer and
      procedure types, scopes) are handles; their attributes live in a store.
    - JavaScript integers are [Z]; the 32-bit operators [<<] and [|] have
      their wrap-around written out. *)

From stdpp Require Import base strings pretty list gmap.

(** ** Results and errors *)

Inductive Error : Type :=
  | CompileError (msg : string)   (* throw new Errors.Error(msg) *)
  | JsTypeError                   (* a method called on [undefined] *)
  | OutOfFuel.                    (* the bound of the embedding on a source
                                     loop was reached before the loop ended *)

Inductive Result (A : Type) : Type :=
  | Ok (a : A)
  | Err (e : Error).
Arguments Ok {A} a.
Arguments Err {A} e.

Definition bind {A B : Type} (r : Result A) (k : A -> Result B) : Result B :=
  match r with
  | Ok a => k a
  | Err e => Err e
  end.

Notation "x <-- r ;; k" := (bind r (fun x => k))
  (at level 100, r at next level, right associativity).
Notation "r ;;; k" := (bind r (fun _ => k))
  (at level 100, right associativity).

Definition throw {A : Type} (msg : string) : Result A := Err (CompileError msg).

Definition isOk {A : Type} (r : Result A) : bool :=
  match r with Ok _ => true | Err _ => false end.

(** The text JavaScript yields for [undefined] in a string concatenation. *)
Definition js_str (s : option string) : string := default "undefined" s.

(** Truthiness of a possibly undefined string: [undefined] and the empty
    string are falsy. *)
Definition truthy (s : option string) : bool :=
  match s with
  | None => false
  | Some s => negb (bool_decide (s = EmptyString))
  end.

(** ** The code generator, as the calls it receives *)

Inductive GenOp : Type :=
  | Write (s : string)
  | OpenScope
  | CloseScope (ending : string).

(** [CodeGenerator.makeGenerator]: the block generator of the emitter. *)
Definition Generator : Type := list GenOp.

(** Modelled from the spec: [CodeGenerator.makeSimpleGenerator] of
    [js/CodeGenerator.js], which is not among the sources; it is the plain
    append(text) emitter, whose result is the text appended so far. *)
Definition SimpleGenerator : Type := string.
Definition simpleWrite (g : SimpleGenerator) (s : string) : SimpleGenerator :=
  g +:+ s.

(** ** The type model *)

Definition RecordId : Type := nat.
Definition PointerId : Type := nat.
Definition ProcedureTypeId : Type := nat.
Definition ScopeId : Type := nat.

(** Modelled from the spec: the basic types of [js/Types.js]
    ([Type.basic()]), each a singleton object. *)
Inductive BasicType : Type :=
  | integer | uint8 | real | bool_ | ch | set_.

(** Modelled from the spec: the type variants of [js/Types.js], section 3 of
    the specification.  [Record], [Pointer] and [Procedure] objects are
    compared by reference and are handles here. *)
Inductive Ty : Type :=
  | Basic (b : BasicType)
  | NilType
  | String_ (s : string)
  | StaticArray (init : string) (elements : Ty) (len : Z)
  | OpenArray (elements : Ty)
  | Record_ (r : RecordId)
  | Pointer (p : PointerId)
  | Procedure (p : ProcedureTypeId)
  | TypeIdType (t : Ty)      (* a type identifier used as a value *)
  | UndefinedTypeId.         (* a type identifier not yet defined *)

#[global] Instance BasicType_eq_dec : EqDecision BasicType.
Proof. solve_decision. Defined.

#[global] Instance Ty_eq_dec : EqDecision Ty.
Proof. solve_decision. Defined.

(** Compile-time constants read through [.value] as integers
    ([Code.makeIntConst], [Code.makeSetConst]).  REAL and string constants
    are not read by the contexts embedded here. *)
Inductive ConstValue : Type :=
  | IntConst (n : Z)
  | SetConst (n : Z).

Definition value (c : ConstValue) : Z :=
  match c with IntConst n => n | SetConst n => n end.

(** The numbers of the compiler are embedded as integers.  An integer of
    magnitude at most 2^53 is a JavaScript number exactly, so is its
    negation, and the text it is concatenated as is its decimal notation;
    the statements that spell out an emitted number are made for these. *)
Definition exactInteger (z : Z) : Prop := (- 2 ^ 53 <= z <= 2 ^ 53)%Z.

(** A scope object, by kind ([Scope.Module], [Scope.Procedure]). *)
Inductive ScopeKind : Type :=
  | ModuleScope (s : ScopeId)
  | ProcedureScope (s : ScopeId).

#[global] Instance ScopeKind_eq_dec : EqDecision ScopeKind.
Proof. solve_decision. Defined.

(** What a symbol denotes ([Type.Const], [Type.Variable],
    [Type.ProcedureId], [Type.TypeId], [Type.Module]). *)
Inductive Info : Type :=
  | ConstInfo (type : Ty) (cvalue : option ConstValue)
  | VariableInfo (type : Ty) (readOnly reference : bool)
  | ProcedureId (type : Ty)
  | TypeId (type : Ty)
  | LazyTypeId (type : option Ty)
  | ModuleInfo (name : string).

Record Symbol : Type := mkSymbol { sym_id : string; sym_info : Info }.

(** A symbol together with the scope it was found in; an imported symbol has
    no scope. *)
Record Found : Type := mkFound {
  found_symbol : Symbol;
  found_scope : option ScopeKind
}.

(** The message of [QualifiedIdentificator.endParse]. *)
Record QIdent : Type := mkQIdent {
  q_module : option string;
  q_id : string;
  q_code : string
}.

(** The symbol lookup of the context chain: [context.findSymbol(id)], or the
    export table of the module [m] for a qualified name. *)
Definition Lookup : Type := option string -> string -> option Found.

(** [Code.Designator]: code, lvalue code, reference-code producer, resolved
    type, originating info and owning scope. *)
Record Designator : Type := mkDesignator {
  d_code : string;
  d_lval : string;
  d_refCode : string -> Result string;
  d_type : option Ty;
  d_info : option Info;
  d_scope : option ScopeKind
}.

(** [Code.Expression]: code, type, optional designator, optional constant. *)
Record Expression : Type := makeExpression {
  e_code : string;
  e_type : option Ty;
  e_designator : option Designator;
  e_constValue : option ConstValue
}.

(** The attributes of the type and scope objects ([js/Types.js],
    [js/Scope.js]), read through [Type.recordBase],
    [Type.recordConstructor], [Type.recordScope], [Type.recordOwnFields],
    [Type.pointerBase], [instanceof Type.NonExportedRecord],
    [instanceof Procedure.Std] and [Scope.moduleSymbol(scope).id()]. *)
Record TypeStore : Type := mkTypeStore {
  recordBase : RecordId -> option RecordId;
  recordConstructor : RecordId -> string;
  recordScope : RecordId -> option ScopeKind;
  recordOwnFields : RecordId -> list (string * Ty);
  recordNonExported : RecordId -> bool;
  pointerBase : PointerId -> RecordId;
  procedureStd : ProcedureTypeId -> bool;
  moduleId : ScopeId -> string
}.

(** The code templates of the run-time library, [language().rtl]. *)
Record Rtl : Type := mkRtl {
  typeGuard : string -> string -> string;
  makeRef : string -> option string -> string;
  makeSet : string -> string;
  extend : string -> string -> string
}.

(** The operations of [js/Operator.js], by name. *)
Inductive Operator : Type :=
  | equalInt | equalStr | equalReal | equalSet
  | notEqualInt | notEqualStr | notEqualReal | notEqualSet
  | lessInt | lessStr | lessReal
  | greaterInt | greaterStr | greaterReal
  | eqLessInt | eqLessStr | eqLessReal | setInclL
  | eqGreaterInt | eqGreaterStr | eqGreaterReal | setInclR
  | isOp (type : option Ty)
  | setHasBit.

(** The line feed of the emitted text. *)
Definition LF : string := String (Ascii.ascii_of_nat 10) EmptyString.

(** ** 32-bit integer operators of JavaScript *)

Definition toInt32 (z : Z) : Z :=
  let m := (z mod 2 ^ 32)%Z in
  if (m <? 2 ^ 31)%Z then m else (m - 2 ^ 32)%Z.

(** [a << b]: the shift count is taken modulo 32. *)
Definition shl32 (a b : Z) : Z := toInt32 (Z.shiftl (toInt32 a) (b mod 32)).

(** [a | b]. *)
Definition or32 (a b : Z) : Z := toInt32 (Z.lor (toInt32 a) (toInt32 b)).

(** ** Predicates on types *)

Definition isPointer (t : Ty) : bool :=
  match t with Pointer _ => true | _ => false end.

Definition isRecord (t : Ty) : bool :=
  match t with Record_ _ => true | _ => false end.

(** [t instanceof Type.Array]: static and open arrays. *)
Definition isArray (t : Ty) : bool :=
  match t with StaticArray _ _ _ | OpenArray _ => true | _ => false end.

Definition isStaticArray (t : Ty) : bool :=
  match t with StaticArray _ _ _ => true | _ => false end.

(** [t instanceof Type.String]. *)
Definition isStringLiteral (t : Ty) : bool :=
  match t with String_ _ => true | _ => false end.

Definition isProcedure (t : Ty) : bool :=
  match t with Procedure _ => true | _ => false end.

(** Modelled from the spec: [Type.isInt] of [js/Types.js], the integer
    kinds (INTEGER and the narrower BYTE). *)
Definition isInt (t : Ty) : bool :=
  bool_decide (t = Basic integer) || bool_decide (t = Basic uint8).

(** Modelled from the spec: [Type.isString] of [js/Types.js], a string
    literal or a character array. *)
Definition isString (t : Ty) : bool :=
  match t with
  | String_ _ => true
  | StaticArray _ e _ => bool_decide (e = Basic ch)
  | OpenArray e => bool_decide (e = Basic ch)
  | _ => false
  end.

(** Modelled from the spec: [Type.stringLen] of [js/Types.js], the length
    of the literal. *)
Definition stringLen (t : Ty) : option Z :=
  match t with
  | String_ s => Some (Z.of_nat (String.length s))
  | _ => None
  end.

(** Modelled from the spec: [Type.arrayElementsType] of [js/Types.js]. *)
Definition arrayElementsType (t : Ty) : option Ty :=
  match t with
  | StaticArray _ e _ => Some e
  | OpenArray e => Some e
  | _ => None
  end.

(** [type.length()] of a static array. *)
Definition staticArrayLength (t : Ty) : option Z :=
  match t with
  | StaticArray _ _ n => Some n
  | _ => None
  end.

(** [Type.makeVariable(type, readOnly)] and
    [Type.makeVariableRef(type, readOnly)]. *)
Definition makeVariable (type : Ty) (readOnly : bool) : Info :=
  VariableInfo type readOnly false.
Definition makeVariableRef (type : Ty) (readOnly : bool) : Info :=
  VariableInfo type readOnly true.

(** [info.isReference()]: a method of variables only. *)
Definition isReference (info : option Info) : Result bool :=
  match info with
  | Some (VariableInfo _ _ r) => Ok r
  | _ => Err JsTypeError
  end.

(** [info instanceof Type.Const || info.isReadOnly()]. *)
Definition isConstOrReadOnly (info : option Info) : Result bool :=
  match info with
  | Some (ConstInfo _ _) => Ok true
  | Some (VariableInfo _ ro _) => Ok ro
  | _ => Err JsTypeError
  end.

(** [getSymbolAndScope], [getQIdSymbolAndScope] and [getSymbol]. *)
Definition getSymbolAndScope (find : Lookup) (module : option string)
    (id : string) : Result Found :=
  match find module id with
  | Some s => Ok s
  | None =>
      throw (match module with
             | Some m => "identifier '" +:+ id
                         +:+ "' is not exported by module '" +:+ m +:+ "'"
             | None => "undeclared identifier: '" +:+ id +:+ "'"
             end)
  end.

Definition getQIdSymbolAndScope (find : Lookup) (q : QIdent) : Result Found :=
  getSymbolAndScope find (q_module q) (q_id q).

Definition getSymbol (find : Lookup) (id : string) : Result Symbol :=
  f <-- getSymbolAndScope find None id ;;
  Ok (found_symbol f).

(** The state of the enclosing [ModuleDeclaration]: its own scope and the
    imported modules, module name to alias. *)
Record ModuleDeclaration : Type := mkModuleDeclaration {
  md_moduleScope : option ScopeId;
  md_imports : gmap string string
}.

(** The state of a [Designator] context. *)
Record DesignatorState : Type := mkDesignatorState {
  ds_currentType : option Ty;
  ds_info : option Info;
  ds_scope : option ScopeKind;
  ds_code : string;
  ds_lval : option string;
  ds_indexExpression : option Expression;
  ds_derefCode : option string;
  ds_propCode : option string
}.

(** The object [_indexSequence] returns. *)
Record Index : Type := mkIndex {
  i_length : option Z;
  i_type : Ty;
  i_info : Info;
  i_code : string;
  i_lval : option string;
  i_asProperty : string
}.

(** What a field access resolves to: the results of [t.denote(id, ...)],
    [field.type()], [field.asVar(...)] and [field.designatorCode(...)]
    of [js/Types.js]. *)
Record FieldAccess : Type := mkFieldAccess {
  fa_type : Ty;
  fa_info : Info;
  fa_code : string;
  fa_derefCode : string;
  fa_propCode : string
}.

(** The message a [Set] context sends its parent at the end. *)
Inductive SetMessage : Type :=
  | HandleConst (type : Ty) (v : ConstValue) (code : string)
  | HandleFactor (e : Expression).

(** The state of a [Set] context. *)
Record SetState : Type := mkSet {
  set_value : Z;        (* this.__value *)
  set_expr : string     (* this.__expr *)
}.

(** The state of a [SetElement] context. *)
Record SetElementState : Type := mkSetElement {
  se_from : option string;
  se_fromValue : option ConstValue;
  se_to : option string;
  se_toValue : option ConstValue;
  se_expr : SimpleGenerator
}.

(** The state of a [For] context. *)
Record ForState : Type := mkFor {
  f_var : option string;            (* this.__var *)
  f_initExprParsed : bool;          (* this.__initExprParsed *)
  f_toExpr : SimpleGenerator;       (* this.__toExpr *)
  f_toParsed : bool;                (* this.__toParsed *)
  f_by_parsed : bool;               (* this.__by_parsed *)
  f_by : option Z;                  (* this.__by *)
  f_out : Generator                 (* this.parent().codeGenerator() *)
}.

Inductive ForTarget : Type := ToExprGen | NullGen | ParentGen.

(** The state of a [RecordDecl] context. *)
Record RecordDecl : Type := mkRecordDecl {
  rd_cons : string;      (* this.__cons *)
  rd_type : RecordId     (* this.__type *)
}.

(** Modelled from the spec: the part of a scope of [js/Scope.js] that a
    type section uses, the declared names and the outstanding forward-type
    markers in registration order. *)
Record Scope : Type := mkScope {
  sc_symbols : gmap string Info;
  sc_unresolved : list string
}.

(** What happens inside a type section, as far as its scope is concerned. *)
Inductive TypeSectionEvent : Type :=
  | ForwardType (id : string)          (* a [ForwardTypeMsg] reaches it *)
  | TypeIdentdef (id : string)         (* [TypeDeclaration.handleIdentdef] *)
  | TypeDefined (id : string) (t : Ty) (* [TypeDeclaration.setType] *).

(** ** A small module, for the examples

    Records [A] (0), [B] (1, extends [A]), [C] (2) and [D] (3, extends [B]),
    declared in the module itself; pointer [p] points to record [p];
    procedure type 0 is a standard procedure. *)

Definition sample_types : TypeStore :=
  mkTypeStore
    (fun r => match r with 1 => Some 0 | 3 => Some 1 | _ => None end)
    (fun r => match r with 0 => "A" | 1 => "B" | 2 => "C" | _ => "D" end)
    (fun _ => Some (ModuleScope 0))
    (fun r => match r with
              | 0 => [("a", Basic integer); ("b", Basic integer)]
              | 1 => [("c", Basic integer)]
              | _ => []
              end)
    (fun _ => false)
    (fun p => p)
    (fun p => match p with 0 => true | _ => false end)
    (fun _ => "M").

Definition sample_rtl : Rtl :=
  mkRtl
    (fun from to => "RTL$.typeGuard(" +:+ from +:+ ", " +:+ to +:+ ")")
    (fun obj prop => "RTL$.makeRef(" +:+ obj +:+ ", " +:+ js_str prop +:+ ")")
    (fun expr => "RTL$.makeSet(" +:+ expr +:+ ")")
    (fun cons base => "RTL$.extend(" +:+ cons +:+ ", " +:+ base +:+ ")").

Definition sample_module : ModuleDeclaration :=
  mkModuleDeclaration (Some 0) ∅.

Definition basicName (b : BasicType) : string :=
  match b with
  | integer => "INTEGER"
  | uint8 => "BYTE"
  | real => "REAL"
  | bool_ => "BOOLEAN"
  | ch => "CHAR"
  | set_ => "SET"
  end.

Definition sample_typeName (t : Ty) : string :=
  match t with
  | Basic b => basicName b
  | Record_ 0 => "A"
  | Record_ 1 => "B"
  | Record_ 2 => "C"
  | Record_ _ => "D"
  | _ => EmptyString
  end.

Definition sample_description (t : Ty) : string :=
  match t with
  | Pointer p => "POINTER TO " +:+ sample_typeName (Record_ p)
  | String_ _ => "string"
  | StaticArray _ _ _ | OpenArray _ => "ARRAY"
  | Procedure _ => "PROCEDURE"
  | NilType => "NIL"
  | _ => sample_typeName t
  end.

Definition sample_isScalar (t : Ty) : bool :=
  match t with
  | Basic _ | NilType | Pointer _ | Procedure _ => true
  | _ => false
  end.

Definition sample_initializer (t : Ty) : string :=
  match t with
  | Basic bool_ => "false"
  | Basic _ => "0"
  | Record_ r => "new " +:+ sample_typeName t +:+ "()"
  | _ => "null"
  end.

Definition sample_mangleField (f : string) (t : Ty) : string := f.

(** The array templates of the run-time library and the constructor of
    static array types. *)
Definition sample_makeCharArray (dimensions : string) : string :=
  "RTL$.makeCharArray(" +:+ dimensions +:+ ")".

Definition sample_makeArray (arguments : string) : string :=
  "RTL$.makeArray(" +:+ arguments +:+ ")".

Definition sample_makeType (elements : Ty) (init : option string)
    (len : Z) : Ty :=
  StaticArray (default EmptyString init) elements len.

Definition sample_checkIndex (i : Z) : Result unit :=
  if (i <? 0)%Z then throw ("index is negative: " +:+ pretty i) else Ok tt.

Definition sample_areTypesMatch (a b : Ty) : bool :=
  bool_decide (a = b) || (isInt a && isInt b).

Definition sample_findPointerBaseType (a b : Ty) : option Ty :=
  match a, b with
  | Pointer p, Pointer q =>
      if bool_decide (p = q)
         || bool_decide ((p, q) ∈ [(0, 1); (0, 3); (1, 3)])
      then Some a else None
  | _, _ => None
  end.

Definition sample_generatorResult (g : Generator) : string :=
  fold_left
    (fun text op =>
       match op with
       | Write s => text +:+ s
       | OpenScope => text +:+ "{" +:+ LF
       | CloseScope ending => text +:+ "}" +:+ LF +:+ ending
       end)
    g EmptyString.

(** The identifiers in scope: the INTEGER variable [i], the record variable
    [r : B], the by-reference record parameter [v : A], the empty string
    constant [s], the array [a : ARRAY 3 OF INTEGER], the module procedure
    [P], the local procedure [L] and the standard procedure [INC]. *)
Definition sample_find : Lookup :=
  fun module id =>
    match module with
    | Some _ => None
    | None =>
        if bool_decide (id = "i") then
          Some (mkFound (mkSymbol "i" (VariableInfo (Basic integer) false false))
                  (Some (ModuleScope 0)))
        else if bool_decide (id = "r") then
          Some (mkFound (mkSymbol "r" (VariableInfo (Record_ 1) false false))
                  (Some (ModuleScope 0)))
        else if bool_decide (id = "v") then
          Some (mkFound (mkSymbol "v" (VariableInfo (Record_ 0) false true))
                  (Some (ProcedureScope 1)))
        else if bool_decide (id = "s") then
          Some (mkFound (mkSymbol "s" (ConstInfo (String_ EmptyString) None))
                  (Some (ModuleScope 0)))
        else if bool_decide (id = "a") then
          Some (mkFound
                  (mkSymbol "a"
                     (VariableInfo (StaticArray "[0, 0, 0]" (Basic integer) 3)
                        false false))
                  (Some (ModuleScope 0)))
        else if bool_decide (id = "P") then
          Some (mkFound (mkSymbol "P" (ProcedureId (Procedure 1)))
                  (Some (ModuleScope 0)))
        else if bool_decide (id = "L") then
          Some (mkFound (mkSymbol "L" (ProcedureId (Procedure 2)))
                  (Some (ProcedureScope 1)))
        else if bool_decide (id = "INC") then
          Some (mkFound (mkSymbol "INC" (ProcedureId (Procedure 0))) None)
        else None
    end.

(** An integer literal as an expression. *)
Definition intExpr (n : Z) : Expression :=
  makeExpression (pretty n) (Some (Basic integer)) None (Some (IntConst n)).

(** A variable as an expression without a constant value. *)
Definition varExpr (name : string) (t : Ty) : Expression :=
  makeExpression name (Some t) None None.

Section Translation.

Set Default Proof Using "Type".

(** The enclosing context chain and the modules that are not among the
    sources enter as parameters: the type store, the run-time library
    templates, the enclosing module declaration, and the functions of
    [js/Types.js], [js/Code.js], [js/Cast.js] and [js/CodeGenerator.js] the
    contexts call. *)
Variable types : TypeStore.
Variable rtl : Rtl.
Variable moduleDecl : ModuleDeclaration.
Variable description : Ty -> string.          (* type.description() *)
Variable typeName : Ty -> string.             (* Type.typeName(type) *)
Variable isScalar : Ty -> bool.               (* type.isScalar() *)
Variable initializer : Ty -> string.          (* type.initializer(context) *)
Variable mangleField : string -> Ty -> string. (* Type.mangleField *)
Variable intsDescription : string.            (* Type.intsDescription() *)
Variable procedureDesignatorCode : Ty -> string -> string.
Variable derefExpression : Expression -> Expression. (* Code.derefExpression *)
Variable checkIndex : Z -> Result unit.       (* Code.checkIndex *)
Variable areTypesMatch : Ty -> Ty -> bool.    (* Cast.areTypesMatch *)
Variable findPointerBaseType : Ty -> Ty -> option Ty.
Variable implicitCastFails : Ty -> Ty -> bool. (* types.implicitCast(...) *)
Variable generatorResult : Generator -> string. (* gen.result() *)

(** ** Type checks shared by the contexts *)

Definition throwTypeMismatch {A : Type} (from to : Ty) : Result A :=
  throw ("type mismatch: expected '" +:+ description to
         +:+ "', got '" +:+ description from +:+ "'").

Definition checkTypeMatch (from to : Ty) : Result unit :=
  if areTypesMatch from to then Ok tt else throwTypeMismatch from to.

Definition checkImplicitCast (from to : Ty) : Result unit :=
  if implicitCastFails from to then throwTypeMismatch from to else Ok tt.

Definition unwrapTypeId (type : Ty) : Result Ty :=
  match type with
  | TypeIdType _ | UndefinedTypeId => Ok type
  | _ => throw "type name expected"
  end.

(** [unwrapTypeId(type).type()]; the type of an identifier that is not yet
    defined is [undefined]. *)
Definition unwrapType (type : Ty) : Result (option Ty) :=
  t <-- unwrapTypeId type ;;
  match t with
  | TypeIdType t => Ok (Some t)
  | _ => Ok None
  end.

(** [Type.pointerBase] and [Type.recordBase] on type values. *)
Definition unwrapPointer (t : Ty) : Ty :=
  match t with
  | Pointer p => Record_ (pointerBase types p)
  | _ => t
  end.

Definition recordBaseOf (t : Ty) : option Ty :=
  match t with
  | Record_ r => Record_ <$> recordBase types r
  | _ => None
  end.

(** The loop of [checkTypeCast]:
    [while (t && t != fromType) t = Type.recordBase(t);] *)
Fixpoint walkBase (fuel : nat) (t : option Ty) (fromType : Ty)
  : Result (option Ty) :=
  match t with
  | None => Ok None
  | Some t' =>
      if bool_decide (t' = fromType) then Ok t
      else match fuel with
           | O => Err OutOfFuel
           | S fuel' => walkBase fuel' (recordBaseOf t') fromType
           end
  end.

Definition checkTypeCast (fuel : nat) (fromInfo : option Info)
    (fromType toType : Ty) (msg : string) : Result unit :=
  let prefix := "invalid " +:+ msg in
  let pointerExpected := isPointer fromType in
  if negb pointerExpected && negb (isRecord fromType) then
    throw (prefix +:+ ": POINTER to type or RECORD expected, got '"
           +:+ description fromType +:+ "'")
  else
    (if isRecord fromType then
       ref <-- isReference fromInfo ;;
       if negb ref then
         throw (prefix +:+ ": a value variable cannot be used")
       else if negb (isRecord toType) then
         throw (prefix +:+ ": RECORD type expected as an argument of RECORD "
                +:+ msg +:+ ", got '" +:+ description toType +:+ "'")
       else Ok tt
     else if isPointer fromType then
       if negb (isPointer toType) then
         throw (prefix +:+ ": POINTER type expected as an argument of POINTER "
                +:+ msg +:+ ", got '" +:+ description toType +:+ "'")
       else Ok tt
     else Ok tt) ;;;
    let fromType := unwrapPointer fromType in
    let toType := unwrapPointer toType in
    t <-- walkBase fuel (recordBaseOf toType) fromType ;;
    match t with
    | Some _ => Ok tt
    | None =>
        throw (prefix +:+ ": '" +:+ description toType
               +:+ "' is not an extension of '" +:+ description fromType
               +:+ "'")
    end.

(** [ModuleDeclaration.qualifyScope], where the chained [qualifyScope] of
    every context ends. *)
Definition qualifyScope (scope : option ScopeKind) : string :=
  match scope with
  | Some (ModuleScope s) =>
      if bool_decide (Some s = md_moduleScope moduleDecl) then EmptyString
      else
        let id := moduleId types s in
        match md_imports moduleDecl !! id with
        | None => "module '" +:+ id +:+ "' is not imported"
        | Some alias => alias +:+ "."
        end
  | _ => EmptyString
  end.

(** [castCode(type, context)]. *)
Definition castCode (type : Ty) : string :=
  match unwrapPointer type with
  | Record_ r => qualifyScope (recordScope types r)
                 +:+ recordConstructor types r
  | _ => js_str None
  end.

(** ** [exports.Designator] *)

Definition Designator_init : DesignatorState :=
  mkDesignatorState None None None EmptyString None None None None.

Definition Designator_handleQIdent (find : Lookup) (q : QIdent)
    (ds : DesignatorState) : Result DesignatorState :=
  found <-- getQIdSymbolAndScope find q ;;
  let info := sym_info (found_symbol found) in
  let '(currentType, code) :=
    match info with
    | TypeId t => (Some (TypeIdType t), q_code q)
    | LazyTypeId (Some t) => (Some (TypeIdType t), q_code q)
    | LazyTypeId None => (Some UndefinedTypeId, q_code q)
    | ConstInfo t _ => (Some t, q_code q)
    | VariableInfo t _ _ =>
        (Some t, match q_module q with
                 | Some _ => q_code q +:+ "()"
                 | None => q_code q
                 end)
    | ProcedureId t => (Some t, procedureDesignatorCode t (q_code q))
    | ModuleInfo _ => (ds_currentType ds, q_code q)
    end in
  Ok (mkDesignatorState currentType (Some info) (found_scope found)
        (ds_code ds +:+ code) (ds_lval ds) (ds_indexExpression ds)
        (ds_derefCode ds) (ds_propCode ds)).

Definition Designator_handleExpression (e : Expression)
    (ds : DesignatorState) : DesignatorState :=
  mkDesignatorState (ds_currentType ds) (ds_info ds) (ds_scope ds)
    (ds_code ds) (ds_lval ds) (Some e) (ds_derefCode ds) (ds_propCode ds).

Definition Designator_checkIndexType (type : option Ty) : Result unit :=
  match type with
  | None => Err JsTypeError
  | Some t =>
      if isInt t then Ok tt
      else throw (intsDescription +:+ " expression expected, got '"
                  +:+ description t +:+ "'")
  end.

Definition Designator_stringIndexCode (ds : DesignatorState) : Result string :=
  match ds_indexExpression ds with
  | None => Err JsTypeError
  | Some e => Ok (js_str (ds_derefCode ds) +:+ ".charCodeAt("
                  +:+ e_code (derefExpression e) +:+ ")")
  end.

Definition Designator_indexSequence (ds : DesignatorState)
    (info : option Info) (code : option string) (indexCode : string)
  : Result Index :=
  match ds_currentType ds with
  | None => Err JsTypeError
  | Some type =>
      let isArr := isArray type in
      if negb isArr && negb (isStringLiteral type) then
        throw ("ARRAY or string expected, got '" +:+ description type +:+ "'")
      else
        let length := if isArr then staticArrayLength type
                      else stringLen type in
        if negb isArr && bool_decide (default 0%Z length = 0%Z) then
          throw "cannot index empty string"
        else
          let indexType := if isArr then default (Basic ch)
                                            (arrayElementsType type)
                           else Basic ch in
          let code := js_str code +:+ "[" +:+ indexCode +:+ "]" in
          r <-- (if bool_decide (indexType = Basic ch)
                 then c <-- Designator_stringIndexCode ds ;; Ok (Some code, c)
                 else Ok (None, code)) ;;
          ro <-- isConstOrReadOnly info ;;
          Ok (mkIndex length indexType (makeVariable indexType ro)
                (snd r) (fst r) indexCode)
  end.

(** [Designator._checkIndexValue]; the maximum index and the index are
    written in decimal, as JavaScript writes an [exactInteger]. *)
Definition Designator_checkIndexValue (ds : DesignatorState) (index : Index)
    (pValue : option ConstValue) : Result unit :=
  match pValue with
  | None => Ok tt
  | Some pv =>
      let v := value pv in
      checkIndex v ;;;
      match ds_currentType ds, i_length index with
      | Some t, Some length =>
          if (isStaticArray t || isStringLiteral t) && (length <=? v)%Z then
            throw ("index out of bounds: maximum possible index is "
                   +:+ pretty (length - 1)%Z +:+ ", got " +:+ pretty v)
          else Ok tt
      | _, _ => Ok tt
      end
  end.

Definition Designator_handleIndexExpression (ds : DesignatorState)
  : Result Index :=
  match ds_indexExpression ds with
  | None => Err JsTypeError
  | Some e =>
      Designator_checkIndexType (e_type e) ;;;
      index <-- Designator_indexSequence ds (ds_info ds) (ds_derefCode ds)
                  (e_code (derefExpression e)) ;;
      Designator_checkIndexValue ds index (e_constValue e) ;;;
      Ok index
  end.

Definition Designator_advance (type : option Ty) (info : option Info)
    (code : string) (lval : option string) (replace : bool)
    (ds : DesignatorState) : DesignatorState :=
  mkDesignatorState type info (ds_scope ds)
    ((if replace then EmptyString else ds_code ds) +:+ code) lval
    (ds_indexExpression ds) (ds_derefCode ds) (ds_propCode ds).

Definition Designator_handleDeref (ds : DesignatorState)
  : Result DesignatorState :=
  match ds_currentType ds with
  | None => Err JsTypeError
  | Some (Pointer p) =>
      let r := pointerBase types p in
      if recordNonExported types r then
        throw "POINTER TO non-exported RECORD type cannot be dereferenced"
      else
        Ok (mkDesignatorState (Some (Record_ r)) (ds_info ds) (ds_scope ds)
              (ds_code ds) (ds_lval ds) (ds_indexExpression ds)
              (ds_derefCode ds) (ds_propCode ds))
  | Some t =>
      throw ("POINTER TO type expected, got '" +:+ description t +:+ "'")
  end.

(** [Designator.handleIdent], a field access; [field] is what the type
    resolved the identifier to. *)
Definition Designator_handleIdent (field : FieldAccess)
    (ds : DesignatorState) : Result DesignatorState :=
  ds <-- (match ds_currentType ds with
          | Some (Pointer _) => Designator_handleDeref ds
          | _ => Ok ds
          end) ;;
  let ds := mkDesignatorState (ds_currentType ds) (ds_info ds) (ds_scope ds)
              (ds_code ds) (ds_lval ds) (ds_indexExpression ds)
              (Some (fa_derefCode field)) (Some (fa_propCode field)) in
  let ds := Designator_advance (Some (fa_type field)) (Some (fa_info field))
              (fa_code field) None true ds in
  Ok (mkDesignatorState (ds_currentType ds) (ds_info ds) None
        (ds_code ds) (ds_lval ds) (ds_indexExpression ds)
        (ds_derefCode ds) (ds_propCode ds)).

Definition Designator_handleLiteral (s : string) (ds : DesignatorState)
  : Result DesignatorState :=
  ds <-- (if bool_decide (s = "]") || bool_decide (s = ",") then
            index <-- Designator_handleIndexExpression ds ;;
            let ds := mkDesignatorState (ds_currentType ds) (ds_info ds)
                        (ds_scope ds) (ds_code ds) (ds_lval ds)
                        (ds_indexExpression ds) (ds_derefCode ds)
                        (Some (i_asProperty index)) in
            Ok (Designator_advance (Some (i_type index)) (Some (i_info index))
                  (ds_code ds +:+ i_code index) (i_lval index) false ds)
          else Ok ds) ;;
  if bool_decide (s = "[") || bool_decide (s = ",") then
    Ok (mkDesignatorState (ds_currentType ds) (ds_info ds) (ds_scope ds)
          EmptyString (ds_lval ds) (ds_indexExpression ds)
          (Some (ds_code ds)) (ds_propCode ds))
  else if bool_decide (s = "^") then
    ds <-- Designator_handleDeref ds ;;
    Ok (mkDesignatorState (ds_currentType ds)
          ((fun t => makeVariableRef t false) <$> ds_currentType ds)
          (ds_scope ds) (ds_code ds) (ds_lval ds) (ds_indexExpression ds)
          (ds_derefCode ds) (ds_propCode ds))
  else Ok ds.

Definition Designator_handleTypeCast (fuel : nat) (type : Ty)
    (ds : DesignatorState) : Result DesignatorState :=
  match ds_currentType ds with
  | None => Err JsTypeError
  | Some currentType =>
      checkTypeCast fuel (ds_info ds) currentType type "type cast" ;;;
      let code := typeGuard rtl (ds_code ds) (castCode type) in
      Ok (mkDesignatorState (Some type) (ds_info ds) (ds_scope ds) code
            (ds_lval ds) (ds_indexExpression ds) (ds_derefCode ds)
            (ds_propCode ds))
  end.

Definition Designator_makeRefCode (ds : DesignatorState) (code : string)
  : Result string :=
  match ds_currentType ds with
  | None => Err JsTypeError
  | Some t =>
      if negb (isScalar t) then Ok code
      else
        ref <-- isReference (ds_info ds) ;;
        if ref then Ok code
        else if truthy (ds_derefCode ds) then
          Ok (makeRef rtl (js_str (ds_derefCode ds)) (ds_propCode ds))
        else
          Ok ("{set: function($v){" +:+ code
              +:+ " = $v;}, get: function(){return " +:+ code +:+ ";}}")
  end.

(** [Designator.endParse]: the designator handed to the parent. *)
Definition Designator_endParse (ds : DesignatorState) : Designator :=
  let code := ds_code ds in
  mkDesignator code (if truthy (ds_lval ds) then js_str (ds_lval ds) else code)
    (Designator_makeRefCode ds) (ds_currentType ds) (ds_info ds)
    (ds_scope ds).

(** ** Relational operators: [RelationOps] and [relationOp] *)

Definition throwOperatorTypeMismatch {A : Type} (op expect : string)
    (type : option Ty) : Result A :=
  match type with
  | None => Err JsTypeError
  | Some t =>
      throw ("operator '" +:+ op +:+ "' type mismatch: " +:+ expect
             +:+ " expected, got '" +:+ description t +:+ "'")
  end.

Definition useIntOrderOp (t : Ty) : bool :=
  isInt t || bool_decide (t = Basic ch).

Definition useIntEqOp (t : Ty) : bool :=
  isInt t
  || bool_decide (t = Basic bool_)
  || bool_decide (t = Basic ch)
  || isPointer t
  || isProcedure t
  || bool_decide (t = NilType).

Definition RelationOps_eq (type : Ty) : option Operator :=
  if useIntEqOp type then Some equalInt
  else if isString type then Some equalStr
  else if bool_decide (type = Basic real) then Some equalReal
  else if bool_decide (type = Basic set_) then Some equalSet
  else None.

Definition RelationOps_notEq (type : Ty) : option Operator :=
  if useIntEqOp type then Some notEqualInt
  else if isString type then Some notEqualStr
  else if bool_decide (type = Basic real) then Some notEqualReal
  else if bool_decide (type = Basic set_) then Some notEqualSet
  else None.

Definition RelationOps_less (type : Ty) : option Operator :=
  if useIntOrderOp type then Some lessInt
  else if isString type then Some lessStr
  else if bool_decide (type = Basic real) then Some lessReal
  else None.

Definition RelationOps_greater (type : Ty) : option Operator :=
  if useIntOrderOp type then Some greaterInt
  else if isString type then Some greaterStr
  else if bool_decide (type = Basic real) then Some greaterReal
  else None.

Definition RelationOps_lessEq (type : Ty) : option Operator :=
  if useIntOrderOp type then Some eqLessInt
  else if isString type then Some eqLessStr
  else if bool_decide (type = Basic real) then Some eqLessReal
  else if bool_decide (type = Basic set_) then Some setInclL
  else None.

Definition RelationOps_greaterEq (type : Ty) : option Operator :=
  if useIntOrderOp type then Some eqGreaterInt
  else if isString type then Some eqGreaterStr
  else if bool_decide (type = Basic real) then Some eqGreaterReal
  else if bool_decide (type = Basic set_) then Some setInclR
  else None.

Definition RelationOps_eqExpect : string :=
  "numeric type or SET or BOOLEAN or CHAR or character array or POINTER or PROCEDURE".
Definition RelationOps_strongRelExpect : string :=
  "numeric type or CHAR or character array".
Definition RelationOps_relExpect : string :=
  "numeric type or SET or CHAR or character array".

Definition RelationOps_coalesceType (leftType rightType : Ty) : Result Ty :=
  let type :=
    if isPointer leftType && isPointer rightType then
      match findPointerBaseType leftType rightType with
      | Some t => Some t
      | None => findPointerBaseType rightType leftType
      end
    else None in
  match type with
  | Some t => Ok t
  | None =>
      let isStrings := isString leftType && isString rightType in
      (if negb isStrings then checkTypeMatch rightType leftType else Ok tt) ;;;
      Ok leftType
  end.

(** The check of the operation [RelationOps.is] returns, made when the
    operation is applied to its left operand. *)
Definition RelationOps_is_check (fuel : nat) (type : Ty) (left : Expression)
  : Result unit :=
  match e_type left with
  | None => Err JsTypeError
  | Some leftType =>
      checkTypeCast fuel
        (match e_designator left with
         | Some d => d_info d
         | None => None
         end)
        leftType type "type test"
  end.

Definition checkSetHasBit (leftType rightType : Ty) : Result unit :=
  if negb (isInt leftType) then
    throw (intsDescription +:+ " expected as an element of SET, got '"
           +:+ typeName leftType +:+ "'")
  else checkImplicitCast rightType (Basic set_).

Definition relationOp (leftType rightType : Ty) (literal : string)
  : Result (option Operator) :=
  type <-- (if bool_decide (literal = "IS") then
              unwrapType rightType
            else if bool_decide (literal = "IN") then
              checkSetHasBit leftType rightType ;;; Ok None
            else
              t <-- RelationOps_coalesceType leftType rightType ;;
              Ok (Some t)) ;;
  let select (ops : Ty -> option Operator) (expect : string) :=
    let o : option Operator := type ≫= ops in
    (o, match o with Some _ => None | None => Some expect end) in
  let '(o, mismatch) :=
    match literal with
    | "=" => select RelationOps_eq RelationOps_eqExpect
    | "#" => select RelationOps_notEq RelationOps_eqExpect
    | "<" => select RelationOps_less RelationOps_strongRelExpect
    | ">" => select RelationOps_greater RelationOps_strongRelExpect
    | "<=" => select RelationOps_lessEq RelationOps_relExpect
    | ">=" => select RelationOps_greaterEq RelationOps_relExpect
    | "IS" => (Some (isOp type), None)
    | "IN" => (Some setHasBit, None)
    | _ => (None, None)
    end in
  match mismatch with
  | Some expect => throwOperatorTypeMismatch literal expect type
  | None => Ok o
  end.

(** ** [Term.setDesignator] *)

(** [Type.procedureType(info) instanceof Procedure.Std]. *)
Definition isStdProcedure (proc : Ty) : bool :=
  match proc with
  | Procedure p => procedureStd types p
  | _ => false
  end.

Definition isProcedureScope (scope : option ScopeKind) : bool :=
  match scope with
  | Some (ProcedureScope _) => true
  | _ => false
  end.

(** [handleExpression] is the rest of the term, [Term.handleExpression]. *)
Definition Term_setDesignator {A : Type}
    (handleExpression : Expression -> Result A) (d : Designator) : Result A :=
  (match d_info d with
   | Some (ProcedureId proc) =>
       if isStdProcedure proc then
         throw (description proc +:+ " cannot be referenced")
       else if isProcedureScope (d_scope d) then
         throw ("local procedure '" +:+ d_code d +:+ "' cannot be referenced")
       else Ok tt
   | _ => Ok tt
   end) ;;;
  let value := match d_info d with
               | Some (ConstInfo _ v) => v
               | _ => None
               end in
  handleExpression (makeExpression (d_code d) (d_type d) (Some d) value).

(** ** Set literals: [exports.Set] and [exports.SetElement] *)

Definition Set_init : SetState := mkSet 0 EmptyString.

(** [for (i = from; i <= to; ++i) value |= 1 << i], [n] iterations left;
    [++i] adds one, as it does to a number between -2^53 and 2^53, where
    the loop ends after [to - from + 1] iterations. *)
Fixpoint Set_range (n : nat) (i : Z) (v : Z) : Z :=
  match n with
  | O => v
  | S n' => Set_range n' (i + 1)%Z (or32 v (shl32 1 i))
  end.

Definition Set_appendExpr (from : option string) (to : option string)
    (st : SetState) : SetState :=
  let expr := set_expr st in
  let expr := if bool_decide (expr = EmptyString) then expr
              else expr +:+ ", " in
  let expr := if truthy to
              then expr +:+ "[" +:+ js_str from +:+ ", " +:+ js_str to +:+ "]"
              else expr +:+ js_str from in
  mkSet (set_value st) expr.

(** [Set.handleElement]; the guard [fromValue && (!to || toValue)] is
    resolved together with the inner test of [to]. *)
Definition Set_handleElement (from : option string)
    (fromValue : option ConstValue) (to : option string)
    (toValue : option ConstValue) (st : SetState) : SetState :=
  match fromValue with
  | Some fv =>
      if truthy to then
        match toValue with
        | Some tv =>
            mkSet (Set_range (Z.to_nat (value tv - value fv + 1)) (value fv)
                     (set_value st))
                  (set_expr st)
        | None => Set_appendExpr from to st
        end
      else mkSet (or32 (set_value st) (shl32 1 (value fv))) (set_expr st)
  | None => Set_appendExpr from to st
  end.

Definition Set_endParse (st : SetState) : SetMessage :=
  if bool_decide (set_expr st = EmptyString) then
    HandleConst (Basic set_) (SetConst (set_value st)) (pretty (set_value st))
  else
    let code := makeSet rtl (set_expr st) in
    let code := if bool_decide (set_value st = 0%Z) then code
                else code +:+ " | " +:+ pretty (set_value st) in
    HandleFactor (makeExpression code (Some (Basic set_)) None None).

Definition SetElement_init : SetElementState :=
  mkSetElement None None None None EmptyString.

Definition SetElement_handleExpression (e : Expression)
    (st : SetElementState) : SetElementState :=
  let value := e_constValue e in
  if negb (truthy (se_from st)) then
    mkSetElement (Some (se_expr st)) value (se_to st) (se_toValue st)
      EmptyString
  else
    mkSetElement (se_from st) (se_fromValue st) (Some (se_expr st)) value
      (se_expr st).

(** A sub-expression of a set element ends ([Expression.endParse]): its code
    goes to the generator of the element, then the element handles it. *)
Definition SetElement_expression (e : Expression) (st : SetElementState)
  : SetElementState :=
  SetElement_handleExpression e
    (mkSetElement (se_from st) (se_fromValue st) (se_to st) (se_toValue st)
       (simpleWrite (se_expr st) (e_code e))).

Definition SetElement_endParse (st : SetElementState) (parent : SetState)
  : SetState :=
  Set_handleElement (se_from st) (se_fromValue st) (se_to st) (se_toValue st)
    parent.

(** One element of a set literal, [e] or [e .. e']. *)
Definition Set_element (el : Expression * option Expression)
    (parent : SetState) : SetState :=
  let st := SetElement_expression (fst el) SetElement_init in
  let st := match snd el with
            | Some e' => SetElement_expression e' st
            | None => st
            end in
  SetElement_endParse st parent.

(** A whole set literal [{el, ..., el}]. *)
Definition Set_literal (els : list (Expression * option Expression))
  : SetMessage :=
  Set_endParse (fold_left (fun st el => Set_element el st) els Set_init).

(** ** The counted loop: [exports.For] *)

(** [For.init] over the generator of the enclosing context. *)
Definition For_init (out : Generator) : ForState :=
  mkFor None false EmptyString false false None out.

(** [For.codeGenerator]: which generator the sub-productions write to. *)
Definition For_codeGenerator (st : ForState) : ForTarget :=
  if f_initExprParsed st && negb (f_toParsed st) then ToExprGen
  else if f_toParsed st && negb (f_by_parsed st) then NullGen
  else ParentGen.

(** A call on [this.codeGenerator()]. *)
Definition For_emit (op : GenOp) (st : ForState) : ForState :=
  match For_codeGenerator st with
  | ToExprGen =>
      match op with
      | Write s =>
          mkFor (f_var st) (f_initExprParsed st) (simpleWrite (f_toExpr st) s)
                (f_toParsed st) (f_by_parsed st) (f_by st) (f_out st)
      | _ => st
      end
  | NullGen => st
  | ParentGen =>
      mkFor (f_var st) (f_initExprParsed st) (f_toExpr st)
            (f_toParsed st) (f_by_parsed st) (f_by st) (f_out st ++ [op])
  end.

Definition For_handleInitCode (id code : string) (st : ForState) : ForState :=
  For_emit (Write code)
    (mkFor (Some id) (f_initExprParsed st) (f_toExpr st)
           (f_toParsed st) (f_by_parsed st) (f_by st) (f_out st)).

Definition For_handleIdent (find : Lookup) (id : string) (st : ForState)
  : Result ForState :=
  s <-- getSymbol find id ;;
  match sym_info s with
  | VariableInfo type _ _ =>
      if bool_decide (type = Basic integer)
      then Ok (For_handleInitCode id ("for (" +:+ id +:+ " = ") st)
      else throw ("'" +:+ sym_id s +:+ "' is a '" +:+ description type
                  +:+ "' variable, 'FOR' control variable must be 'INTEGER'")
  | _ => throw ("'" +:+ sym_id s +:+ "' is not a variable")
  end.

(** [throw new Errors.Error(before + type.description() + "'")]. *)
Definition For_typeError {A : Type} (before : string) (type : option Ty)
  : Result A :=
  match type with
  | None => Err JsTypeError
  | Some t => throw (before +:+ description t +:+ "'")
  end.

Definition For_handleInitExpression (type : option Ty) (st : ForState)
  : Result ForState :=
  if bool_decide (type = Some (Basic integer))
  then Ok (mkFor (f_var st) true (f_toExpr st)
                 (f_toParsed st) (f_by_parsed st) (f_by st) (f_out st))
  else For_typeError ("'INTEGER' expression expected to assign '"
                      +:+ js_str (f_var st) +:+ "', got '") type.

Definition For_handleExpression (e : Expression) (st : ForState)
  : Result ForState :=
  let type := e_type e in
  if negb (f_initExprParsed st) then For_handleInitExpression type st
  else if negb (f_toParsed st) then
    if bool_decide (type = Some (Basic integer))
    then Ok (mkFor (f_var st) (f_initExprParsed st) (f_toExpr st)
                   true (f_by_parsed st) (f_by st) (f_out st))
    else For_typeError
           "'INTEGER' expression expected as 'TO' parameter, got '" type
  else
    if bool_decide (type = Some (Basic integer))
    then match e_constValue e with
         | None => throw "constant expression expected as 'BY' parameter"
         | Some v =>
             Ok (mkFor (f_var st) (f_initExprParsed st) (f_toExpr st)
                       (f_toParsed st) (f_by_parsed st) (Some (value v))
                       (f_out st))
         end
    else For_typeError
           "'INTEGER' expression expected as 'BY' parameter, got '" type.

(** A sub-expression of the loop header ends ([Expression.endParse] with the
    loop as parent): its code goes to the generator the loop currently
    exposes, then the loop handles the expression. *)
Definition For_expression (e : Expression) (st : ForState) : Result ForState :=
  For_handleExpression e (For_emit (Write (e_code e)) st).

(** The comparison of the loop header: [this.__by < 0 ? " >= " : " <= "]. *)
Definition For_relation (by_ : option Z) : string :=
  match by_ with
  | Some b => if (b <? 0)%Z then " >= " else " <= "
  | None => " <= "
  end.

(** The update of the control variable; the step is written in decimal, as
    JavaScript writes an [exactInteger]. *)
Definition For_step (var : string) (by_ : option Z) : string :=
  match by_ with
  | None => "++" +:+ var
  | Some b =>
      var +:+ (if (b <? 0)%Z then " -= " +:+ pretty (- b)%Z
               else " += " +:+ pretty b)
  end.

Definition For_handleBegin (st : ForState) : ForState :=
  let st := mkFor (f_var st) (f_initExprParsed st) (f_toExpr st)
                  (f_toParsed st) true (f_by st) (f_out st) in
  let var := js_str (f_var st) in
  let s := "; " +:+ var +:+ For_relation (f_by st) +:+ f_toExpr st
           +:+ "; " +:+ For_step var (f_by st) +:+ ")" in
  For_emit OpenScope (For_emit (Write s) st).

Definition For_endParse (st : ForState) : ForState :=
  For_emit (CloseScope EmptyString) st.

(** The header of [FOR id := init TO limit [BY step] DO], event by event, up
    to and including [emitForBegin]. *)
Definition For_header (find : Lookup) (id : string)
    (init limit : Expression) (step : option Expression) (out : Generator)
  : Result ForState :=
  st <-- For_handleIdent find id (For_init out) ;;
  st <-- For_expression init st ;;
  st <-- For_expression limit st ;;
  st <-- match step with
         | Some e => For_expression e st
         | None => Ok st
         end ;;
  Ok (For_handleBegin st).

(** ** Record declarations: the constructor of [exports.RecordDecl] *)

Definition RecordDecl_qualifiedBaseConstructor (rd : RecordDecl) : string :=
  match recordBase types (rd_type rd) with
  | None => EmptyString
  | Some baseType =>
      qualifyScope (recordScope types baseType)
      +:+ typeName (Record_ baseType)
  end.

Definition RecordDecl_generateBaseConstructorCallCode (rd : RecordDecl)
  : string :=
  let result := RecordDecl_qualifiedBaseConstructor rd in
  if truthy (Some result) then result +:+ ".call(this);" +:+ LF
  else EmptyString.

(** The loop [for (var f in ownFields) result += ...] over the own fields in
    insertion order. *)
Definition RecordDecl_generateFieldsInitializationCode (rd : RecordDecl)
  : string :=
  fold_left
    (fun result (f : string * Ty) =>
       let fieldType := snd f in
       result +:+ ("this." +:+ mangleField (fst f) fieldType +:+ " = "
                   +:+ initializer fieldType +:+ ";" +:+ LF))
    (recordOwnFields types (rd_type rd)) EmptyString.

(** The calls [_generateConstructor] makes on its own generator. *)
Definition RecordDecl_constructorCalls (rd : RecordDecl) : Generator :=
  [ Write ("function " +:+ rd_cons rd +:+ "()");
    OpenScope;
    Write (RecordDecl_generateBaseConstructorCallCode rd
           +:+ RecordDecl_generateFieldsInitializationCode rd);
    CloseScope EmptyString ].

Definition RecordDecl_generateConstructor (rd : RecordDecl) : string :=
  generatorResult (RecordDecl_constructorCalls rd).

Definition RecordDecl_generateInheritance (rd : RecordDecl) : string :=
  match recordBase types (rd_type rd) with
  | None => EmptyString
  | Some base =>
      let qualifiedBase := qualifyScope (recordScope types base)
                           +:+ typeName (Record_ base) in
      extend rtl (rd_cons rd) qualifiedBase +:+ ";" +:+ LF
  end.

(** [RecordDecl.endParse]: one write on the generator of the context. *)
Definition RecordDecl_endParse (rd : RecordDecl) (out : Generator)
  : Generator :=
  out ++ [Write (RecordDecl_generateConstructor rd
                 +:+ RecordDecl_generateInheritance rd)].

(** ** Type sections: [exports.TypeSection] *)

(** Modelled from the spec: [Scope.addUnresolved] of [js/Scope.js]; it
    registers a forward-type marker for the name, once. *)
Definition Scope_addUnresolved (sc : Scope) (id : string) : Scope :=
  if bool_decide (id ∈ sc_unresolved sc) then sc
  else mkScope (sc_symbols sc) (sc_unresolved sc ++ [id]).

(** Modelled from the spec: [Scope.resolve] of [js/Scope.js]; the marker of
    the name, if any, is resolved by its definition. *)
Definition Scope_resolve (sc : Scope) (id : string) : Scope :=
  mkScope (sc_symbols sc) (filter (fun x => x ≠ id) (sc_unresolved sc)).

(** Modelled from the spec: [scope.addSymbol] of [js/Scope.js];
    declare(name, info) fails if the name is already bound in the scope. *)
Definition Scope_addSymbol (sc : Scope) (id : string) (info : Info)
  : Result Scope :=
  match sc_symbols sc !! id with
  | Some _ => throw ("'" +:+ id +:+ "' already declared")
  | None => Ok (mkScope (<[id := info]> (sc_symbols sc)) (sc_unresolved sc))
  end.

(** Modelled from the spec: [Scope.unresolved] of [js/Scope.js]. *)
Definition Scope_unresolved (sc : Scope) : list string := sc_unresolved sc.

(** [Array.prototype.join]. *)
Fixpoint join (sep : string) (l : list string) : string :=
  match l with
  | [] => EmptyString
  | [x] => x
  | x :: l' => x +:+ sep +:+ join sep l'
  end.

(** [TypeSection.handleMessage] on a [ForwardTypeMsg]; the [ForwardTypeId]
    it returns resolves the name on demand and is not kept in the scope. *)
Definition TypeSection_handleForwardType (id : string) (sc : Scope) : Scope :=
  Scope_addUnresolved sc id.

(** [TypeDeclaration.handleIdentdef]. *)
Definition TypeDeclaration_handleIdentdef (id : string) (sc : Scope)
  : Result Scope :=
  Scope_addSymbol sc id (LazyTypeId None).

(** [TypeDeclaration.setType]: [Type.defineTypeId] then [Scope.resolve]. *)
Definition TypeDeclaration_setType (id : string) (type : Ty) (sc : Scope)
  : Scope :=
  Scope_resolve
    (mkScope (<[id := LazyTypeId (Some type)]> (sc_symbols sc))
       (sc_unresolved sc))
    id.

Definition TypeSection_handle (ev : TypeSectionEvent) (sc : Scope)
  : Result Scope :=
  match ev with
  | ForwardType id => Ok (TypeSection_handleForwardType id sc)
  | TypeIdentdef id => TypeDeclaration_handleIdentdef id sc
  | TypeDefined id t => Ok (TypeDeclaration_setType id t sc)
  end.

Fixpoint TypeSection_run (evs : list TypeSectionEvent) (sc : Scope)
  : Result Scope :=
  match evs with
  | [] => Ok sc
  | ev :: evs' =>
      sc' <-- TypeSection_handle ev sc ;;
      TypeSection_run evs' sc'
  end.

Definition TypeSection_endParse (sc : Scope) : Result unit :=
  let unresolved := Scope_unresolved sc in
  if bool_decide (unresolved = []) then Ok tt
  else throw ("no declaration found for '" +:+ join "', '" unresolved
              +:+ "'").

(** A whole type section over the scope [sc]. *)
Definition TypeSection_section (evs : list TypeSectionEvent) (sc : Scope)
  : Result unit :=
  sc' <-- TypeSection_run evs sc ;;
  TypeSection_endParse sc'.

(** ** The extension relation, for the statements about casts *)

(** [r] is a proper extension of [a]: [a] is met on the base chain of [r]. *)
Inductive extends : RecordId -> RecordId -> Prop :=
  | extends_base r b :
      recordBase types r = Some b -> extends r b
  | extends_step r b a :
      recordBase types r = Some b -> extends b a -> extends r a.

(** The base chain that starts at [t] ends after [n] records: base chains
    are acyclic. *)
Inductive chainEnds : option RecordId -> nat -> Prop :=
  | chainEnds_none : chainEnds None 0
  | chainEnds_some r n :
      chainEnds (recordBase types r) n -> chainEnds (Some r) (S n).

(** The record a cast targets, after unwrapping a pointer. *)
Definition targetRecord (t : Ty) : option RecordId :=
  match unwrapPointer t with
  | Record_ r => Some r
  | _ => None
  end.

(** The casts the language admits: pointer to pointer or by-reference record
    to record, the target a proper extension of the source. *)
Definition castValid (fromInfo : option Info) (fromType toType : Ty) : Prop :=
  (exists p q, fromType = Pointer p /\ toType = Pointer q
               /\ extends (pointerBase types q) (pointerBase types p))
  \/ (exists r s t ro, fromType = Record_ r /\ toType = Record_ s
                       /\ fromInfo = Some (VariableInfo t ro true)
                       /\ extends s r).

(** The length [N] an indexing step checks a constant index against: that
    of a static array or of a string literal. *)
Definition staticLength (t : option Ty) : option Z :=
  match t with
  | Some (StaticArray _ _ n) => Some n
  | Some (String_ s) => Some (Z.of_nat (String.length s))
  | _ => None
  end.

(** A forward-type marker for [id] is outstanding after the events [evs]:
    some [ForwardType id] is not followed by a definition of [id]. *)
Definition neverDefined (id : string) (evs : list TypeSectionEvent) : Prop :=
  forall t, TypeDefined id t ∉ evs.

Definition forwardPending (id : string) (evs : list TypeSectionEvent) : Prop :=
  exists before after,
    evs = before ++ ForwardType id :: after /\ neverDefined id after.

(** ** Set literals, for the statements about them *)

(** An element is folded at compile time when its first expression is
    constant and it has no second expression or a constant one. *)
Definition isConstantElement (el : Expression * option Expression) : bool :=
  match e_constValue (fst el), snd el with
  | Some _, None => true
  | Some _, Some e' =>
      match e_constValue e' with Some _ => true | None => false end
  | None, _ => false
  end.

(** The bit [k] is one of the bits a constant element denotes; the bit of a
    member [i] is [i] modulo 32. *)
Definition coversBit (el : Expression * option Expression) (k : Z) : Prop :=
  match e_constValue (fst el), snd el with
  | Some fv, None => (value fv mod 32 = k)%Z
  | Some fv, Some e' =>
      match e_constValue e' with
      | Some tv => exists i, (value fv <= i <= value tv)%Z /\ (i mod 32 = k)%Z
      | None => False
      end
  | None, _ => False
  end.

(** The constants of the element lie where counting by one is exact: from
    -2^53 to below 2^53, so that the loop over a range reaches its end. *)
Definition exactMembers (el : Expression * option Expression) : Prop :=
  forall c,
    e_constValue (fst el) = Some c
    \/ (exists e', snd el = Some e' /\ e_constValue e' = Some c) ->
    (- 2 ^ 53 <= value c < 2 ^ 53)%Z.

(** What a constant element adds to the bits collected so far. *)
Definition elementBits (el : Expression * option Expression) (v : Z) : Z :=
  match e_constValue (fst el), snd el with
  | Some fv, None => or32 v (shl32 1 (value fv))
  | Some fv, Some e' =>
      match e_constValue e' with
      | Some tv => Set_range (Z.to_nat (value tv - value fv + 1)) (value fv) v
      | None => v
      end
  | None, _ => v
  end.

(** The bits of the constant elements of a literal. *)
Definition constantBits (els : list (Expression * option Expression)) : Z :=
  fold_left (fun v el => elementBits el v) els 0%Z.

(** The argument a non-constant element contributes to the set builder. *)
Definition elementCode (el : Expression * option Expression) : string :=
  match snd el with
  | None => e_code (fst el)
  | Some e' => "[" +:+ e_code (fst el) +:+ ", " +:+ e_code e' +:+ "]"
  end.

(** The code of every expression of the element is a non-empty text. *)
Definition codesNonEmpty (el : Expression * option Expression) : Prop :=
  e_code (fst el) <> EmptyString
  /\ forall e', snd el = Some e' -> e_code e' <> EmptyString.

(** The set-builder argument list as the contexts accumulate it. *)
Definition appendAll (expr : string) (codes : list string) : string :=
  fold_left
    (fun e c => (if bool_decide (e = EmptyString) then EmptyString
                 else e +:+ ", ") +:+ c)
    codes expr.

(** ** Conditions and loops: [exports.If], [exports.While],
    [exports.Repeat], [exports.Until] *)

Variable opNot : Expression -> Expression.    (* op.not of js/Operator.js *)

(** [Expression.endParse] towards a parent context with state [S]: the code
    of the expression goes to the generator the parent exposes, then the
    parent handles the expression. *)
Definition Expression_endParse {S : Type} (write : string -> S -> S)
    (handleExpression : Expression -> S -> Result S) (e : Expression)
    (st : S) : Result S :=
  match e_type e with
  | None =>
      throw "procedure returning no result cannot be used in an expression"
  | Some _ => handleExpression e (write (e_code e) st)
  end.

Definition handleIfExpression (e : Expression) : Result unit :=
  match e_type e with
  | None => Err JsTypeError
  | Some type =>
      if bool_decide (type = Basic bool_) then Ok tt
      else throw ("'BOOLEAN' expression expected, got '"
                  +:+ description type +:+ "'")
  end.

(** [gen.write(s)] on the block generator. *)
Definition genWrite (s : string) (out : Generator) : Generator :=
  out ++ [Write s].

Definition If_init (out : Generator) : Generator := out ++ [Write "if ("].

Definition If_handleExpression (e : Expression) (out : Generator)
  : Result Generator :=
  handleIfExpression e ;;;
  Ok (out ++ [Write ")"; OpenScope]).

Definition If_handleLiteral (s : string) (out : Generator) : Generator :=
  if bool_decide (s = "ELSIF") then
    out ++ [CloseScope EmptyString; Write "else if ("]
  else if bool_decide (s = "ELSE") then
    out ++ [CloseScope EmptyString; Write "else "; OpenScope]
  else out.

Definition If_endParse (out : Generator) : Generator :=
  out ++ [CloseScope EmptyString].

(** One guarded branch: the condition ends, then the statements of the
    branch write [body]. *)
Definition If_branch (branch : Expression * Generator) (out : Generator)
  : Result Generator :=
  out <-- Expression_endParse genWrite If_handleExpression (fst branch) out ;;
  Ok (out ++ snd branch).

Fixpoint If_elsifs (branches : list (Expression * Generator))
    (out : Generator) : Result Generator :=
  match branches with
  | [] => Ok out
  | branch :: branches' =>
      out <-- If_branch branch (If_handleLiteral "ELSIF" out) ;;
      If_elsifs branches' out
  end.

(** [IF c THEN body {ELSIF c THEN body} [ELSE body] END], event by event. *)
Definition If_statement (first : Expression * Generator)
    (rest : list (Expression * Generator)) (else_ : option Generator)
    (out : Generator) : Result Generator :=
  out <-- If_branch first (If_init out) ;;
  out <-- If_elsifs rest out ;;
  let out := match else_ with
             | Some body => If_handleLiteral "ELSE" out ++ body
             | None => out
             end in
  Ok (If_endParse out).

Definition While_init (out : Generator) : Generator :=
  out ++ [Write "while (true)"; OpenScope; Write "if ("].

Definition While_handleExpression (e : Expression) (out : Generator)
  : Result Generator :=
  handleIfExpression e ;;;
  Ok (out ++ [Write ")"; OpenScope]).

Definition While_handleLiteral (s : string) (out : Generator) : Generator :=
  if bool_decide (s = "ELSIF") then
    out ++ [CloseScope EmptyString; Write "else if ("]
  else out.

Definition While_endParse (out : Generator) : Generator :=
  out ++ [CloseScope (" else break;" +:+ LF); CloseScope EmptyString].

Definition While_branch (branch : Expression * Generator) (out : Generator)
  : Result Generator :=
  out <-- Expression_endParse genWrite While_handleExpression (fst branch)
            out ;;
  Ok (out ++ snd branch).

Fixpoint While_elsifs (branches : list (Expression * Generator))
    (out : Generator) : Result Generator :=
  match branches with
  | [] => Ok out
  | branch :: branches' =>
      out <-- While_branch branch (While_handleLiteral "ELSIF" out) ;;
      While_elsifs branches' out
  end.

(** [WHILE c DO body {ELSIF c DO body} END], event by event. *)
Definition While_statement (first : Expression * Generator)
    (rest : list (Expression * Generator)) (out : Generator)
  : Result Generator :=
  out <-- While_branch first (While_init out) ;;
  out <-- While_elsifs rest out ;;
  Ok (While_endParse out).

Definition Repeat_init (out : Generator) : Generator :=
  out ++ [Write "do "; OpenScope].

Definition Until_init (out : Generator) : Generator :=
  out ++ [CloseScope " while ("].

(** [Until.handleExpression]; the generator of an [Until] context itself is
    the null generator, the negated condition goes to that of the parent. *)
Definition Until_handleExpression (e : Expression) (out : Generator)
  : Result Generator :=
  handleIfExpression e ;;;
  Ok (out ++ [Write (e_code (opNot e))]).

Definition Until_endParse (out : Generator) : Generator :=
  out ++ [Write (");" +:+ LF)].

(** [REPEAT body UNTIL c], event by event. *)
Definition Repeat_statement (body : Generator) (e : Expression)
    (out : Generator) : Result Generator :=
  let out := Until_init (Repeat_init out ++ body) in
  out <-- Expression_endParse (fun _ g => g) Until_handleExpression e out ;;
  Ok (Until_endParse out).

(** A branch after its [if (] or [else if (]: the code of the condition,
    the closing parenthesis, the block opened, the statements. *)
Definition guardedBranch (branch : Expression * Generator) : Generator :=
  [Write (e_code (fst branch)); Write ")"; OpenScope] ++ snd branch.

(** The chain of the branches of a WHILE statement inside its loop: the
    first branch after [if (], every other one after the end of the block
    before it and [else if (]. *)
Definition While_chain (first : Expression * Generator)
    (rest : list (Expression * Generator)) : Generator :=
  Write "if (" :: guardedBranch first
  ++ concat ((fun branch => [CloseScope EmptyString; Write "else if ("]
                            ++ guardedBranch branch) <$> rest).

(** The statements of the body of a counted loop write through the
    generator the loop exposes. *)
Definition For_body (body : Generator) (st : ForState) : ForState :=
  fold_left (fun st op => For_emit op st) body st.

(** [FOR id := init TO limit [BY step] DO body END], event by event. *)
Definition For_statement (find : Lookup) (id : string)
    (init limit : Expression) (step : option Expression) (body : Generator)
    (out : Generator) : Result Generator :=
  st <-- For_header find id init limit step out ;;
  Ok (f_out (For_endParse (For_body body st))).

(** The depth of open blocks after the calls [g], starting at depth [d]; no
    depth when a block is closed that was not opened. *)
Fixpoint scopeDepth (g : Generator) (d : nat) : option nat :=
  match g with
  | [] => Some d
  | Write _ :: g' => scopeDepth g' d
  | OpenScope :: g' => scopeDepth g' (S d)
  | CloseScope _ :: g' =>
      match d with
      | O => None
      | S d' => scopeDepth g' d'
      end
  end.

(** Every block the calls open is closed by them, and none else. *)
Definition balanced (g : Generator) : Prop := scopeDepth g 0 = Some 0.

(** The conditions of the branches are BOOLEAN up to the first one of
    another type [t]. *)
Definition firstNonBoolean (branches : list (Expression * Generator))
    (t : Ty) : Prop :=
  exists before e body after,
    branches = before ++ (e, body) :: after
    /\ Forall (fun b => e_type (fst b) = Some (Basic bool_)) before
    /\ e_type e = Some t /\ t <> Basic bool_.

(** ** The multi-way branch: [exports.Case], [exports.CaseLabelList],
    [exports.CaseLabel], [exports.CaseRange] *)

(** Modelled from the spec: [Type.stringAsChar] of [js/Types.js]; a string
    literal of one character degrades to the code of the character. *)
Definition stringAsChar (t : Ty) : option Z :=
  match t with
  | String_ (String c EmptyString) => Some (Z.of_nat (Ascii.nat_of_ascii c))
  | _ => None
  end.

Record CaseState : Type := mkCase {
  cs_type : option Ty;        (* this.__type *)
  cs_firstCase : bool;        (* this.__firstCase *)
  cs_var : string;            (* this.__var *)
  cs_out : Generator          (* this.codeGenerator() *)
}.

(** [Case.init]; [var] is the name [generateTempVar("case")] of the scope
    returned. *)
Definition Case_init (var : string) (out : Generator) : CaseState :=
  mkCase None true var (out ++ [Write ("var " +:+ var +:+ " = ")]).

Definition Case_write (s : string) (st : CaseState) : CaseState :=
  mkCase (cs_type st) (cs_firstCase st) (cs_var st) (cs_out st ++ [Write s]).

Definition Case_handleExpression (e : Expression) (st : CaseState)
  : Result CaseState :=
  match e_type e with
  | None => Err JsTypeError
  | Some type =>
      let '(type, st) :=
        if isStringLiteral type then
          match stringAsChar type with
          | Some v => (Basic ch, Case_write (pretty v) st)
          | None => (type, st)
          end
        else (type, st) in
      if negb (isInt type) && negb (bool_decide (type = Basic ch)) then
        throw (intsDescription +:+ " or 'CHAR' expected as CASE expression")
      else
        Ok (Case_write (";" +:+ LF)
              (mkCase (Some type) (cs_firstCase st) (cs_var st) (cs_out st)))
  end.

Definition Case_beginCase (st : CaseState) : CaseState :=
  if cs_firstCase st then mkCase (cs_type st) false (cs_var st) (cs_out st)
  else Case_write "else " st.

Definition Case_handleLabelType (type : Ty) (st : CaseState) : Result unit :=
  match cs_type st with
  | None => Err JsTypeError
  | Some caseType =>
      if areTypesMatch type caseType then Ok tt
      else throw ("label must be '" +:+ typeName caseType
                  +:+ "' (the same as case expression), got '"
                  +:+ typeName type +:+ "'")
  end.

(** A label as the parser delivers it to [CaseRange]: a literal constant or
    an identifier. *)
Inductive CaseLabelToken : Type :=
  | LabelConst (type : Ty) (v : option ConstValue)
  | LabelIdent (id : string).

(** The state of a [CaseRange] context: [__from] and [__to]. *)
Definition CaseRangeState : Type := (option ConstValue * option ConstValue)%type.

Definition CaseRange_handleLabel (st : CaseState) (type : Ty)
    (v : option ConstValue) (r : CaseRangeState) : Result CaseRangeState :=
  Case_handleLabelType type st ;;;
  match fst r with
  | None => Ok (v, snd r)
  | Some _ => Ok (fst r, v)
  end.

Definition CaseRange_handleConst (st : CaseState) (type : Ty)
    (v : option ConstValue) (r : CaseRangeState) : Result CaseRangeState :=
  if isStringLiteral type then
    match stringAsChar type with
    | None => throw "single-character string expected"
    | Some c => CaseRange_handleLabel st (Basic ch) (Some (IntConst c)) r
    end
  else CaseRange_handleLabel st type v r.

Definition CaseRange_handleIdent (find : Lookup) (st : CaseState)
    (id : string) (r : CaseRangeState) : Result CaseRangeState :=
  s <-- getSymbol find id ;;
  match sym_info s with
  | ConstInfo type v =>
      if isStringLiteral type then CaseRange_handleConst st type None r
      else CaseRange_handleLabel st type v r
  | _ => throw ("'" +:+ id +:+ "' is not a constant")
  end.

Definition CaseRange_token (find : Lookup) (st : CaseState)
    (token : CaseLabelToken) (r : CaseRangeState) : Result CaseRangeState :=
  match token with
  | LabelConst type v => CaseRange_handleConst st type v r
  | LabelIdent id => CaseRange_handleIdent find st id r
  end.

(** The condition of one range over the case variable [v]; the labels are
    written in decimal, as JavaScript writes an [exactInteger]. *)
Definition CaseLabelList_cond (v : string) (from : ConstValue)
    (to : option ConstValue) : string :=
  match to with
  | None => v +:+ " === " +:+ pretty (value from)
  | Some to =>
      "(" +:+ v +:+ " >= " +:+ pretty (value from) +:+ " && " +:+ v
      +:+ " <= " +:+ pretty (value to) +:+ ")"
  end.

Definition CaseLabel_caseLabelBegin (st : CaseState) : CaseState :=
  Case_write "if (" (Case_beginCase st).

(** [CaseLabelList.handleRange] over the glue of the list and the state of
    the enclosing [Case]. *)
Definition CaseLabelList_handleRange (r : CaseRangeState)
    (gs : string * CaseState) : Result (string * CaseState) :=
  let '(glue, st) := gs in
  let st := if bool_decide (glue = EmptyString)
            then CaseLabel_caseLabelBegin st else st in
  match fst r with
  | None => Err JsTypeError
  | Some from =>
      Ok (" || ",
          Case_write (glue +:+ CaseLabelList_cond (cs_var st) from (snd r)) st)
  end.

Definition CaseLabel_caseLabelEnd (st : CaseState) : CaseState :=
  mkCase (cs_type st) (cs_firstCase st) (cs_var st)
    (cs_out st ++ [Write ")"; OpenScope]).

Definition CaseLabel_endParse (st : CaseState) : CaseState :=
  mkCase (cs_type st) (cs_firstCase st) (cs_var st)
    (cs_out st ++ [CloseScope EmptyString]).

(** One range [label] or [label .. label]: its labels, then its end. *)
Definition CaseRange_range (find : Lookup)
    (labels : CaseLabelToken * option CaseLabelToken)
    (gs : string * CaseState) : Result (string * CaseState) :=
  r <-- CaseRange_token find (snd gs) (fst labels) (None, None) ;;
  r <-- match snd labels with
        | Some token => CaseRange_token find (snd gs) token r
        | None => Ok r
        end ;;
  CaseLabelList_handleRange r gs.

Fixpoint CaseLabelList_ranges (find : Lookup)
    (ranges : list (CaseLabelToken * option CaseLabelToken))
    (gs : string * CaseState) : Result (string * CaseState) :=
  match ranges with
  | [] => Ok gs
  | labels :: ranges' =>
      gs <-- CaseRange_range find labels gs ;;
      CaseLabelList_ranges find ranges' gs
  end.

(** One case [labels : body]. *)
Definition CaseLabel_case (find : Lookup)
    (case : list (CaseLabelToken * option CaseLabelToken) * Generator)
    (st : CaseState) : Result CaseState :=
  gs <-- CaseLabelList_ranges find (fst case) (EmptyString, st) ;;
  let st := CaseLabel_caseLabelEnd (snd gs) in
  let st := mkCase (cs_type st) (cs_firstCase st) (cs_var st)
              (cs_out st ++ snd case) in
  Ok (CaseLabel_endParse st).

Fixpoint Case_cases (find : Lookup)
    (cases : list (list (CaseLabelToken * option CaseLabelToken) * Generator))
    (st : CaseState) : Result CaseState :=
  match cases with
  | [] => Ok st
  | case :: cases' =>
      st <-- CaseLabel_case find case st ;;
      Case_cases find cases' st
  end.

(** [CASE e OF case {"|" case} END], event by event. *)
Definition Case_statement (find : Lookup) (var : string) (e : Expression)
    (cases : list (list (CaseLabelToken * option CaseLabelToken) * Generator))
    (out : Generator) : Result Generator :=
  st <-- Expression_endParse Case_write Case_handleExpression e
           (Case_init var out) ;;
  st <-- Case_cases find cases st ;;
  Ok (cs_out st).

(** The text the [Write] calls of [g] add up to. *)
Fixpoint writtenText (g : Generator) : string :=
  match g with
  | [] => EmptyString
  | Write s :: g' => s +:+ writtenText g'
  | _ :: g' => writtenText g'
  end.

(** A literal label: a number of the type [type], or a character, which
    the parser delivers as a string literal of one character. *)
Inductive LiteralLabel : Type :=
  | NumberLabel (type : Ty) (v : ConstValue)
  | CharLabel (c : Ascii.ascii).

(** The label as [CaseRange.handleConst] receives it; the value that comes
    with a string literal is replaced there and is left out. *)
Definition labelToken (l : LiteralLabel) : CaseLabelToken :=
  match l with
  | NumberLabel type v => LabelConst type (Some v)
  | CharLabel c => LabelConst (String_ (String c EmptyString)) None
  end.

(** The constant a literal label is compared as: the number, or the code of
    the character. *)
Definition labelConst (l : LiteralLabel) : ConstValue :=
  match l with
  | NumberLabel _ v => v
  | CharLabel c => IntConst (Z.of_nat (Ascii.nat_of_ascii c))
  end.

(** The label fits a case expression of the type [T]: a number is an exact
    integer of a type that is not a string literal and matches [T], a
    character needs CHAR to match [T]. *)
Definition labelFits (T : Ty) (l : LiteralLabel) : Prop :=
  match l with
  | NumberLabel type v =>
      isStringLiteral type = false /\ areTypesMatch type T = true
      /\ exactInteger (value v)
  | CharLabel _ => areTypesMatch (Basic ch) T = true
  end.

Definition rangeFits (T : Ty) (r : LiteralLabel * option LiteralLabel)
  : Prop :=
  labelFits T (fst r) /\ forall l, snd r = Some l -> labelFits T l.

(** A range of literal labels as [CaseRange] reads it, and the constants
    it is compared as. *)
Definition labelRange (r : LiteralLabel * option LiteralLabel)
  : CaseLabelToken * option CaseLabelToken :=
  (labelToken (fst r), labelToken <$> snd r).

Definition rangeConsts (r : LiteralLabel * option LiteralLabel)
  : ConstValue * option ConstValue :=
  (labelConst (fst r), labelConst <$> snd r).

(** The writes of the conditions of a label list, the first one after the
    glue [glue]. *)
Fixpoint rangeWrites (var glue : string)
    (rs : list (ConstValue * option ConstValue)) : Generator :=
  match rs with
  | [] => []
  | r :: rs' =>
      Write (glue +:+ CaseLabelList_cond var (fst r) (snd r))
      :: rangeWrites var " || " rs'
  end.

(** A case with literal labels: its ranges, the first apart, and the calls
    of its statements. *)
Definition LiteralCase : Type :=
  ((LiteralLabel * option LiteralLabel)
   * list (LiteralLabel * option LiteralLabel) * Generator)%type.

Definition literalCase (c : LiteralCase)
  : list (CaseLabelToken * option CaseLabelToken) * Generator :=
  (map labelRange (fst (fst c) :: snd (fst c)), snd c).

Definition caseFits (T : Ty) (c : LiteralCase) : Prop :=
  Forall (rangeFits T) (fst (fst c) :: snd (fst c)).

(** The guard of a case over the variable [var]: [else ] unless the case
    is the first, [if (], the conditions of its ranges and [)]. *)
Definition caseGuard (first : bool) (var : string)
    (rs : list (ConstValue * option ConstValue)) : Generator :=
  (if first then [] else [Write "else "])
  ++ [Write "if ("] ++ rangeWrites var EmptyString rs ++ [Write ")"].

(** What a case writes: its guard and the block of its statements. *)
Definition caseBlock (first : bool) (var : string) (c : LiteralCase)
  : Generator :=
  caseGuard first var (map rangeConsts (fst (fst c) :: snd (fst c)))
  ++ [OpenScope] ++ snd c ++ [CloseScope EmptyString].

(** What the cases of a CASE statement write, one block after the other;
    [first] tells whether no case was written before them. *)
Fixpoint caseBlocks (first : bool) (var : string) (cases : list LiteralCase)
  : Generator :=
  match cases with
  | [] => []
  | c :: cases' => caseBlock first var c ++ caseBlocks false var cases'
  end.

(** ** Arithmetic and logical operators: [exports.AddOperator],
    [exports.MulOperator] and the unary operators of
    [exports.SimpleExpression] *)

(** The operations of [js/Operator.js] these contexts select, by name. *)
Inductive ArithOperator : Type :=
  | addInt | addReal | setUnion
  | subInt | subReal | setDiff
  | mulInt | mulReal | setIntersection
  | divReal | setSymmetricDiff
  | divInt | modOp
  | andOp | orOp
  | negateInt | negateReal | setComplement | unaryPlus.

(** Modelled from the spec: [Type.numeric()] of [js/Types.js], the numeric
    basic types. *)
Definition numeric : list Ty := [Basic integer; Basic uint8; Basic real].

(** A check of an operand type and what it expects, as
    [numericOpTypeCheck], [numericOrSetOpTypeCheck] and [intOpTypeCheck]. *)
Record OpTypeCheck : Type := mkOpTypeCheck {
  expect : string;
  check : Ty -> bool
}.

Definition numericOpTypeCheck : OpTypeCheck :=
  mkOpTypeCheck "numeric type" (fun t => bool_decide (t ∈ numeric)).

Definition numericOrSetOpTypeCheck : OpTypeCheck :=
  mkOpTypeCheck (expect numericOpTypeCheck +:+ " or SET")
    (fun t => check numericOpTypeCheck t || bool_decide (t = Basic set_)).

Definition intOpTypeCheck : OpTypeCheck :=
  mkOpTypeCheck intsDescription isInt.

Definition assertOpType (type : Ty) (c : OpTypeCheck) (literal : string)
  : Result unit :=
  if check c type then Ok tt
  else throwOperatorTypeMismatch literal (expect c) (Some type).

Definition assertNumericOp (type : Ty) (literal : string)
    (op : ArithOperator) (intOp : option ArithOperator)
  : Result ArithOperator :=
  assertOpType type numericOpTypeCheck literal ;;;
  Ok (match intOp with
      | Some o => if isInt type then o else op
      | None => op
      end).

(** [intOp] is [undefined] in one call of the source, so that the result
    may be [undefined]. *)
Definition assertNumericOrSetOp (type : Ty) (literal : string)
    (op : ArithOperator) (intOp : option ArithOperator)
    (setOp : ArithOperator) : Result (option ArithOperator) :=
  assertOpType type numericOrSetOpTypeCheck literal ;;;
  Ok (if isInt type then intOp
      else if bool_decide (type = Basic set_) then Some setOp
      else Some op).

Definition assertIntOp (type : Ty) (literal : string) (op : ArithOperator)
  : Result ArithOperator :=
  assertOpType type intOpTypeCheck literal ;;;
  Ok op.

Definition AddOperator_matchPlusOperator (type : Ty) : option ArithOperator :=
  if bool_decide (type = Basic set_) then Some setUnion
  else if isInt type then Some addInt
  else if bool_decide (type = Basic real) then Some addReal
  else None.

Definition AddOperator_expectPlusOperator : string := "numeric type or SET".

(** [AddOperator.__matchOperator]; the operator, if any, is handed to the
    parent by [handleLiteral]. *)
Definition AddOperator_matchOperator (s : string) (type : Ty)
  : Result (option ArithOperator) :=
  match s with
  | "+" =>
      match AddOperator_matchPlusOperator type with
      | Some o => Ok (Some o)
      | None =>
          throwOperatorTypeMismatch s AddOperator_expectPlusOperator
            (Some type)
      end
  | "-" => assertNumericOrSetOp type s subReal (Some subInt) setDiff
  | "OR" =>
      if bool_decide (type = Basic bool_) then Ok (Some orOp)
      else throw ("BOOLEAN expected as operand of 'OR', got '"
                  +:+ description type +:+ "'")
  | _ => Ok None
  end.

(** [MulOperator.handleLiteral], up to the operator it hands to the
    parent. *)
Definition MulOperator_handleLiteral (s : string) (type : Ty)
  : Result (option ArithOperator) :=
  if bool_decide (s = "*") then
    assertNumericOrSetOp type s mulReal (Some mulInt) setIntersection
  else if bool_decide (s = "/") then
    if isInt type then throw "operator DIV expected for integer division"
    else assertNumericOrSetOp type s divReal None setSymmetricDiff
  else if bool_decide (s = "DIV") then
    o <-- assertIntOp type s divInt ;; Ok (Some o)
  else if bool_decide (s = "MOD") then
    o <-- assertIntOp type s modOp ;; Ok (Some o)
  else if bool_decide (s = "&") then
    if bool_decide (type = Basic bool_) then Ok (Some andOp)
    else throw ("BOOLEAN expected as operand of '&', got '"
                +:+ description type +:+ "'")
  else Ok None.

(** The operator [SimpleExpression.handleTerm] selects for the sign in
    front of a term. *)
Definition SimpleExpression_unaryOperator (s : string) (type : Ty)
  : Result (option ArithOperator) :=
  match s with
  | "-" => assertNumericOrSetOp type s negateReal (Some negateInt)
             setComplement
  | "+" => o <-- assertNumericOp type s unaryPlus None ;; Ok (Some o)
  | _ => Ok None
  end.

(** The class of a type for the arithmetic operators. *)
Inductive OperandClass : Type :=
  | IntegerOperand | RealOperand | SetOperand | OtherOperand.

Definition operandClass (t : Ty) : OperandClass :=
  if isInt t then IntegerOperand
  else if bool_decide (t = Basic real) then RealOperand
  else if bool_decide (t = Basic set_) then SetOperand
  else OtherOperand.

(** ** Imports: [ModuleImport] and [exports.ModuleDeclaration] *)

(** The state of a [ModuleImport] context.  [__import] is an object used as
    a map from alias to module name; its keys are identifiers, which
    JavaScript enumerates in insertion order, so that it is the list of its
    entries in that order. *)
Record ModuleImportState : Type := mkModuleImport {
  mi_import : list (string * option string);
  mi_currentModule : option string;
  mi_currentAlias : option string
}.

Definition ModuleImport_init : ModuleImportState :=
  mkModuleImport [] None None.

Definition ModuleImport_handleIdent (id : string) (st : ModuleImportState)
  : ModuleImportState :=
  mkModuleImport (mi_import st) (Some id) (mi_currentAlias st).

(** The loop of [__handleImport] over the entries so far. *)
Fixpoint ModuleImport_checkImport (entries : list (string * option string))
    (alias : option string) (module : option string) : Result unit :=
  match entries with
  | [] => Ok tt
  | (a, m) :: entries' =>
      if bool_decide (Some a = alias) then
        throw ("duplicated alias: '" +:+ js_str alias +:+ "'")
      else if bool_decide (m = module) then
        throw ("module already imported: '" +:+ js_str module +:+ "'")
      else ModuleImport_checkImport entries' alias module
  end.

Definition ModuleImport_handleImport (st : ModuleImportState)
  : Result ModuleImportState :=
  let '(alias, currentAlias) :=
    if truthy (mi_currentAlias st) then (mi_currentAlias st, None)
    else (mi_currentModule st, mi_currentAlias st) in
  ModuleImport_checkImport (mi_import st) alias (mi_currentModule st) ;;;
  Ok (mkModuleImport
        (mi_import st ++ [(js_str alias, mi_currentModule st)])
        (mi_currentModule st) currentAlias).

Definition ModuleImport_handleLiteral (s : string) (st : ModuleImportState)
  : Result ModuleImportState :=
  if bool_decide (s = ":=") then
    Ok (mkModuleImport (mi_import st) (mi_currentModule st)
          (mi_currentModule st))
  else if bool_decide (s = ",") then ModuleImport_handleImport st
  else Ok st.

(** One entry of an import list, [module] or [alias := module]. *)
Definition ModuleImport_item (item : option string * string)
    (st : ModuleImportState) : Result ModuleImportState :=
  st <-- match fst item with
         | Some alias =>
             ModuleImport_handleLiteral ":="
               (ModuleImport_handleIdent alias st)
         | None => Ok st
         end ;;
  Ok (ModuleImport_handleIdent (snd item) st).

(** The events of [IMPORT item {"," item}] before the end of the list. *)
Fixpoint ModuleImport_items (first : option string * string)
    (rest : list (option string * string)) (st : ModuleImportState)
  : Result ModuleImportState :=
  st <-- ModuleImport_item first st ;;
  match rest with
  | [] => Ok st
  | item :: rest' =>
      st <-- ModuleImport_handleLiteral "," st ;;
      ModuleImport_items item rest' st
  end.

(** The first step of [ModuleImport.endParse]: the pending entry joins the
    table. *)
Definition ModuleImport_table (first : option string * string)
    (rest : list (option string * string))
  : Result (list (string * option string)) :=
  st <-- ModuleImport_items first rest ModuleImport_init ;;
  st <-- (if truthy (mi_currentModule st) then ModuleImport_handleImport st
          else Ok st) ;;
  Ok (mi_import st).

(** [Context.findModule]: the pseudo-module [JS], then the resolver of the
    language, if there is one.  [makeJS] is the module [Module.makeJS()]
    gives, from [js/Module.js]. *)
Definition Context_findModule (makeJS : Info)
    (moduleResolver : option (option string -> option Info))
    (name : option string) : option Info :=
  if bool_decide (name = Some "JS") then Some makeJS
  else match moduleResolver with
       | Some resolve => resolve name
       | None => None
       end.

(** [ModuleDeclaration.findModule] for the module named [self]. *)
Definition ModuleDeclaration_findModule (makeJS : Info)
    (moduleResolver : option (option string -> option Info))
    (self : option string) (name : option string) : Result (option Info) :=
  if bool_decide (name = self) then
    throw ("module '" +:+ js_str self +:+ "' cannot import itself")
  else Ok (Context_findModule makeJS moduleResolver name).

(** The loop of [ModuleImport.endParse] over the table: the symbols of the
    modules found and the names of those that were not ([join] renders an
    undefined name as the empty text). *)
Fixpoint ModuleImport_resolve (makeJS : Info)
    (moduleResolver : option (option string -> option Info))
    (self : option string)
    (entries : list (string * option string))
    (modules : list Symbol) (unresolved : list string)
  : Result (list Symbol * list string) :=
  match entries with
  | [] => Ok (modules, unresolved)
  | (alias, moduleName) :: entries' =>
      module <-- ModuleDeclaration_findModule makeJS moduleResolver self
                   moduleName ;;
      match module with
      | None =>
          ModuleImport_resolve makeJS moduleResolver self entries' modules
            (unresolved ++ [default EmptyString moduleName])
      | Some m =>
          ModuleImport_resolve makeJS moduleResolver self entries'
            (modules ++ [mkSymbol alias m]) unresolved
      end
  end.

(** [ModuleImport.endParse] after the pending entry: the symbols handed to
    [handleImport] of the module declaration. *)
Definition ModuleImport_endParse (makeJS : Info)
    (moduleResolver : option (option string -> option Info))
    (self : option string) (entries : list (string * option string))
  : Result (list Symbol) :=
  r <-- ModuleImport_resolve makeJS moduleResolver self entries [] [] ;;
  if bool_decide (snd r = []) then Ok (fst r)
  else throw ("module(s) not found: " +:+ join ", " (snd r)).

(** [Type.moduleName(s.info())]. *)
Definition moduleNameOf (s : Symbol) : option string :=
  match sym_info s with
  | ModuleInfo name => Some name
  | _ => None
  end.

(** The table [__imports] of [ModuleDeclaration.handleImport], module name
    to alias, as [qualifyScope] reads it. *)
Definition ModuleDeclaration_imports (modules : list Symbol)
    (imports : gmap string string) : gmap string string :=
  fold_left
    (fun imports s => <[js_str (moduleNameOf s) := sym_id s]> imports)
    modules imports.

(** The alias an entry of an import list is bound to. *)
Definition itemAlias (item : option string * string) : string :=
  match fst item with
  | Some alias => if bool_decide (alias = EmptyString) then snd item else alias
  | None => snd item
  end.

(** The table after the entries [items] have joined [entries], one after
    the other, each checked against those before it. *)
Fixpoint importAll (entries : list (string * option string))
    (items : list (option string * string))
  : Result (list (string * option string)) :=
  match items with
  | [] => Ok entries
  | item :: items' =>
      ModuleImport_checkImport entries (Some (itemAlias item))
        (Some (snd item)) ;;;
      importAll (entries ++ [(itemAlias item, Some (snd item))]) items'
  end.

(** The entries of an import table no module is found for. *)
Definition notFound (makeJS : Info)
    (moduleResolver : option (option string -> option Info))
    (entries : list (string * option string))
  : list (string * option string) :=
  filter (fun entry => Context_findModule makeJS moduleResolver (snd entry)
                       = None) entries.

(** The symbols of the entries of an import table a module is found for. *)
Definition foundModules (makeJS : Info)
    (moduleResolver : option (option string -> option Info))
    (entries : list (string * option string)) : list Symbol :=
  omap (fun entry => mkSymbol (fst entry)
                       <$> Context_findModule makeJS moduleResolver
                             (snd entry)) entries.

(** The property names every JavaScript object inherits from
    [Object.prototype]: [id in this.__imports] holds for them whatever was
    imported. *)
Definition inheritedKeys : list string :=
  [ "constructor"; "toString"; "toLocaleString"; "valueOf";
    "hasOwnProperty"; "isPrototypeOf"; "propertyIsEnumerable"; "__proto__";
    "__defineGetter__"; "__defineSetter__"; "__lookupGetter__";
    "__lookupSetter__" ].

(** A module that imports the module [M] under the alias [L]. *)
Definition sample_importer : ModuleDeclaration :=
  mkModuleDeclaration (Some 0)
    (ModuleDeclaration_imports [mkSymbol "L" (ModuleInfo "M")] ∅).

(** ** String literals: [escapeString] *)

Definition backslash : Ascii.ascii := Eval cbv in Ascii.ascii_of_nat 92.
Definition quote : Ascii.ascii := Eval cbv in Ascii.ascii_of_nat 34.
Definition charLF : Ascii.ascii := Eval cbv in Ascii.ascii_of_nat 10.
Definition charCR : Ascii.ascii := Eval cbv in Ascii.ascii_of_nat 13.
Definition charTAB : Ascii.ascii := Eval cbv in Ascii.ascii_of_nat 9.
Definition charBS : Ascii.ascii := Eval cbv in Ascii.ascii_of_nat 8.
Definition charFF : Ascii.ascii := Eval cbv in Ascii.ascii_of_nat 12.

(** The table [escapeChars] of [escapeString]; [None] is [undefined]. *)
Definition escapeChars (c : Ascii.ascii) : option string :=
  if bool_decide (c = backslash) then
    Some (String backslash (String backslash EmptyString))
  else if bool_decide (c = quote) then
    Some (String backslash (String quote EmptyString))
  else if bool_decide (c = charLF) then Some (String backslash "n")
  else if bool_decide (c = charCR) then Some (String backslash "r")
  else if bool_decide (c = charTAB) then Some (String backslash "t")
  else if bool_decide (c = charBS) then Some (String backslash "b")
  else if bool_decide (c = charFF) then Some (String backslash "f")
  else None.

(** The loop of [escapeString] over the characters left, [result] being the
    text so far. *)
Fixpoint escapeLoop (s : string) (result : string) : string :=
  match s with
  | EmptyString => result
  | String c s' =>
      escapeLoop s'
        (result +:+ match escapeChars c with
                    | Some escape => escape
                    | None => String c EmptyString
                    end)
  end.

Definition escapeString (s : string) : string :=
  escapeLoop s (String quote EmptyString) +:+ String quote EmptyString.

(** The characters of a text. *)
Fixpoint chars (s : string) : list Ascii.ascii :=
  match s with
  | EmptyString => []
  | String c s' => c :: chars s'
  end.

(** The character an escape sequence [backslash x] of a JavaScript string
    literal stands for, for the sequences [escapeChars] produces. *)
Definition unescapeChar (x : Ascii.ascii) : option Ascii.ascii :=
  if bool_decide (x = backslash) then Some backslash
  else if bool_decide (x = quote) then Some quote
  else if bool_decide (String x EmptyString = "n") then Some charLF
  else if bool_decide (String x EmptyString = "r") then Some charCR
  else if bool_decide (String x EmptyString = "t") then Some charTAB
  else if bool_decide (String x EmptyString = "b") then Some charBS
  else if bool_decide (String x EmptyString = "f") then Some charFF
  else None.

(** Reading the body of a JavaScript string literal back: a backslash
    stands with the character after it for one character, and neither a
    bare quote nor a line terminator may occur. *)
Fixpoint unescape (fuel : nat) (s : string) : option string :=
  match fuel with
  | O => None
  | S fuel =>
      match s with
      | EmptyString => Some EmptyString
      | String c s' =>
          if bool_decide (c = backslash) then
            match s' with
            | EmptyString => None
            | String x s'' =>
                match unescapeChar x, unescape fuel s'' with
                | Some c', Some r => Some (String c' r)
                | _, _ => None
                end
            end
          else if bool_decide (c = quote) || bool_decide (c = charLF)
                  || bool_decide (c = charCR) then None
          else String c <$> unescape fuel s'
      end
  end.

(** ** Fields and base types of records: [isTypeRecursive],
    [RecordDecl.addField], [RecordDecl.setBaseType], [exportField] *)

(** [ObContext.IdentdefInfo]: a declared name and its export mark. *)
Record IdentdefInfo : Type := mkIdentdef {
  id_id : string;
  id_exported : bool
}.

Fixpoint checkIfFieldCanBeExported (name : string)
    (idents : list IdentdefInfo) (hint : string) : Result unit :=
  match idents with
  | [] => Ok tt
  | id :: idents' =>
      if negb (id_exported id) then
        throw ("field '" +:+ name +:+ "' can be exported only if " +:+ hint
               +:+ " '" +:+ id_id id +:+ "' itself is exported too")
      else checkIfFieldCanBeExported name idents' hint
  end.

(** The loop of [isTypeRecursive] over the own fields of a record, [check]
    being the recursive call on the type of a field. *)
Fixpoint anyFieldRecursive (check : Ty -> Result bool)
    (fields : list (string * Ty)) : Result bool :=
  match fields with
  | [] => Ok false
  | f :: fields' =>
      b <-- check (snd f) ;;
      if b then Ok true else anyFieldRecursive check fields'
  end.

(** [isTypeRecursive(type, base)], where [base] is the record that is being
    declared; [None] is the [undefined] base of a record without one.  The
    recursion of the source is bounded by [fuel]. *)
Fixpoint isTypeRecursive (fuel : nat) (type : option Ty) (base : RecordId)
  : Result bool :=
  match fuel with
  | O => Err OutOfFuel
  | S fuel =>
      if bool_decide (type = Some (Record_ base)) then Ok true
      else
        match type with
        | Some (Record_ r) =>
            b <-- isTypeRecursive fuel (Record_ <$> recordBase types r)
                    base ;;
            if b then Ok true
            else
              anyFieldRecursive
                (fun t => isTypeRecursive fuel (Some t) base)
                (recordOwnFields types r)
        | Some (StaticArray _ e _) | Some (OpenArray e) =>
            isTypeRecursive fuel (Some e) base
        | _ => Ok false
        end
  end.

(** The contexts a record declaration stands in that have an
    [exportField]: [TypeDeclaration], [VariableDeclaration],
    [FieldListDeclaration] and [PointerDecl]. *)
Inductive RecordParent : Type :=
  | InTypeDeclaration (id : IdentdefInfo)
  | InVariableDeclaration (idents : list IdentdefInfo)
  | InFieldListDeclaration (idents : list IdentdefInfo)
  | InPointerDecl.

(** [this.parent().exportField(name)]. *)
Definition exportField (parent : RecordParent) (name : string)
  : Result unit :=
  match parent with
  | InTypeDeclaration id => checkIfFieldCanBeExported name [id] "record"
  | InVariableDeclaration idents =>
      checkIfFieldCanBeExported name idents "variable"
  | InFieldListDeclaration idents =>
      checkIfFieldCanBeExported name idents "field"
  | InPointerDecl =>
      throw ("cannot export anonymous RECORD field: '" +:+ name +:+ "'")
  end.

(** [RecordDecl.addField(field, type)].  [typeAddField] is the method
    [addField] of the record type, from [js/Types.js]. *)
Definition RecordDecl_addField (fuel : nat)
    (typeAddField : RecordId -> IdentdefInfo -> Ty -> Result unit)
    (parent : RecordParent) (rd : RecordDecl) (field : IdentdefInfo)
    (type : Ty) : Result unit :=
  b <-- isTypeRecursive fuel (Some type) (rd_type rd) ;;
  if b then
    throw ("recursive field definition: '" +:+ id_id field +:+ "'")
  else
    typeAddField (rd_type rd) field type ;;;
    if id_exported field then exportField parent (id_id field) else Ok tt.

(** [RecordDecl.setBaseType(type)].  [typeSetBase] is the method [setBase]
    of the record type, from [js/Types.js]. *)
Definition RecordDecl_setBaseType (fuel : nat)
    (typeSetBase : RecordId -> Ty -> Result unit)
    (rd : RecordDecl) (type : Ty) : Result unit :=
  if negb (isRecord type) then
    throw ("RECORD type is expected as a base type, got '"
           +:+ description type +:+ "'")
  else
    b <-- isTypeRecursive fuel (Some type) (rd_type rd) ;;
    if b then
      throw ("recursive inheritance: '" +:+ typeName (Record_ (rd_type rd))
             +:+ "'")
    else typeSetBase (rd_type rd) type.

(** The loop of [FieldListDeclaration.endParse], [addField] being
    [parent.addField]. *)
Fixpoint FieldListDeclaration_endParse
    (addField : IdentdefInfo -> Ty -> Result unit)
    (idents : list IdentdefInfo) (type : Ty) : Result unit :=
  match idents with
  | [] => Ok tt
  | id :: idents' =>
      addField id type ;;; FieldListDeclaration_endParse addField idents' type
  end.

(** [type] holds the record [base] in it: it is the record, an array of
    such a type, or a record with such a base or such a field.  Pointers
    hold nothing. *)
Inductive holds (base : RecordId) : Ty -> Prop :=
  | holds_self : holds base (Record_ base)
  | holds_base r r' :
      recordBase types r = Some r' ->
      holds base (Record_ r') -> holds base (Record_ r)
  | holds_field r f t :
      (f, t) ∈ recordOwnFields types r ->
      holds base t -> holds base (Record_ r)
  | holds_static init e n : holds base e -> holds base (StaticArray init e n)
  | holds_open e : holds base e -> holds base (OpenArray e).

(** The height of a type over a ranking [rank] of the records. *)
Fixpoint height (rank : RecordId -> nat) (t : Ty) : nat :=
  match t with
  | Record_ r => rank r
  | StaticArray _ e _ | OpenArray e => S (height rank e)
  | _ => 0
  end.

(** The records of the store are ranked by [rank]: a base and the type of
    a field are below the record they belong to. *)
Definition ranked (rank : RecordId -> nat) : Prop :=
  forall r,
    (forall r', recordBase types r = Some r' -> rank r' < rank r)
    /\ (forall f t, (f, t) ∈ recordOwnFields types r ->
                    height rank t < rank r).

(** ** Arrays: [exports.ArrayDimensions] and [exports.ArrayDecl] *)

(** [ArrayDimensions.handleExpression], over [this.__dimensions]. *)
Definition ArrayDimensions_handleExpression (e : Expression)
    (dimensions : list Z) : Result (list Z) :=
  match e_type e with
  | None => Err JsTypeError
  | Some type =>
      if negb (bool_decide (type = Basic integer)) then
        throw ("'INTEGER' constant expression expected, got '"
               +:+ description type +:+ "'")
      else
        match e_constValue e with
        | None => throw "constant expression expected as ARRAY size"
        | Some v =>
            if (value v <=? 0)%Z then
              throw ("array size must be greater than 0, got "
                     +:+ pretty (value v))
            else Ok (dimensions ++ [value v])
        end
  end.

(** The dimensions of [ARRAY e {, e} OF], from the empty list of [init] to
    the list [endParse] hands to the array declaration. *)
Fixpoint ArrayDimensions_expressions (es : list Expression)
    (dimensions : list Z) : Result (list Z) :=
  match es with
  | [] => Ok dimensions
  | e :: es' =>
      dimensions <-- ArrayDimensions_handleExpression e dimensions ;;
      ArrayDimensions_expressions es' dimensions
  end.

(** [ArrayDecl._makeInit]; [makeCharArray] and [makeArray] are the
    templates of the run-time library. *)
Definition ArrayDecl_makeInit (makeCharArray makeArray : string -> string)
    (type : Ty) (dimensions : string) : string :=
  if bool_decide (type = Basic ch) then makeCharArray dimensions
  else
    let initializer' :=
      if isArray type || isRecord type then
        "function(){return " +:+ initializer type +:+ ";}"
      else initializer type in
    makeArray (dimensions +:+ ", " +:+ initializer').

(** The loop of [ArrayDecl.setType], which runs from the last dimension to
    the first: the type and the text [dimensions] after the iterations for
    [dims], the dimensions from index [i] on.  [makeType] is the
    constructor [language().types.StaticArray] of [_makeType].  A dimension
    is written in decimal, as JavaScript writes an [exactInteger]. *)
Fixpoint ArrayDecl_loop (makeCharArray makeArray : string -> string)
    (makeType : Ty -> option string -> Z -> Ty) (elementsType : Ty)
    (i : nat) (dims : list Z) : Ty * string :=
  match dims with
  | [] => (elementsType, EmptyString)
  | length :: dims' =>
      let '(type, dimensions) :=
        ArrayDecl_loop makeCharArray makeArray makeType elementsType
          (S i) dims' in
      let dimensions :=
        pretty length
        +:+ (if truthy (Some dimensions) then ", " +:+ dimensions
             else EmptyString) in
      let arrayInit :=
        match i with
        | S _ => None
        | O => Some (ArrayDecl_makeInit makeCharArray makeArray
                       elementsType dimensions)
        end in
      (makeType type arrayInit length, dimensions)
  end.

Definition ArrayDecl_setType (makeCharArray makeArray : string -> string)
    (makeType : Ty -> option string -> Z -> Ty) (dimensions : list Z)
    (elementsType : Ty) : Ty :=
  fst (ArrayDecl_loop makeCharArray makeArray makeType elementsType 0
         dimensions).

(** The constant an expression carries, if it is an INTEGER one. *)
Definition integerConstant (e : Expression) : option Z :=
  match e_type e, e_constValue e with
  | Some (Basic integer), Some v => Some (value v)
  | _, _ => None
  end.

(** ** Procedure declarations: [exports.ProcParams],
    [exports.FormalParametersProcDecl], [exports.ProcDecl] *)

(** [ProcArg]: the type of a formal parameter and its VAR mark. *)
Record ProcArg : Type := mkProcArg {
  arg_type : Ty;
  arg_isVar : bool
}.


(** The state of a [ProcDecl] context and of the
    [FormalParametersProcDecl] context inside it. *)
Record ProcDeclState : Type := mkProcDecl {
  pd_id : IdentdefInfo;           (* this.__id *)
  pd_firstArgument : bool;        (* this.__firstArgument *)
  pd_arguments : list ProcArg;    (* __arguments of the formal parameters *)
  pd_result : option Ty;          (* __result, this.__type.result() *)
  pd_returnParsed : bool;         (* this.__returnParsed *)
  pd_scope : Scope;               (* the scope of the procedure *)
  pd_outerScope : Scope;          (* this.__outerScope *)
  pd_out : Generator              (* this.codeGenerator() *)
}.

(** [ProcDecl.handleIdentdef].  Modelled from the spec: the scope
    [Scope.makeProcedure] of [js/Scope.js] pushes is fresh, it binds no
    name of its own. *)
Definition ProcDecl_handleIdentdef (id : IdentdefInfo) (outer : Scope)
    (out : Generator) : ProcDeclState :=
  mkProcDecl id true [] None false (mkScope ∅ []) outer
    (out ++ [Write (LF +:+ "function " +:+ id_id id +:+ "(")]).
















(** [ProcDecl.handleReturn].  [castClone] is the code [op.clone(rtl, e)] of
    the cast operation [implicitCast] selects. *)
Definition ProcDecl_handleReturn (castClone : Ty -> Ty -> Expression -> string)
    (e : Expression) (st : ProcDeclState) : Result ProcDeclState :=
  match pd_result st with
  | None =>
      throw "unexpected RETURN in PROCEDURE declared with no result type"
  | Some result =>
      match e_type e with
      | None => Err JsTypeError
      | Some type =>
          if implicitCastFails type result then
            throw ("RETURN '" +:+ description result +:+ "' expected, got '"
                   +:+ description type +:+ "'")
          else
            Ok (mkProcDecl (pd_id st) (pd_firstArgument st)
                  (pd_arguments st) (pd_result st) true (pd_scope st)
                  (pd_outerScope st)
                  (pd_out st ++ [Write ("return "
                                        +:+ castClone type result e
                                        +:+ ";" +:+ LF)]))
      end
  end.

(** [ProcDecl.handleIdent], for the name after END. *)
Definition ProcDecl_handleIdent (id : string) (st : ProcDeclState)
  : Result ProcDeclState :=
  if negb (bool_decide (id_id (pd_id st) = id)) then
    throw ("mismatched procedure names: '" +:+ id_id (pd_id st)
           +:+ "' at the begining and '" +:+ id +:+ "' at the end")
  else Ok st.

(** [ProcDecl.endParse]: what the generator has received, unless the
    RETURN is missing. *)
Definition ProcDecl_endParse (st : ProcDeclState) : Result Generator :=
  let out := pd_out st ++ [CloseScope EmptyString] in
  match pd_result st with
  | Some result =>
      if negb (pd_returnParsed st) then
        throw ("RETURN expected at the end of PROCEDURE declared with '"
               +:+ typeName result +:+ "' result type")
      else Ok out
  | None => Ok out
  end.

(** The body of a procedure, as far as the declaration sees it: what the
    statements write, [body], then the RETURN expression, if there is one,
    the name after END and the end of the declaration. *)
Definition ProcDecl_body (castClone : Ty -> Ty -> Expression -> string)
    (body : Generator) (ret : option Expression) (closing : string)
    (st : ProcDeclState) : Result Generator :=
  let st := mkProcDecl (pd_id st) (pd_firstArgument st) (pd_arguments st)
              (pd_result st) (pd_returnParsed st) (pd_scope st)
              (pd_outerScope st) (pd_out st ++ body) in
  st <-- match ret with
         | Some e => ProcDecl_handleReturn castClone e st
         | None => Ok st
         end ;;
  st <-- ProcDecl_handleIdent closing st ;;
  ProcDecl_endParse st.





(** What a procedure with the result type [result] writes for its RETURN
    [ret], when the two agree: both absent, or both present with a type
    that casts to the result type. *)
Definition returnWrites (castClone : Ty -> Ty -> Expression -> string)
    (result : option Ty) (ret : option Expression) : option Generator :=
  match result, ret with
  | Some result, Some e =>
      match e_type e with
      | Some type =>
          if implicitCastFails type result then None
          else Some [Write ("return " +:+ castClone type result e
                            +:+ ";" +:+ LF)]
      | None => None
      end
  | None, None => Some []
  | _, _ => None
  end.

(** ** Pointer declarations: [exports.PointerDecl] *)

(** The type identifier a pointer is based on: a [Type.TypeId] with its
    type, [None] while the identifier is not defined yet, or the
    [Type.ForwardTypeId] a type section gives for a name still to come,
    which is a type identifier too. *)
Inductive TypeIdRef : Type :=
  | TypeIdOf (type : option Ty)
  | ForwardTypeId (id : string).

(** The contexts above a pointer declaration, by what their
    [handleMessage] does with a [ForwardTypeMsg]: [VariableDeclaration]
    rejects it, [TypeSection] answers it, every other context passes it
    to its parent. *)
Inductive MessageHandler : Type :=
  | VariableDeclarationHandler
  | TypeSectionHandler
  | ChainedHandler.

(** [this.parent().handleMessage(new ForwardTypeMsg(id))] along the chain
    of parents, nearest first; the chain ends at the [Context], which has
    no [handleMessage]. *)
Fixpoint handleForwardTypeMsg (chain : list MessageHandler) (id : string)
    (sc : Scope) : Result (TypeIdRef * Scope) :=
  match chain with
  | [] => Err JsTypeError
  | VariableDeclarationHandler :: _ =>
      throw ("type '" +:+ id +:+ "' was not declared")
  | TypeSectionHandler :: _ =>
      Ok (ForwardTypeId id, TypeSection_handleForwardType id sc)
  | ChainedHandler :: chain' => handleForwardTypeMsg chain' id sc
  end.

(** [unwrapTypeId(info)] on the info of a symbol. *)
Definition unwrapTypeIdInfo (info : Info) : Result TypeIdRef :=
  match info with
  | TypeId type => Ok (TypeIdOf (Some type))
  | LazyTypeId type => Ok (TypeIdOf type)
  | _ => throw "type name expected"
  end.

(** [PointerDecl.__setTypeId]: the name and the type identifier of the
    pointer type handed to [parent.setType].  [anonymous] is
    [parent.isAnonymousDeclaration()], [genTypeName] is
    [parent.genTypeName()]. *)
Definition PointerDecl_setTypeId (anonymous : bool) (genTypeName : string)
    (typeId : TypeIdRef) : Result (string * TypeIdRef) :=
  match typeId with
  | ForwardTypeId _ => Ok tt
  | TypeIdOf None => Err JsTypeError
  | TypeIdOf (Some type) =>
      if negb (isRecord type) then
        throw ("RECORD is expected as a POINTER base type, got '"
               +:+ description type +:+ "'")
      else Ok tt
  end ;;;
  Ok (if anonymous then EmptyString else genTypeName, typeId).

(** [PointerDecl.handleQIdent]: the pointer type and the scope, which a
    forward reference changes. *)
Definition PointerDecl_handleQIdent (find : Lookup)
    (chain : list MessageHandler) (anonymous : bool) (genTypeName : string)
    (q : QIdent) (sc : Scope) : Result (string * TypeIdRef * Scope) :=
  s <-- match q_module q with
        | Some _ => s <-- getQIdSymbolAndScope find q ;; Ok (Some s)
        | None => Ok (find None (q_id q))
        end ;;
  r <-- match s with
        | Some s =>
            typeId <-- unwrapTypeIdInfo (sym_info (found_symbol s)) ;;
            Ok (typeId, sc)
        | None => handleForwardTypeMsg chain (q_id q) sc
        end ;;
  p <-- PointerDecl_setTypeId anonymous genTypeName (fst r) ;;
  Ok (p, snd r).

(** ** Relations between operand types *)

(** The relation [literal] has an operation for operands of the types
    [leftType] and [rightType]. *)
Definition relationAccepted (leftType rightType : Ty) (literal : string)
  : Prop :=
  exists o, relationOp leftType rightType literal = Ok (Some o).

(** ** The root context: [exports.Context] *)

(** A scope of [this.__scopes], by its [findSymbol]. *)
Definition ScopeLookup : Type := string -> option Found.

(** The loop of [Context.findSymbol], from the last scope pushed to the
    first; [scopes] is [this.__scopes] in that order. *)
Fixpoint Context_findSymbol_loop (scopes : list ScopeLookup) (ident : string)
  : option Found :=
  match scopes with
  | [] => None
  | scope :: scopes' =>
      match scope ident with
      | Some s => Some s
      | None => Context_findSymbol_loop scopes' ident
      end
  end.

Definition Context_findSymbol (scopes : list ScopeLookup) (ident : string)
  : option Found :=
  Context_findSymbol_loop (rev scopes) ident.

Definition Context_pushScope (scope : ScopeLookup) (scopes : list ScopeLookup)
  : list ScopeLookup :=
  scopes ++ [scope].

(** [Context.popScope]; without a scope, [close] is called on
    [undefined]. *)
Definition Context_popScope (scopes : list ScopeLookup)
  : Result (list ScopeLookup) :=
  match rev scopes with
  | [] => Err JsTypeError
  | _ :: scopes' => Ok (rev scopes')
  end.

(** [Context.genTypeName], over the counter [this.__gen]. *)
Definition Context_genTypeName (gen : Z) : string * Z :=
  let gen := (gen + 1)%Z in
  ("anonymous$" +:+ pretty gen, gen).

(** The names of [n] calls of [genTypeName], one after the other. *)
Fixpoint Context_genTypeNames (n : nat) (gen : Z) : list string * Z :=
  match n with
  | O => ([], gen)
  | S n' =>
      let '(name, gen) := Context_genTypeName gen in
      let '(names, gen) := Context_genTypeNames n' gen in
      (name :: names, gen)
  end.

(** ** Variable declarations: [exports.VariableDeclaration] *)

(** The loop of [VariableDeclaration.endParse] over [this.__idents], for
    the type [type] set by [setType]: the scope and the generator after
    it.  [checkExport] does nothing in this context, and the export mark
    only selects the names the scope publishes, which are not embedded. *)
Fixpoint VariableDeclaration_loop (type : Ty) (idents : list IdentdefInfo)
    (sc : Scope) (out : Generator) : Result (Scope * Generator) :=
  match idents with
  | [] => Ok (sc, out)
  | id :: idents' =>
      let varName := id_id id in
      sc <-- Scope_addSymbol sc varName (makeVariable type false) ;;
      VariableDeclaration_loop type idents' sc
        (out ++ [Write ("var " +:+ varName +:+ " = " +:+ initializer type
                        +:+ ";")])
  end.

Definition VariableDeclaration_endParse (type : Ty)
    (idents : list IdentdefInfo) (sc : Scope) (out : Generator)
  : Result (Scope * Generator) :=
  r <-- VariableDeclaration_loop type idents sc out ;;
  Ok (fst r, snd r ++ [Write LF]).

(** * Properties *)

(** ** Strings *)

Lemma append_assoc (a b c : string) : (a +:+ b) +:+ c = a +:+ (b +:+ c).
Proof.
  induction a as [|x a IH]; [reflexivity|].
  change (String x ((a +:+ b) +:+ c) = String x (a +:+ (b +:+ c))).
  by rewrite IH.
Qed.

Lemma append_empty_r (a : string) : a +:+ EmptyString = a.
Proof.
  induction a as [|x a IH]; [reflexivity|].
  change (String x (a +:+ EmptyString) = String x a). by rewrite IH.
Qed.

Lemma append_nonempty_r (a b : string) :
  b <> EmptyString -> a +:+ b <> EmptyString.
Proof. destruct a; cbn; [done | discriminate]. Qed.

Lemma append_nonempty_l (a b : string) :
  a <> EmptyString -> a +:+ b <> EmptyString.
Proof. destruct a; cbn; [done | discriminate]. Qed.

(** ** The counted loop *)

(** Runs the header up to the BY part: the control variable, the initial
    value and the limit, given the lookup of the variable and the types of
    the two expressions. *)
Ltac For_header_to_step Hs Hi Hl :=
  unfold For_header, For_handleIdent, getSymbol, getSymbolAndScope;
  rewrite Hs; cbn [bind sym_info found_symbol];
  rewrite bool_decide_eq_true_2 by reflexivity; cbn [bind];
  unfold For_expression at 1;
  unfold For_handleExpression, For_handleInitCode, For_init, For_emit,
    For_codeGenerator; cbn;
  rewrite Hi; unfold For_handleInitExpression;
  rewrite bool_decide_eq_true_2 by reflexivity; cbn;
  unfold For_expression, For_handleExpression, For_emit, For_codeGenerator;
  cbn; rewrite Hl; rewrite bool_decide_eq_true_2 by reflexivity; cbn.

Lemma For_header_with_step find id name ro ref sc init limit step out :
  find None id
    = Some (mkFound (mkSymbol name (VariableInfo (Basic integer) ro ref)) sc) ->
  e_type init = Some (Basic integer) ->
  e_type limit = Some (Basic integer) ->
  For_header find id init limit (Some step) out =
    if bool_decide (e_type step = Some (Basic integer)) then
      match e_constValue step with
      | None => throw "constant expression expected as 'BY' parameter"
      | Some v =>
          Ok (mkFor (Some id) true (e_code limit) true true (Some (value v))
                (out ++ [Write ("for (" +:+ id +:+ " = ");
                         Write (e_code init);
                         Write ("; " +:+ id +:+ For_relation (Some (value v))
                                +:+ e_code limit +:+ "; "
                                +:+ For_step id (Some (value v)) +:+ ")");
                         OpenScope]))
      end
    else For_typeError
           "'INTEGER' expression expected as 'BY' parameter, got '"
           (e_type step).
Proof.
  intros Hs Hi Hl. For_header_to_step Hs Hi Hl.
  case_bool_decide; [|destruct (e_type step); reflexivity].
  destruct (e_constValue step); [|reflexivity]. cbn.
  unfold For_handleBegin, For_emit, For_codeGenerator. cbn.
  rewrite <- !app_assoc. reflexivity.
Qed.

Lemma For_header_without_step find id name ro ref sc init limit out :
  find None id
    = Some (mkFound (mkSymbol name (VariableInfo (Basic integer) ro ref)) sc) ->
  e_type init = Some (Basic integer) ->
  e_type limit = Some (Basic integer) ->
  For_header find id init limit None out =
    Ok (mkFor (Some id) true (e_code limit) true true None
          (out ++ [Write ("for (" +:+ id +:+ " = ");
                   Write (e_code init);
                   Write ("; " +:+ id +:+ " <= " +:+ e_code limit +:+ "; "
                          +:+ ("++" +:+ id) +:+ ")");
                   OpenScope])).
Proof.
  intros Hs Hi Hl. For_header_to_step Hs Hi Hl.
  unfold For_handleBegin, For_emit, For_codeGenerator. cbn.
  rewrite <- !app_assoc. reflexivity.
Qed.

(** C1 (as amended).  In a counted loop with a BY part the step must be an
    INTEGER expression that carries a compile-time constant: otherwise the
    header fails, with the error of the missing constant when only the
    constant is missing.  Every constant step is accepted and recorded,
    zero included. *)
Theorem For_step_must_be_integer_constant
    find id name ro ref sc init limit step out :
  find None id
    = Some (mkFound (mkSymbol name (VariableInfo (Basic integer) ro ref)) sc) ->
  e_type init = Some (Basic integer) ->
  e_type limit = Some (Basic integer) ->
  (isOk (For_header find id init limit (Some step) out) = true
   <-> e_type step = Some (Basic integer) /\ is_Some (e_constValue step))
  /\ (e_type step = Some (Basic integer) -> e_constValue step = None ->
      For_header find id init limit (Some step) out
      = throw "constant expression expected as 'BY' parameter")
  /\ (forall v, e_type step = Some (Basic integer) ->
      e_constValue step = Some v ->
      exists st, For_header find id init limit (Some step) out = Ok st
                 /\ f_by st = Some (value v)).
Proof.
  intros Hs Hi Hl.
  rewrite (For_header_with_step _ _ _ _ _ _ _ _ _ _ Hs Hi Hl).
  repeat split.
  - case_bool_decide as Ht; [done|].
    destruct (e_type step); cbn; discriminate.
  - case_bool_decide as Ht.
    + destruct (e_constValue step); [eauto | cbn; discriminate].
    + destruct (e_type step); cbn; discriminate.
  - intros [Ht [v Hv]]. rewrite Ht, Hv.
    rewrite bool_decide_eq_true_2 by reflexivity. reflexivity.
  - intros Ht Hv. rewrite Ht, Hv.
    rewrite bool_decide_eq_true_2 by reflexivity. reflexivity.
  - intros v Ht Hv. rewrite Ht, Hv.
    rewrite bool_decide_eq_true_2 by reflexivity. eexists. split; reflexivity.
Qed.

(** C9.  The header of a counted loop compares and updates by the sign of
    the step: a negative constant step gives [var >= limit] and a decrement
    by the magnitude of the step, a non-negative one gives [var <= limit] and
    an increment by the step, and an absent step gives [var <= limit] with an
    increment of one.  The comparison is stated for every constant step, the
    text of the update for the steps that are exact integers. *)
Theorem For_header_direction find id name ro ref sc init limit out :
  find None id
    = Some (mkFound (mkSymbol name (VariableInfo (Basic integer) ro ref)) sc) ->
  e_type init = Some (Basic integer) ->
  e_type limit = Some (Basic integer) ->
  let emitted (by_ : option Z) (relation update : string) :=
    Ok (mkFor (Some id) true (e_code limit) true true by_
          (out ++ [Write ("for (" +:+ id +:+ " = ");
                   Write (e_code init);
                   Write ("; " +:+ id +:+ relation +:+ e_code limit +:+ "; "
                          +:+ update +:+ ")");
                   OpenScope])) in
  For_header find id init limit None out
    = emitted None " <= " ("++" +:+ id)
  /\ (forall step v,
        e_type step = Some (Basic integer) -> e_constValue step = Some v ->
        (value v < 0)%Z -> exactInteger (value v) ->
        For_header find id init limit (Some step) out
        = emitted (Some (value v)) " >= "
            (id +:+ " -= " +:+ pretty (- value v)%Z))
  /\ (forall step v,
        e_type step = Some (Basic integer) -> e_constValue step = Some v ->
        (0 <= value v)%Z -> exactInteger (value v) ->
        For_header find id init limit (Some step) out
        = emitted (Some (value v)) " <= "
            (id +:+ " += " +:+ pretty (value v)))
  /\ (forall step v,
        e_type step = Some (Basic integer) -> e_constValue step = Some v ->
        exists update,
          For_header find id init limit (Some step) out
          = emitted (Some (value v))
              (if (value v <? 0)%Z then " >= " else " <= ") update).
Proof.
  intros Hs Hi Hl emitted. subst emitted. cbv beta.
  split; [|split; [|split]].
  - apply (For_header_without_step _ _ _ _ _ _ _ _ _ Hs Hi Hl).
  - intros step v Ht Hv Hneg _.
    rewrite (For_header_with_step _ _ _ _ _ _ _ _ _ _ Hs Hi Hl), Ht, Hv.
    rewrite bool_decide_eq_true_2 by reflexivity.
    unfold For_relation, For_step.
    destruct (Z.ltb_spec (value v) 0); [reflexivity | lia].
  - intros step v Ht Hv Hpos _.
    rewrite (For_header_with_step _ _ _ _ _ _ _ _ _ _ Hs Hi Hl), Ht, Hv.
    rewrite bool_decide_eq_true_2 by reflexivity.
    unfold For_relation, For_step.
    destruct (Z.ltb_spec (value v) 0); [lia | reflexivity].
  - intros step v Ht Hv.
    rewrite (For_header_with_step _ _ _ _ _ _ _ _ _ _ Hs Hi Hl), Ht, Hv.
    rewrite bool_decide_eq_true_2 by reflexivity.
    exists (For_step id (Some (value v))). reflexivity.
Qed.

(** ** Guarded casts and type tests *)

Lemma walkBase_None fuel a : walkBase fuel None a = Ok None.
Proof. destruct fuel; reflexivity. Qed.

Lemma walkBase_Some fuel t a :
  walkBase fuel (Some t) a =
    if bool_decide (t = a) then Ok (Some t)
    else match fuel with
         | O => Err OutOfFuel
         | S fuel' => walkBase fuel' (recordBaseOf t) a
         end.
Proof. destruct fuel; reflexivity. Qed.

Lemma walkBase_chain fuel t n a :
  chainEnds t n -> n <= fuel ->
  ((exists r, t = Some r /\ (r = a \/ extends r a))
   /\ walkBase fuel (Record_ <$> t) (Record_ a) = Ok (Some (Record_ a)))
  \/ (~ (exists r, t = Some r /\ (r = a \/ extends r a))
      /\ walkBase fuel (Record_ <$> t) (Record_ a) = Ok None).
Proof.
  intros Hc. revert fuel. induction Hc as [|r n Hc IH]; intros fuel Hf.
  - right. split; [|apply walkBase_None]. intros [r [Hr _]]. discriminate.
  - cbn [fmap option_fmap option_map]. rewrite walkBase_Some.
    case_bool_decide as Heq.
    + injection Heq as ->. left. split; [|reflexivity].
      exists a. split; [done | by left].
    + destruct fuel as [|fuel]; [lia|]. cbn [recordBaseOf].
      destruct (IH fuel ltac:(lia)) as [[[b [Hb Hba]] Hw]|[Hno Hw]].
      * left. split; [|exact Hw]. exists r. split; [done|]. right.
        destruct Hba as [->|Hba].
        -- by apply extends_base.
        -- by eapply extends_step.
      * right. split; [|exact Hw].
        intros [r' [Hr Hon]]. injection Hr as <-.
        destruct Hon as [->|Hext]; [congruence|]. apply Hno.
        inversion Hext as [r0 b Hb|r0 b a0 Hb Hba]; subst.
        -- exists a. split; [assumption | by left].
        -- exists b. split; [assumption | by right].
Qed.

(** The walk from the base of [s] finds [r] exactly when [s] is a proper
    extension of [r]. *)
Lemma walkBase_extends fuel s r n :
  chainEnds (Some s) n -> n <= fuel ->
  (extends s r
   /\ walkBase fuel (recordBaseOf (Record_ s)) (Record_ r)
      = Ok (Some (Record_ r)))
  \/ (~ extends s r
      /\ walkBase fuel (recordBaseOf (Record_ s)) (Record_ r) = Ok None).
Proof.
  intros Hc Hf. inversion Hc as [|s0 m Hc' Hs Hn]. subst s0 n.
  cbn [recordBaseOf].
  destruct (walkBase_chain fuel _ m r Hc' ltac:(lia))
    as [[[b [Hb Hba]] Hw]|[Hno Hw]].
  - left. split; [|exact Hw]. destruct Hba as [->|Hba].
    + by apply extends_base.
    + by eapply extends_step.
  - right. split; [|exact Hw]. intros Hext. apply Hno.
    inversion Hext as [r0 b Hb|r0 b a0 Hb Hba]; subst.
    + exists r. split; [assumption | by left].
    + exists b. split; [assumption | by right].
Qed.

(** C2.  A guarded cast or type test passes exactly when the source is a
    pointer and the target a pointer, or the source a by-reference record
    variable and the target a record, and the target record is a proper
    extension of the source record, found by walking the base chain of the
    target.  When the chain ends without meeting the source the check fails
    with the error that the target is not an extension of the source; a
    record value variable as source fails as well. *)
Theorem checkTypeCast_extension fuel fromInfo fromType toType msg n :
  chainEnds (targetRecord toType) n -> n <= fuel ->
  (checkTypeCast fuel fromInfo fromType toType msg = Ok tt
   <-> castValid fromInfo fromType toType)
  /\ (forall r s,
        unwrapPointer fromType = Record_ r ->
        unwrapPointer toType = Record_ s ->
        isPointer fromType = isPointer toType ->
        (isRecord fromType = true -> isReference fromInfo = Ok true) ->
        ~ extends s r ->
        checkTypeCast fuel fromInfo fromType toType msg
        = throw ("invalid " +:+ msg +:+ ": '" +:+ description (Record_ s)
                 +:+ "' is not an extension of '" +:+ description (Record_ r)
                 +:+ "'"))
  /\ (forall r t ro,
        fromType = Record_ r ->
        fromInfo = Some (VariableInfo t ro false) ->
        checkTypeCast fuel fromInfo fromType toType msg
        = throw ("invalid " +:+ msg +:+ ": a value variable cannot be used")).
Proof.
  intros Hc Hf. split; [|split].
  - split.
    + (* a passing check is a valid cast *)
      unfold checkTypeCast. intros H.
      destruct fromType as [| | | | |r|p| | |]; try discriminate H.
      * (* record source *)
        cbn in H.
        destruct fromInfo as [[| t ro [] | | | |]|]; try discriminate H.
        cbn in H.
        destruct toType as [| | | | |s| | | |]; try discriminate H.
        cbn in H, Hc.
        destruct (walkBase_extends fuel s r n Hc Hf) as [[Hext _]|[_ Hno]].
        -- right. by exists r, s, t, ro.
        -- cbn in Hno. rewrite Hno in H. discriminate H.
      * (* pointer source *)
        cbn in H.
        destruct toType as [| | | | | |q| | |]; try discriminate H.
        cbn in H, Hc.
        destruct (walkBase_extends fuel _ (pointerBase types p) n Hc Hf)
          as [[Hext _]|[_ Hno]].
        -- left. by exists p, q.
        -- cbn in Hno. rewrite Hno in H. discriminate H.
    + (* a valid cast passes *)
      intros [(p & q & -> & -> & Hext)|(r & s & t & ro & -> & -> & -> & Hext)];
        unfold checkTypeCast; cbn; cbn in Hc.
      * destruct (walkBase_extends fuel _ (pointerBase types p) n Hc Hf)
          as [[_ Hyes]|[Hno _]]; [|exfalso; exact (Hno Hext)].
        cbn in Hyes. rewrite Hyes. reflexivity.
      * destruct (walkBase_extends fuel s r n Hc Hf)
          as [[_ Hyes]|[Hno _]]; [|exfalso; exact (Hno Hext)].
        cbn in Hyes. rewrite Hyes. reflexivity.
  - intros r s Hfrom Hto Hfam Href Hext.
    unfold checkTypeCast.
    destruct fromType as [| | | | |r'|p| | |]; try discriminate Hfrom.
    + cbn in Hfrom. injection Hfrom as ->.
      destruct toType as [| | | | |s'| | | |]; try discriminate Hfam;
        try discriminate Hto.
      cbn in Hto. injection Hto as ->. cbn.
      rewrite (Href eq_refl). cbn. cbn in Hc.
      destruct (walkBase_extends fuel s r n Hc Hf) as [[Hyes _]|[_ Hno]];
        [exfalso; exact (Hext Hyes)|].
      cbn in Hno. rewrite Hno. reflexivity.
    + cbn in Hfrom. injection Hfrom as <-.
      destruct toType as [| | | | | |q| | |]; try discriminate Hfam;
        try discriminate Hto.
      cbn in Hto. injection Hto as <-. cbn. cbn in Hc.
      destruct (walkBase_extends fuel _ (pointerBase types p) n Hc Hf)
        as [[Hyes _]|[_ Hno]]; [exfalso; exact (Hext Hyes)|].
      cbn in Hno. rewrite Hno. reflexivity.
  - intros r t ro -> ->. reflexivity.
Qed.

(** ** Indexing *)

Lemma Designator_checkIndexValue_no_constant ds index :
  Designator_checkIndexValue ds index None = Ok tt.
Proof. reflexivity. Qed.

(** Up to the bounds check, an indexing step on a non-empty static array or
    string with an integer index goes through. *)
Lemma Designator_indexSequence_static ds e t N ro :
  ds_indexExpression ds = Some e ->
  staticLength (ds_currentType ds) = Some N ->
  (0 < N)%Z ->
  isConstOrReadOnly (ds_info ds) = Ok ro ->
  ds_currentType ds = Some t ->
  exists index,
    Designator_indexSequence ds (ds_info ds) (ds_derefCode ds)
      (e_code (derefExpression e)) = Ok index
    /\ i_length index = Some N
    /\ (isStaticArray t || isStringLiteral t) = true.
Proof.
  intros He HN Hpos Hro Ht. unfold Designator_indexSequence.
  rewrite Ht in HN |- *.
  destruct t as [| |s|init el len| | | | | |]; try discriminate HN;
    cbn in HN; injection HN as HN; cbn.
  - (* string literal *)
    rewrite bool_decide_eq_false_2 by lia.
    unfold Designator_stringIndexCode. rewrite He. cbn. rewrite Hro. cbn.
    eexists. split; [reflexivity|]. cbn. by rewrite HN.
  - (* static array *)
    subst len. case_bool_decide.
    + unfold Designator_stringIndexCode. rewrite He. cbn. rewrite Hro. cbn.
      eexists. split; [reflexivity|]. done.
    + cbn. rewrite Hro. cbn. eexists. split; [reflexivity|]. done.
Qed.

(** C3 (as amended).  An indexing step with an integer index on a static
    array of length [N], or on a non-empty string literal of length [N],
    fails with the index-out-of-bounds error naming [N - 1] when the index
    carries a constant [v >= N] ([N] and [v] exact integers, for the text of
    the error), and goes through for a constant [0 <= v < N]; without a
    constant the bounds check returns at once, and the step goes through.
    On the empty string literal every integer index, constant or not,
    fails with the error of the empty string, before the bounds check. *)
Theorem Designator_index_bounds ds e t N :
  ds_indexExpression ds = Some e ->
  e_type e = Some t -> isInt t = true ->
  staticLength (ds_currentType ds) = Some N ->
  (forall v, (0 <= v)%Z -> checkIndex v = Ok tt) ->
  (forall ro, (0 < N)%Z -> isConstOrReadOnly (ds_info ds) = Ok ro ->
     (forall c, e_constValue e = Some c -> (N <= value c)%Z ->
        exactInteger N -> exactInteger (value c) ->
        Designator_handleIndexExpression ds
        = throw ("index out of bounds: maximum possible index is "
                 +:+ pretty (N - 1)%Z +:+ ", got " +:+ pretty (value c)))
     /\ (forall c, e_constValue e = Some c -> (N <= value c)%Z ->
           exists msg, Designator_handleIndexExpression ds = throw msg)
     /\ (forall c, e_constValue e = Some c -> (0 <= value c < N)%Z ->
           isOk (Designator_handleIndexExpression ds) = true)
     /\ (e_constValue e = None ->
           isOk (Designator_handleIndexExpression ds) = true))
  /\ (forall s, ds_currentType ds = Some (String_ s) -> N = 0%Z ->
        Designator_handleIndexExpression ds
        = throw "cannot index empty string")
  /\ (forall ds' index, Designator_checkIndexValue ds' index None = Ok tt).
Proof.
  intros He Ht Hint HN Hcheck. split; [|split; [|reflexivity]].
  - intros ro Hpos Hro.
    destruct (ds_currentType ds) as [ct|] eqn:Hct; [|discriminate HN].
    rewrite <- Hct in HN.
    destruct (Designator_indexSequence_static ds e ct N ro He HN Hpos Hro
                Hct) as (index & Hseq & Hlen & Hkind).
    unfold Designator_handleIndexExpression, Designator_checkIndexType.
    rewrite He, Ht, Hint. cbn [bind]. rewrite Hseq. cbn [bind].
    unfold Designator_checkIndexValue. rewrite Hct, Hlen, Hkind.
    split; [|split; [|split]].
    + intros c -> Hge _ _. rewrite Hcheck by lia. cbn [bind andb].
      destruct (Z.leb_spec N (value c)); [reflexivity | lia].
    + intros c -> Hge. rewrite Hcheck by lia. cbn [bind andb].
      destruct (Z.leb_spec N (value c)); [by eexists | lia].
    + intros c -> [Hlo Hhi]. rewrite Hcheck by lia. cbn [bind andb].
      destruct (Z.leb_spec N (value c)); [lia | reflexivity].
    + intros ->. reflexivity.
  - intros s Hs ->. rewrite Hs in HN. cbn in HN. injection HN as HN.
    unfold Designator_handleIndexExpression, Designator_checkIndexType.
    rewrite He, Ht, Hint. cbn [bind].
    unfold Designator_indexSequence. rewrite Hs.
    cbn [isArray isStringLiteral negb andb stringLen default].
    rewrite HN. by rewrite bool_decide_eq_true_2.
Qed.

(** ** Reference code of a designator *)

(** C5 (as amended).  The reference-producing code leaves the code of a
    designator unchanged exactly for a non-scalar and for a by-reference
    variable.  For every other scalar it builds a mutable cell: through the
    run-time [makeRef] when the designator went through an index or a field
    step, and as an inline setter and getter pair over the variable when it
    was reached directly, as a designator that is a plain identifier is;
    an opening bracket and a field access set the dereference code. *)
Theorem Designator_makeRefCode_cases ds t code :
  ds_currentType ds = Some t ->
  (isScalar t = false -> Designator_makeRefCode ds code = Ok code)
  /\ (forall ty ro, isScalar t = true ->
        ds_info ds = Some (VariableInfo ty ro true) ->
        Designator_makeRefCode ds code = Ok code)
  /\ (forall ty ro, isScalar t = true ->
        ds_info ds = Some (VariableInfo ty ro false) ->
        truthy (ds_derefCode ds) = true ->
        Designator_makeRefCode ds code
        = Ok (makeRef rtl (js_str (ds_derefCode ds)) (ds_propCode ds)))
  /\ (forall ty ro, isScalar t = true ->
        ds_info ds = Some (VariableInfo ty ro false) ->
        truthy (ds_derefCode ds) = false ->
        Designator_makeRefCode ds code
        = Ok ("{set: function($v){" +:+ code
              +:+ " = $v;}, get: function(){return " +:+ code +:+ ";}}"))
  /\ (forall find q ds',
        Designator_handleQIdent find q Designator_init = Ok ds' ->
        truthy (ds_derefCode ds') = false)
  /\ (forall ds0 ds',
        Designator_handleLiteral "[" ds0 = Ok ds' ->
        ds_derefCode ds' = Some (ds_code ds0))
  /\ (forall field ds0 ds',
        Designator_handleIdent field ds0 = Ok ds' ->
        ds_derefCode ds' = Some (fa_derefCode field)).
Proof.
  intros Ht. unfold Designator_makeRefCode. rewrite Ht.
  repeat split.
  - intros ->. reflexivity.
  - intros ty ro -> ->. reflexivity.
  - intros ty ro -> -> ->. reflexivity.
  - intros ty ro -> -> ->. reflexivity.
  - intros find q ds'. unfold Designator_handleQIdent.
    destruct (getQIdSymbolAndScope find q) as [found|err]; [|discriminate].
    cbn [bind].
    destruct (sym_info (found_symbol found)) as [| | | |[]|];
      intros [= <-]; reflexivity.
  - intros ds0 ds'. unfold Designator_handleLiteral. cbn.
    by intros [= <-].
  - intros field ds0 ds'. unfold Designator_handleIdent.
    destruct (match ds_currentType ds0 with
              | Some (Pointer _) => Designator_handleDeref ds0
              | _ => Ok ds0
              end) as [ds1|err]; [|discriminate].
    cbn. by intros [= <-].
Qed.

(** ** Relational operators *)

Lemma relationOp_ordinary leftType rightType literal :
  literal <> "IS" -> literal <> "IN" ->
  relationOp leftType rightType literal =
    (t <-- RelationOps_coalesceType leftType rightType ;;
     let select (ops : Ty -> option Operator) (expect : string) :=
       match ops t with
       | Some o => Ok (Some o)
       | None => throwOperatorTypeMismatch literal expect (Some t)
       end in
     match literal with
     | "=" => select RelationOps_eq RelationOps_eqExpect
     | "#" => select RelationOps_notEq RelationOps_eqExpect
     | "<" => select RelationOps_less RelationOps_strongRelExpect
     | ">" => select RelationOps_greater RelationOps_strongRelExpect
     | "<=" => select RelationOps_lessEq RelationOps_relExpect
     | ">=" => select RelationOps_greaterEq RelationOps_relExpect
     | _ => Ok None
     end).
Proof.
  intros His Hin. unfold relationOp.
  rewrite (bool_decide_eq_false_2 _ His), (bool_decide_eq_false_2 _ Hin).
  destruct (RelationOps_coalesceType leftType rightType) as [t|err];
    [|reflexivity].
  cbn [bind mbind option_bind].
  repeat (match goal with
          | |- context [match ?s with EmptyString => _ | String _ _ => _ end] =>
              destruct s as [|[[] [] [] [] [] [] [] []] ?]; try reflexivity
          end);
  try (exfalso; apply His; reflexivity);
  try (exfalso; apply Hin; reflexivity);
  match goal with
  | |- context [RelationOps_eq t] => destruct (RelationOps_eq t)
  | |- context [RelationOps_notEq t] => destruct (RelationOps_notEq t)
  | |- context [RelationOps_less t] => destruct (RelationOps_less t)
  | |- context [RelationOps_greater t] => destruct (RelationOps_greater t)
  | |- context [RelationOps_lessEq t] => destruct (RelationOps_lessEq t)
  | |- context [RelationOps_greaterEq t] => destruct (RelationOps_greaterEq t)
  end; reflexivity.
Qed.

(** The classes of operands for which no ordering operation exists. *)
Lemma RelationOps_no_ordering t :
  t = Basic bool_ \/ isPointer t = true \/ isProcedure t = true ->
  RelationOps_less t = None /\ RelationOps_greater t = None
  /\ RelationOps_lessEq t = None /\ RelationOps_greaterEq t = None.
Proof.
  intros [->|[H|H]]; [by vm_compute| |];
    destruct t; try discriminate H; by vm_compute.
Qed.

Lemma RelationOps_coalesceType_class leftType rightType t :
  (forall a b c, findPointerBaseType a b = Some c -> isPointer c = true) ->
  leftType = Basic bool_ \/ isPointer leftType = true
  \/ isProcedure leftType = true ->
  RelationOps_coalesceType leftType rightType = Ok t ->
  t = Basic bool_ \/ isPointer t = true \/ isProcedure t = true.
Proof.
  intros Hfind Hleft. unfold RelationOps_coalesceType.
  destruct (isPointer leftType && isPointer rightType) eqn:Hpp.
  - destruct (findPointerBaseType leftType rightType) as [c|] eqn:H1.
    + intros [= <-]. right. left. by eapply Hfind.
    + destruct (findPointerBaseType rightType leftType) as [c|] eqn:H2.
      * intros [= <-]. right. left. by eapply Hfind.
      * destruct (if negb _ then _ else _); cbn; [|discriminate].
        by intros [= <-].
  - destruct (if negb _ then _ else _); cbn; [|discriminate].
    by intros [= <-].
Qed.

(** C6.  For two SET operands [<] and [>] fail with the operator type
    mismatch that names the accepted classes, [<=] and [>=] resolve to the
    set inclusions and [=] and [#] to the set equalities; no ordering
    operator resolves when the left operand is a boolean, a pointer or a
    procedure. *)
Theorem relationOp_set_and_ordering :
  areTypesMatch (Basic set_) (Basic set_) = true ->
  (forall a b c, findPointerBaseType a b = Some c -> isPointer c = true) ->
  relationOp (Basic set_) (Basic set_) "<"
  = throw ("operator '<' type mismatch: "
           +:+ "numeric type or CHAR or character array"
           +:+ " expected, got '" +:+ description (Basic set_) +:+ "'")
  /\ relationOp (Basic set_) (Basic set_) ">"
     = throw ("operator '>' type mismatch: "
              +:+ "numeric type or CHAR or character array"
              +:+ " expected, got '" +:+ description (Basic set_) +:+ "'")
  /\ relationOp (Basic set_) (Basic set_) "<=" = Ok (Some setInclL)
  /\ relationOp (Basic set_) (Basic set_) ">=" = Ok (Some setInclR)
  /\ relationOp (Basic set_) (Basic set_) "=" = Ok (Some equalSet)
  /\ relationOp (Basic set_) (Basic set_) "#" = Ok (Some notEqualSet)
  /\ (forall leftType rightType literal,
        leftType = Basic bool_ \/ isPointer leftType = true
        \/ isProcedure leftType = true ->
        literal ∈ ["<"; ">"; "<="; ">="] ->
        isOk (relationOp leftType rightType literal) = false).
Proof.
  intros Hmatch Hfind.
  assert (Hset : RelationOps_coalesceType (Basic set_) (Basic set_)
                 = Ok (Basic set_)).
  { unfold RelationOps_coalesceType, checkTypeMatch. cbn. by rewrite Hmatch. }
  repeat split;
    try (rewrite relationOp_ordinary by discriminate; rewrite Hset;
         reflexivity).
  intros leftType rightType literal Hleft Hlit.
  assert (Hcases : literal = "<" \/ literal = ">" \/ literal = "<="
                   \/ literal = ">=").
  { apply elem_of_cons in Hlit as [Hlit | Hlit]; [by left|].
    apply elem_of_cons in Hlit as [Hlit | Hlit]; [by right; left|].
    apply elem_of_cons in Hlit as [Hlit | Hlit]; [by right; right; left|].
    apply elem_of_cons in Hlit as [Hlit | Hlit]; [by right; right; right|].
    by apply elem_of_nil in Hlit. }
  clear Hlit.
  rewrite relationOp_ordinary
    by (destruct Hcases as [-> | [-> | [-> | ->]]]; discriminate).
  destruct (RelationOps_coalesceType leftType rightType) as [t|err] eqn:Hco;
    [|reflexivity].
  pose proof (RelationOps_coalesceType_class _ _ _ Hfind Hleft Hco) as Ht.
  destruct (RelationOps_no_ordering t Ht) as (Hl & Hg & Hle & Hge).
  cbn [bind].
  destruct Hcases as [-> | [-> | [-> | ->]]];
    [rewrite Hl | rewrite Hg | rewrite Hle | rewrite Hge]; reflexivity.
Qed.

(** ** Procedures as expression values *)

(** C10.  A designator of a procedure used as a term fails to translate when
    the procedure is a standard one or was found in a procedure scope;
    otherwise it is handed on as an expression, so only non-standard
    procedures that are not local to a procedure can be referenced. *)
Theorem Term_setDesignator_procedure {A : Type}
    (handleExpression : Expression -> Result A) d proc :
  d_info d = Some (ProcedureId proc) ->
  (isStdProcedure proc = true ->
   Term_setDesignator handleExpression d
   = throw (description proc +:+ " cannot be referenced"))
  /\ (isStdProcedure proc = false -> isProcedureScope (d_scope d) = true ->
      Term_setDesignator handleExpression d
      = throw ("local procedure '" +:+ d_code d
               +:+ "' cannot be referenced"))
  /\ (isStdProcedure proc = false -> isProcedureScope (d_scope d) = false ->
      Term_setDesignator handleExpression d
      = handleExpression (makeExpression (d_code d) (d_type d) (Some d) None))
  /\ (forall r, Term_setDesignator handleExpression d = Ok r ->
      isStdProcedure proc = false /\ isProcedureScope (d_scope d) = false).
Proof.
  intros Hinfo. unfold Term_setDesignator. rewrite Hinfo.
  repeat split.
  - intros ->. reflexivity.
  - intros -> ->. reflexivity.
  - intros -> ->. reflexivity.
  - destruct (isStdProcedure proc); [discriminate | reflexivity].
  - destruct (isStdProcedure proc); [discriminate|].
    destruct (isProcedureScope (d_scope d)); [discriminate | reflexivity].
Qed.

(** ** Record constructors *)

Lemma fold_left_append {B : Type} (g : B -> string) (l : list B) (acc : string) :
  fold_left (fun result f => result +:+ g f) l acc
  = acc +:+ String.concat EmptyString (map g l).
Proof.
  revert acc. induction l as [|x l IH]; intros acc; cbn [fold_left map].
  - cbn. by rewrite append_empty_r.
  - rewrite IH, append_assoc. f_equal.
    destruct l as [|y l]; cbn; [by rewrite append_empty_r | reflexivity].
Qed.

(** C4.  The constructor of a record is one block that holds, first, the
    call of the constructor of the base, present exactly when the record has
    a base, and then one initialization per own field of the record, in
    declaration order, to the initializer of the type of the field; nothing
    else is emitted, so no inherited field is initialized again. *)
Theorem RecordDecl_constructor_body rd :
  (forall b, recordBase types (rd_type rd) = Some b ->
             typeName (Record_ b) <> EmptyString) ->
  let fields := recordOwnFields types (rd_type rd) in
  let initialize (f : string * Ty) :=
    "this." +:+ mangleField (fst f) (snd f) +:+ " = "
    +:+ initializer (snd f) +:+ ";" +:+ LF in
  let baseCall :=
    match recordBase types (rd_type rd) with
    | Some b => qualifyScope (recordScope types b) +:+ typeName (Record_ b)
                +:+ ".call(this);" +:+ LF
    | None => EmptyString
    end in
  RecordDecl_generateConstructor rd
  = generatorResult
      [ Write ("function " +:+ rd_cons rd +:+ "()");
        OpenScope;
        Write (baseCall
               +:+ String.concat EmptyString (map initialize fields));
        CloseScope EmptyString ]
  /\ length (map initialize fields) = length fields
  /\ (baseCall = EmptyString <-> recordBase types (rd_type rd) = None).
Proof.
  intros Hname fields initialize baseCall.
  assert (Hcall : RecordDecl_generateBaseConstructorCallCode rd = baseCall).
  { unfold RecordDecl_generateBaseConstructorCallCode,
      RecordDecl_qualifiedBaseConstructor, baseCall.
    destruct (recordBase types (rd_type rd)) as [b|] eqn:Hb; [|reflexivity].
    cbn [truthy].
    rewrite bool_decide_eq_false_2
      by (apply append_nonempty_r, Hname; reflexivity).
    cbn [negb]. by rewrite !append_assoc. }
  split; [|split].
  - unfold RecordDecl_generateConstructor, RecordDecl_constructorCalls.
    rewrite Hcall. unfold RecordDecl_generateFieldsInitializationCode.
    rewrite (fold_left_append initialize). reflexivity.
  - apply length_map.
  - unfold baseCall.
    destruct (recordBase types (rd_type rd)) as [b|] eqn:Hb; [|done].
    split; [|discriminate]. intros Hempty. exfalso.
    revert Hempty. rewrite <- !append_assoc.
    apply append_nonempty_l, append_nonempty_l, append_nonempty_r, Hname.
    reflexivity.
Qed.

(** ** Type sections *)

Lemma Scope_addUnresolved_elem sc id x :
  x ∈ sc_unresolved (Scope_addUnresolved sc id)
  <-> x ∈ sc_unresolved sc \/ x = id.
Proof.
  unfold Scope_addUnresolved. case_bool_decide as Hin; cbn.
  - split; [by left|]. intros [H | ->]; assumption.
  - rewrite elem_of_app, list_elem_of_singleton. reflexivity.
Qed.

Lemma Scope_resolve_elem sc id x :
  x ∈ sc_unresolved (Scope_resolve sc id)
  <-> x ∈ sc_unresolved sc /\ x <> id.
Proof.
  unfold Scope_resolve. cbn. rewrite list_elem_of_filter.
  split; intros [H1 H2]; by split.
Qed.

Lemma neverDefined_cons id ev evs :
  neverDefined id (ev :: evs)
  <-> (forall t, ev <> TypeDefined id t) /\ neverDefined id evs.
Proof.
  unfold neverDefined. split.
  - intros H. split; intros t Ht; apply (H t); rewrite elem_of_cons; auto.
  - intros [H1 H2] t Ht. apply elem_of_cons in Ht as [Ht | Ht].
    + by apply (H1 t).
    + by apply (H2 t).
Qed.

Lemma forwardPending_nil id : ~ forwardPending id [].
Proof. intros (before & after & H & _). by destruct before. Qed.

Lemma forwardPending_cons id ev evs :
  forwardPending id (ev :: evs)
  <-> (ev = ForwardType id /\ neverDefined id evs) \/ forwardPending id evs.
Proof.
  split.
  - intros (before & after & H & Hnever).
    destruct before as [|ev' before]; cbn in H; injection H as -> ->.
    + by left.
    + right. by exists before, after.
  - intros [[-> Hnever] | (before & after & -> & Hnever)].
    + by exists [], evs.
    + by exists (ev :: before), after.
Qed.

(** The markers outstanding after a run are those outstanding before it and
    not defined since, and those requested during it and not defined after
    the request. *)
Lemma TypeSection_run_unresolved evs sc sc' id :
  TypeSection_run evs sc = Ok sc' ->
  id ∈ sc_unresolved sc'
  <-> (id ∈ sc_unresolved sc /\ neverDefined id evs) \/ forwardPending id evs.
Proof.
  revert sc. induction evs as [|ev evs IH]; intros sc Hrun.
  - injection Hrun as <-. split.
    + intros H. left. split; [done|]. intros t Ht. by apply elem_of_nil in Ht.
    + intros [[H _] | H]; [done | by apply forwardPending_nil in H].
  - cbn [TypeSection_run] in Hrun.
    destruct (TypeSection_handle ev sc) as [sc1|err] eqn:Hev;
      [|discriminate Hrun].
    cbn [bind] in Hrun. rewrite (IH sc1 Hrun).
    rewrite neverDefined_cons, forwardPending_cons.
    destruct ev as [x | x | x t]; cbn in Hev.
    + (* a forward request *)
      injection Hev as <-. unfold TypeSection_handleForwardType.
      rewrite Scope_addUnresolved_elem.
      assert (Hne : forall t, ForwardType x <> TypeDefined id t)
        by discriminate.
      split.
      * intros [[[H | ->] Hn] | H]; [left | right; left | right; right];
          by auto.
      * intros [[H [_ Hn]] | [[[= ->] Hn] | H]]; by auto.
    + (* a type name is declared *)
      unfold TypeDeclaration_handleIdentdef, Scope_addSymbol in Hev.
      destruct (sc_symbols sc !! x); [discriminate Hev|].
      injection Hev as <-. cbn.
      assert (Hne : forall t, TypeIdentdef x <> TypeDefined id t)
        by discriminate.
      split.
      * intros [[H Hn] | H]; [left | right; right]; by auto.
      * intros [[H [_ Hn]] | [[[=] _] | H]]; by auto.
    + (* a type is defined *)
      injection Hev as <-. unfold TypeDeclaration_setType.
      rewrite Scope_resolve_elem. cbn. split.
      * intros [[[H Hne] Hn] | H]; [left | right; right]; [|done].
        split; [done|]. split; [|done]. intros t' [= ? ?]. by apply Hne.
      * intros [[H [Hne Hn]] | [[[=] _] | H]]; [left | by right].
        split; [|done]. split; [done|]. intros ->. by apply (Hne t).
Qed.

(** C8.  Closing a type section succeeds when no forward-type marker is
    outstanding, whatever symbols the scope holds, and otherwise fails with
    the error that lists the outstanding names; the names outstanding at
    the end of a section are exactly those requested through a forward
    reference and not defined afterwards. *)
Theorem TypeSection_endParse_unresolved :
  (forall sc, sc_unresolved sc = [] -> TypeSection_endParse sc = Ok tt)
  /\ (forall sc, sc_unresolved sc <> [] ->
        TypeSection_endParse sc
        = throw ("no declaration found for '"
                 +:+ join "', '" (sc_unresolved sc) +:+ "'"))
  /\ (forall evs sc sc' id,
        sc_unresolved sc = [] ->
        TypeSection_run evs sc = Ok sc' ->
        id ∈ sc_unresolved sc' <-> forwardPending id evs)
  /\ (forall evs sc sc' id,
        sc_unresolved sc = [] ->
        TypeSection_run evs sc = Ok sc' ->
        forwardPending id evs ->
        TypeSection_section evs sc
        = throw ("no declaration found for '"
                 +:+ join "', '" (sc_unresolved sc') +:+ "'")
          /\ id ∈ sc_unresolved sc').
Proof.
  assert (Hpending : forall evs sc sc' id,
             sc_unresolved sc = [] -> TypeSection_run evs sc = Ok sc' ->
             id ∈ sc_unresolved sc' <-> forwardPending id evs).
  { intros evs sc sc' id Hnone Hrun.
    rewrite (TypeSection_run_unresolved evs sc sc' id Hrun), Hnone.
    split; [|auto]. intros [[H _] | H]; [by apply elem_of_nil in H | done]. }
  split; [|split; [|split]].
  - intros sc H. unfold TypeSection_endParse, Scope_unresolved.
    by rewrite H.
  - intros sc H. unfold TypeSection_endParse, Scope_unresolved.
    by rewrite bool_decide_eq_false_2.
  - exact Hpending.
  - intros evs sc sc' id Hnone Hrun Hp.
    apply (Hpending evs sc sc' id Hnone Hrun) in Hp.
    split; [|exact Hp].
    unfold TypeSection_section. rewrite Hrun. cbn [bind].
    unfold TypeSection_endParse, Scope_unresolved.
    rewrite bool_decide_eq_false_2; [reflexivity|].
    intros Hnil. rewrite Hnil in Hp. by apply elem_of_nil in Hp.
Qed.

(** ** Set literals *)

Lemma Set_element_eq el st :
  codesNonEmpty el ->
  Set_element el st =
    if isConstantElement el
    then mkSet (elementBits el (set_value st)) (set_expr st)
    else mkSet (set_value st)
           ((if bool_decide (set_expr st = EmptyString) then EmptyString
             else set_expr st +:+ ", ") +:+ elementCode el).
Proof.
  intros [H1 H2]. destruct el as [e1 [e2|]]; cbn in H1, H2.
  - specialize (H2 e2 eq_refl).
    unfold Set_element, SetElement_expression, SetElement_handleExpression,
      SetElement_init, SetElement_endParse, simpleWrite. cbn.
    rewrite (bool_decide_eq_false_2 _ H1). cbn.
    unfold Set_handleElement, isConstantElement, elementBits, elementCode,
      Set_appendExpr. cbn.
    rewrite (bool_decide_eq_false_2 _ H2). cbn.
    destruct (e_constValue e1) as [fv|], (e_constValue e2) as [tv|];
      try reflexivity; case_bool_decide as He; cbn; try rewrite He;
      reflexivity.
  - unfold Set_element, SetElement_expression, SetElement_handleExpression,
      SetElement_init, SetElement_endParse, simpleWrite. cbn.
    unfold Set_handleElement, isConstantElement, elementBits, elementCode,
      Set_appendExpr. cbn.
    destruct (e_constValue e1) as [fv|]; [reflexivity|].
    case_bool_decide as He; cbn; try rewrite He; reflexivity.
Qed.

Lemma elementCode_nonempty el : codesNonEmpty el -> elementCode el <> EmptyString.
Proof.
  intros [H1 H2]. unfold elementCode. destruct (snd el); [discriminate | done].
Qed.

Lemma appendAll_join codes expr :
  (forall c, c ∈ codes -> c <> EmptyString) -> codes <> [] ->
  appendAll expr codes
  = (if bool_decide (expr = EmptyString) then EmptyString else expr +:+ ", ")
    +:+ join ", " codes.
Proof.
  revert expr. induction codes as [|c codes IH]; intros expr Hne Hnil;
    [done|].
  destruct codes as [|c' codes]; [reflexivity|].
  change (appendAll expr (c :: c' :: codes))
    with (appendAll ((if bool_decide (expr = EmptyString) then EmptyString
                      else expr +:+ ", ") +:+ c) (c' :: codes)).
  rewrite IH; [| intros x Hx; apply Hne; by right | done].
  rewrite bool_decide_eq_false_2
    by (apply append_nonempty_r, Hne; by left).
  change (join ", " (c :: c' :: codes))
    with (c +:+ ", " +:+ join ", " (c' :: codes)).
  by rewrite !append_assoc.
Qed.

Lemma join_nonempty sep codes :
  (forall c, c ∈ codes -> c <> EmptyString) -> codes <> [] ->
  join sep codes <> EmptyString.
Proof.
  intros Hne Hnil. destruct codes as [|c codes]; [done|].
  assert (c <> EmptyString) by (apply Hne; by left).
  destruct codes; cbn; [done | by apply append_nonempty_l].
Qed.

Lemma elementBits_nonconstant el v :
  isConstantElement el = false -> elementBits el v = v.
Proof.
  unfold isConstantElement, elementBits.
  destruct (e_constValue (fst el)), (snd el) as [e'|];
    try destruct (e_constValue e'); done.
Qed.

Lemma Set_fold els st :
  (forall el, el ∈ els -> codesNonEmpty el) ->
  fold_left (fun st el => Set_element el st) els st
  = mkSet (fold_left (fun v el => elementBits el v) els (set_value st))
      (appendAll (set_expr st)
         (map elementCode
            (filter (fun el => isConstantElement el = false) els))).
Proof.
  revert st. induction els as [|el els IH]; intros st Hne.
  - by destruct st.
  - cbn [fold_left]. rewrite IH by (intros x Hx; apply Hne; by right).
    rewrite Set_element_eq by (apply Hne; by left).
    rewrite filter_cons.
    destruct (isConstantElement el) eqn:Hc; cbn [set_value set_expr].
    + rewrite decide_False by done. reflexivity.
    + rewrite decide_True by done.
      rewrite (elementBits_nonconstant el _ Hc). reflexivity.
Qed.

(** *** The bits of the constant part *)

Lemma toInt32_range z : (- 2 ^ 31 <= toInt32 z < 2 ^ 31)%Z.
Proof.
  unfold toInt32.
  pose proof (Z.mod_pos_bound z (2 ^ 32) ltac:(lia)).
  destruct (Z.ltb_spec (z mod 2 ^ 32) (2 ^ 31)); lia.
Qed.

Lemma toInt32_mod z : (toInt32 z mod 2 ^ 32 = z mod 2 ^ 32)%Z.
Proof.
  unfold toInt32. destruct (Z.ltb_spec (z mod 2 ^ 32) (2 ^ 31)).
  - apply Z.mod_mod. lia.
  - replace (z mod 2 ^ 32 - 2 ^ 32)%Z
      with (z mod 2 ^ 32 + (-1) * 2 ^ 32)%Z by lia.
    rewrite Z.mod_add by lia. apply Z.mod_mod. lia.
Qed.

Lemma toInt32_testbit z k :
  (0 <= k < 32)%Z -> Z.testbit (toInt32 z) k = Z.testbit z k.
Proof.
  intros Hk.
  rewrite <- (Z.mod_pow2_bits_low (toInt32 z) 32 k) by lia.
  rewrite toInt32_mod. apply Z.mod_pow2_bits_low. lia.
Qed.

Lemma shl32_one_testbit i k :
  (0 <= k < 32)%Z ->
  Z.testbit (shl32 1 i) k = bool_decide (i mod 32 = k)%Z.
Proof.
  intros Hk. unfold shl32. rewrite toInt32_testbit by done.
  change (toInt32 1) with 1%Z. rewrite Z.shiftl_1_l.
  pose proof (Z.mod_pos_bound i 32 ltac:(lia)).
  rewrite Z.pow2_bits_eqb by lia.
  destruct (Z.eqb_spec (i mod 32) k);
    [by rewrite bool_decide_eq_true_2 | by rewrite bool_decide_eq_false_2].
Qed.

Lemma or32_testbit a b k :
  (0 <= k < 32)%Z ->
  Z.testbit (or32 a b) k = Z.testbit a k || Z.testbit b k.
Proof.
  intros Hk. unfold or32.
  by rewrite toInt32_testbit, Z.lor_spec, !toInt32_testbit.
Qed.

Lemma Set_range_testbit n i v k :
  (0 <= k < 32)%Z ->
  Z.testbit (Set_range n i v) k = true
  <-> Z.testbit v k = true
      \/ exists j, (i <= j < i + Z.of_nat n)%Z /\ (j mod 32 = k)%Z.
Proof.
  intros Hk. revert i v. induction n as [|n IH]; intros i v.
  - cbn. split; [by left|]. intros [H | (j & Hj & _)]; [done | lia].
  - cbn [Set_range]. rewrite IH, or32_testbit, shl32_one_testbit by done.
    rewrite orb_true_iff, bool_decide_eq_true. split.
    + intros [[H | H] | (j & Hj & Hm)]; [by left | right | right].
      * exists i. split; [lia | done].
      * exists j. split; [lia | done].
    + intros [H | (j & Hj & Hm)]; [by left; left|].
      destruct (decide (j = i)) as [-> | Hne].
      * left. by right.
      * right. exists j. split; [lia | done].
Qed.

Lemma elementBits_testbit el v k :
  (0 <= k < 32)%Z ->
  Z.testbit (elementBits el v) k = true
  <-> Z.testbit v k = true \/ (isConstantElement el = true /\ coversBit el k).
Proof.
  intros Hk. unfold elementBits, isConstantElement, coversBit.
  destruct (e_constValue (fst el)) as [fv|], (snd el) as [e'|];
    try destruct (e_constValue e') as [tv|];
    try (split; [by left | by intros [H | [H _]]]).
  - rewrite Set_range_testbit by done. split.
    + intros [H | (j & Hj & Hm)]; [by left|]. right. split; [done|].
      exists j. split; [lia | done].
    + intros [H | [_ (j & Hj & Hm)]]; [by left|]. right.
      exists j. split; [lia | done].
  - rewrite or32_testbit, shl32_one_testbit by done.
    rewrite orb_true_iff, bool_decide_eq_true. split.
    + intros [H | H]; [by left | by right].
    + intros [H | [_ H]]; [by left | by right].
Qed.

Lemma fold_elementBits_testbit els v k :
  (0 <= k < 32)%Z ->
  Z.testbit (fold_left (fun v el => elementBits el v) els v) k = true
  <-> Z.testbit v k = true
      \/ exists el, el ∈ els /\ isConstantElement el = true /\ coversBit el k.
Proof.
  intros Hk. revert v. induction els as [|el els IH]; intros v; cbn.
  - split; [by left|]. intros [H | (el & Hel & _)]; [done|].
    by apply elem_of_nil in Hel.
  - rewrite IH, elementBits_testbit by done. split.
    + intros [[H | [Hc Hb]] | (x & Hx & Hc & Hb)]; [by left | right | right].
      * exists el. split; [by left | done].
      * exists x. split; [by right | done].
    + intros [H | (x & Hx & Hc & Hb)]; [by left; left|].
      apply elem_of_cons in Hx as [-> | Hx].
      * left. by right.
      * right. by exists x.
Qed.

(** C7.  A set literal all of whose elements are constant is handed to the
    parent as one constant, the bit mask of its members, with the mask as
    its code.  A literal with a non-constant element becomes the run-time
    set builder applied to its non-constant elements and ranges, in order,
    or-ed with the mask of the constant members unless that mask is zero.
    Bit [k] of the mask is set exactly when a constant member denotes it.
    The constants are those a range can be counted through exactly. *)
Theorem Set_literal_folds els :
  (forall el, el ∈ els -> codesNonEmpty el) ->
  (forall el, el ∈ els -> exactMembers el) ->
  let others := filter (fun el => isConstantElement el = false) els in
  let bits := constantBits els in
  (others = [] ->
   Set_literal els
   = HandleConst (Basic set_) (SetConst bits) (pretty bits))
  /\ (others <> [] ->
      Set_literal els
      = HandleFactor
          (makeExpression
             (makeSet rtl (join ", " (map elementCode others))
              +:+ (if bool_decide (bits = 0%Z) then EmptyString
                   else " | " +:+ pretty bits))
             (Some (Basic set_)) None None))
  /\ (forall k, (0 <= k < 32)%Z ->
        Z.testbit bits k = true
        <-> exists el, el ∈ els /\ isConstantElement el = true
                       /\ coversBit el k).
Proof.
  intros Hne _ others bits. unfold Set_literal.
  rewrite (Set_fold els Set_init Hne). fold others.
  change (fold_left (fun v el => elementBits el v) els (set_value Set_init))
    with bits.
  split; [|split].
  - intros ->. reflexivity.
  - intros Hothers. unfold Set_endParse. cbn [set_expr set_value].
    assert (Hcodes : forall c, c ∈ map elementCode others -> c <> EmptyString).
    { intros c Hc. apply list_elem_of_fmap in Hc as (el & -> & Hel).
      apply elementCode_nonempty, Hne.
      by apply list_elem_of_filter in Hel as [_ Hel]. }
    assert (Hmap : map elementCode others <> []).
    { destruct others; [done | discriminate]. }
    assert (Hexpr : appendAll EmptyString (map elementCode others)
                    = join ", " (map elementCode others)).
    { rewrite appendAll_join by done.
      by rewrite bool_decide_eq_true_2 by reflexivity. }
    change (set_expr Set_init) with EmptyString. rewrite Hexpr.
    rewrite bool_decide_eq_false_2 by (by apply join_nonempty).
    case_bool_decide; [by rewrite append_empty_r | reflexivity].
  - intros k Hk. unfold bits, constantBits.
    rewrite fold_elementBits_testbit by done. split; [|auto].
    intros [H | H]; [|done]. by rewrite Z.bits_0 in H.
Qed.

(** ** Conditions and loops *)

Lemma scopeDepth_app g1 g2 d :
  scopeDepth (g1 ++ g2) d = scopeDepth g1 d ≫= scopeDepth g2.
Proof.
  revert d. induction g1 as [|op g1 IH]; intros d; [reflexivity|].
  destruct op; cbn; [apply IH | apply IH |].
  destruct d; [reflexivity | apply IH].
Qed.

Lemma scopeDepth_raise g d d' k :
  scopeDepth g d = Some d' -> scopeDepth g (d + k) = Some (d' + k).
Proof.
  revert d. induction g as [|op g IH]; intros d; cbn.
  - by intros [= ->].
  - destruct op; cbn.
    + apply IH.
    + apply (IH (S d)).
    + destruct d; [discriminate|]. apply IH.
Qed.

Lemma balanced_at g d : balanced g -> scopeDepth g d = Some d.
Proof. intros H. apply (scopeDepth_raise g 0 0 d H). Qed.

Lemma If_branch_boolean branch out :
  e_type (fst branch) = Some (Basic bool_) ->
  If_branch branch out
  = Ok (out ++ [Write (e_code (fst branch)); Write ")"; OpenScope]
            ++ snd branch).
Proof.
  intros Ht. unfold If_branch, Expression_endParse, If_handleExpression,
    handleIfExpression, genWrite.
  rewrite Ht. cbn. rewrite bool_decide_eq_true_2 by reflexivity. cbn.
  by rewrite <- !app_assoc.
Qed.

Lemma If_branch_not_boolean branch out t :
  e_type (fst branch) = Some t -> t <> Basic bool_ ->
  If_branch branch out
  = throw ("'BOOLEAN' expression expected, got '" +:+ description t +:+ "'").
Proof.
  intros Ht Hne. unfold If_branch, Expression_endParse, If_handleExpression,
    handleIfExpression.
  rewrite Ht. cbn. by rewrite bool_decide_eq_false_2.
Qed.

Lemma If_handleLiteral_ELSIF out :
  If_handleLiteral "ELSIF" out
  = out ++ [CloseScope EmptyString; Write "else if ("].
Proof.
  unfold If_handleLiteral. by rewrite bool_decide_eq_true_2 by reflexivity.
Qed.

Lemma If_handleLiteral_ELSE out :
  If_handleLiteral "ELSE" out
  = out ++ [CloseScope EmptyString; Write "else "; OpenScope].
Proof.
  unfold If_handleLiteral. rewrite bool_decide_eq_false_2 by discriminate.
  by rewrite bool_decide_eq_true_2 by reflexivity.
Qed.

Lemma If_elsifs_boolean rest out :
  Forall (fun b => e_type (fst b) = Some (Basic bool_)) rest ->
  Forall (fun b => balanced (snd b)) rest ->
  exists ops, If_elsifs rest out = Ok (out ++ ops)
              /\ scopeDepth ops 1 = Some 1.
Proof.
  intros Hbool Hbal. revert out.
  induction rest as [|branch rest IH]; intros out.
  - exists []. by rewrite app_nil_r.
  - apply Forall_cons in Hbool as [Hb Hbool].
    apply Forall_cons in Hbal as [Hbody Hbal].
    cbn [If_elsifs]. rewrite If_branch_boolean by done. cbn [bind].
    destruct (IH Hbool Hbal
                (If_handleLiteral "ELSIF" out
                 ++ [Write (e_code (fst branch)); Write ")"; OpenScope]
                 ++ snd branch)) as (ops & -> & Hops).
    exists ([CloseScope EmptyString; Write "else if (";
             Write (e_code (fst branch)); Write ")"; OpenScope]
            ++ snd branch ++ ops).
    split.
    + rewrite If_handleLiteral_ELSIF. by rewrite <- !app_assoc.
    + cbn. rewrite scopeDepth_app, (balanced_at _ 1 Hbody). exact Hops.
Qed.

Lemma If_elsifs_not_boolean rest out t :
  firstNonBoolean rest t ->
  If_elsifs rest out
  = throw ("'BOOLEAN' expression expected, got '" +:+ description t +:+ "'").
Proof.
  intros (before & e & body & after & -> & Hbool & Ht & Hne). revert out.
  induction before as [|branch before IH]; intros out.
  - cbn [If_elsifs app]. by rewrite (If_branch_not_boolean _ _ t).
  - apply Forall_cons in Hbool as [Hb Hbool].
    cbn [If_elsifs app]. rewrite If_branch_boolean by done. cbn [bind].
    by apply IH.
Qed.

Lemma firstNonBoolean_cons branch rest t :
  firstNonBoolean (branch :: rest) t ->
  (e_type (fst branch) = Some t /\ t <> Basic bool_)
  \/ (e_type (fst branch) = Some (Basic bool_) /\ firstNonBoolean rest t).
Proof.
  intros (before & e & body & after & Heq & Hbool & Ht & Hne).
  destruct before as [|b before]; cbn in Heq; injection Heq as -> ->.
  - by left.
  - apply Forall_cons in Hbool as [Hb Hbool]. right. split; [done|].
    by exists before, e, body, after.
Qed.

(** X1.  An IF statement whose conditions are all BOOLEAN appends to the
    output, leaving what was emitted before untouched, and what it appends
    opens and closes its blocks in matched pairs whenever the bodies of its
    branches do; with a condition of another type it fails with the error
    naming the type of the first such condition. *)
Theorem If_statement_blocks first rest else_ out :
  (Forall (fun b => e_type (fst b) = Some (Basic bool_)) (first :: rest) ->
   Forall (fun b => balanced (snd b)) (first :: rest) ->
   (forall body, else_ = Some body -> balanced body) ->
   exists ops, If_statement first rest else_ out = Ok (out ++ ops)
               /\ balanced ops)
  /\ (forall t, firstNonBoolean (first :: rest) t ->
      If_statement first rest else_ out
      = throw ("'BOOLEAN' expression expected, got '"
               +:+ description t +:+ "'")).
Proof.
  split.
  - intros Hbool Hbal Helse.
    apply Forall_cons in Hbool as [Hb Hbool].
    apply Forall_cons in Hbal as [Hbody Hbal].
    unfold If_statement. rewrite If_branch_boolean by done. cbn [bind].
    destruct (If_elsifs_boolean rest
                (If_init out
                 ++ [Write (e_code (fst first)); Write ")"; OpenScope]
                 ++ snd first) Hbool Hbal) as (ops & -> & Hops).
    cbn [bind]. unfold If_init, If_endParse.
    destruct else_ as [body|].
    + exists ([Write "if ("; Write (e_code (fst first)); Write ")"; OpenScope]
              ++ snd first ++ ops
              ++ [CloseScope EmptyString; Write "else "; OpenScope]
              ++ body ++ [CloseScope EmptyString]).
      split.
      * rewrite If_handleLiteral_ELSE. by rewrite <- !app_assoc.
      * unfold balanced. cbn.
        rewrite scopeDepth_app, (balanced_at _ 1 Hbody). cbn.
        rewrite scopeDepth_app, Hops. cbn.
        rewrite scopeDepth_app, (balanced_at _ 1 (Helse body eq_refl)).
        reflexivity.
    + exists ([Write "if ("; Write (e_code (fst first)); Write ")"; OpenScope]
              ++ snd first ++ ops ++ [CloseScope EmptyString]).
      split.
      * by rewrite <- !app_assoc.
      * unfold balanced. cbn.
        rewrite scopeDepth_app, (balanced_at _ 1 Hbody). cbn.
        rewrite scopeDepth_app, Hops. reflexivity.
  - intros t Hfirst. unfold If_statement.
    destruct (firstNonBoolean_cons _ _ _ Hfirst) as [[Ht Hne]|[Hb Hrest]].
    + by rewrite (If_branch_not_boolean _ _ t).
    + rewrite If_branch_boolean by done. cbn [bind].
      by rewrite (If_elsifs_not_boolean _ _ t).
Qed.

Lemma While_branch_boolean branch out :
  e_type (fst branch) = Some (Basic bool_) ->
  While_branch branch out
  = Ok (out ++ [Write (e_code (fst branch)); Write ")"; OpenScope]
            ++ snd branch).
Proof.
  intros Ht. unfold While_branch, Expression_endParse,
    While_handleExpression, handleIfExpression, genWrite.
  rewrite Ht. cbn. rewrite bool_decide_eq_true_2 by reflexivity. cbn.
  by rewrite <- !app_assoc.
Qed.

Lemma While_branch_not_boolean branch out t :
  e_type (fst branch) = Some t -> t <> Basic bool_ ->
  While_branch branch out
  = throw ("'BOOLEAN' expression expected, got '" +:+ description t +:+ "'").
Proof.
  intros Ht Hne. unfold While_branch, Expression_endParse,
    While_handleExpression, handleIfExpression.
  rewrite Ht. cbn. by rewrite bool_decide_eq_false_2.
Qed.

Lemma While_handleLiteral_ELSIF out :
  While_handleLiteral "ELSIF" out
  = out ++ [CloseScope EmptyString; Write "else if ("].
Proof.
  unfold While_handleLiteral.
  by rewrite bool_decide_eq_true_2 by reflexivity.
Qed.

Lemma While_elsifs_boolean rest : forall out,
  Forall (fun b => e_type (fst b) = Some (Basic bool_)) rest ->
  While_elsifs rest out
  = Ok (out ++ concat ((fun branch =>
                          [CloseScope EmptyString; Write "else if ("]
                          ++ guardedBranch branch) <$> rest)).
Proof.
  induction rest as [|branch rest IH]; intros out Hbool.
  - cbn. by rewrite app_nil_r.
  - apply Forall_cons in Hbool as [Hb Hbool].
    cbn [While_elsifs]. rewrite While_branch_boolean by done. cbn [bind].
    rewrite IH by exact Hbool. rewrite While_handleLiteral_ELSIF.
    cbn [fmap list_fmap concat]. unfold guardedBranch.
    by rewrite <- !app_assoc.
Qed.

Lemma scopeDepth_elsifs rest :
  Forall (fun b => balanced (snd b)) rest ->
  scopeDepth (concat ((fun branch =>
                         [CloseScope EmptyString; Write "else if ("]
                         ++ guardedBranch branch) <$> rest)) 2 = Some 2.
Proof.
  induction 1 as [|branch rest Hbody _ IH]; [reflexivity|].
  cbn [fmap list_fmap concat]. unfold guardedBranch.
  rewrite <- !app_assoc. cbn [app scopeDepth].
  rewrite scopeDepth_app, (balanced_at _ 2 Hbody). exact IH.
Qed.

Lemma While_elsifs_not_boolean rest out t :
  firstNonBoolean rest t ->
  While_elsifs rest out
  = throw ("'BOOLEAN' expression expected, got '" +:+ description t +:+ "'").
Proof.
  intros (before & e & body & after & -> & Hbool & Ht & Hne). revert out.
  induction before as [|branch before IH]; intros out.
  - cbn [While_elsifs app]. by rewrite (While_branch_not_boolean _ _ t).
  - apply Forall_cons in Hbool as [Hb Hbool].
    cbn [While_elsifs app]. rewrite While_branch_boolean by done.
    cbn [bind]. by apply IH.
Qed.

(** X2.  A WHILE statement whose conditions are all BOOLEAN appends to the
    output an endless loop, [while (true)] and a block, around the chain of
    its branches: [if (], the first condition, [)] and the block of the
    first body, then for every further branch the end of the block before
    it, [else if (], its condition, [)] and the block of its body; the
    last block ends with [ else break;] and the loop is closed.  The blocks
    are opened and closed in matched pairs whenever the bodies are.  With a
    condition of another type the statement fails with the error naming the
    type of the first such condition. *)
Theorem While_statement_blocks first rest out :
  (Forall (fun b => e_type (fst b) = Some (Basic bool_)) (first :: rest) ->
   While_statement first rest out
   = Ok (out ++ [Write "while (true)"; OpenScope] ++ While_chain first rest
             ++ [CloseScope (" else break;" +:+ LF); CloseScope EmptyString])
   /\ (Forall (fun b => balanced (snd b)) (first :: rest) ->
       balanced ([Write "while (true)"; OpenScope] ++ While_chain first rest
                 ++ [CloseScope (" else break;" +:+ LF);
                     CloseScope EmptyString])))
  /\ (forall t, firstNonBoolean (first :: rest) t ->
      While_statement first rest out
      = throw ("'BOOLEAN' expression expected, got '"
               +:+ description t +:+ "'")).
Proof.
  split.
  - intros Hbool. apply Forall_cons in Hbool as [Hb Hbool]. split.
    + unfold While_statement. rewrite While_branch_boolean by done.
      cbn [bind]. rewrite While_elsifs_boolean by exact Hbool.
      cbn [bind]. unfold While_init, While_endParse, While_chain,
        guardedBranch.
      rewrite <- !app_assoc. cbn [app]. by rewrite <- !app_assoc.
    + intros Hbal. apply Forall_cons in Hbal as [Hbody Hbal].
      unfold balanced, While_chain. unfold guardedBranch at 1.
      cbn [app scopeDepth]. rewrite <- !app_assoc. cbn [app scopeDepth].
      rewrite scopeDepth_app, (balanced_at _ 2 Hbody).
      cbn [mbind option_bind].
      pose proof (scopeDepth_elsifs rest Hbal) as Hrest.
      cbn [app] in Hrest. by rewrite scopeDepth_app, Hrest.
  - intros t Hfirst. unfold While_statement.
    destruct (firstNonBoolean_cons _ _ _ Hfirst) as [[Ht Hne]|[Hb Hrest]].
    + by rewrite (While_branch_not_boolean _ _ t).
    + rewrite While_branch_boolean by done. cbn [bind].
      by rewrite (While_elsifs_not_boolean _ _ t).
Qed.

(** X3.  A REPEAT statement emits [do], the block of its body, and the
    negated condition between [while (] and [);]; the code of the condition
    itself is not emitted, and a condition that is not BOOLEAN fails. *)
Theorem Repeat_statement_negates body e out :
  (e_type e = Some (Basic bool_) ->
   Repeat_statement body e out
   = Ok (out ++ [Write "do "; OpenScope] ++ body
             ++ [CloseScope " while ("; Write (e_code (opNot e));
                 Write (");" +:+ LF)]))
  /\ (e_type e = Some (Basic bool_) -> balanced body ->
      exists ops, Repeat_statement body e out = Ok (out ++ ops)
                  /\ balanced ops)
  /\ (forall t, e_type e = Some t -> t <> Basic bool_ ->
      Repeat_statement body e out
      = throw ("'BOOLEAN' expression expected, got '"
               +:+ description t +:+ "'")).
Proof.
  assert (Hok : e_type e = Some (Basic bool_) ->
    Repeat_statement body e out
    = Ok (out ++ [Write "do "; OpenScope] ++ body
              ++ [CloseScope " while ("; Write (e_code (opNot e));
                  Write (");" +:+ LF)])).
  { intros Ht. unfold Repeat_statement, Expression_endParse,
      Until_handleExpression, handleIfExpression, Until_init, Repeat_init,
      Until_endParse.
    rewrite Ht. cbn. rewrite bool_decide_eq_true_2 by reflexivity. cbn.
    by rewrite <- !app_assoc. }
  split; [exact Hok|]. split.
  - intros Ht Hbody. eexists. split; [exact (Hok Ht)|].
    unfold balanced. cbn.
    by rewrite scopeDepth_app, (balanced_at _ 1 Hbody).
  - intros t Ht Hne. unfold Repeat_statement, Expression_endParse,
      Until_handleExpression, handleIfExpression.
    rewrite Ht. cbn. by rewrite bool_decide_eq_false_2.
Qed.

Lemma For_body_parent body st :
  f_toParsed st = true -> f_by_parsed st = true ->
  For_body body st
  = mkFor (f_var st) (f_initExprParsed st) (f_toExpr st) (f_toParsed st)
      (f_by_parsed st) (f_by st) (f_out st ++ body).
Proof.
  intros Hto Hby. unfold For_body. revert st Hto Hby.
  induction body as [|op body IH]; intros st Hto Hby.
  - cbn. rewrite app_nil_r. by destruct st.
  - cbn [fold_left]. rewrite IH.
    + unfold For_emit, For_codeGenerator. rewrite Hto, Hby.
      rewrite andb_false_r. cbn. by rewrite <- app_assoc.
    + unfold For_emit, For_codeGenerator. rewrite Hto, Hby.
      by rewrite andb_false_r.
    + unfold For_emit, For_codeGenerator. rewrite Hto, Hby.
      by rewrite andb_false_r.
Qed.

(** X4.  A counted loop over an INTEGER variable with INTEGER bounds and an
    absent or constant INTEGER step emits its header, opens one block,
    lets the body write to the same output and closes the block: the
    output before the loop is kept, the body follows the header unchanged,
    and the blocks are matched whenever those of the body are. *)
Theorem For_statement_blocks find id name ro ref sc init limit step body out :
  find None id
    = Some (mkFound (mkSymbol name (VariableInfo (Basic integer) ro ref)) sc) ->
  e_type init = Some (Basic integer) ->
  e_type limit = Some (Basic integer) ->
  (forall e, step = Some e ->
             e_type e = Some (Basic integer) /\ is_Some (e_constValue e)) ->
  exists header,
    For_statement find id init limit step body out
    = Ok (out ++ [Write ("for (" +:+ id +:+ " = "); Write (e_code init);
                  Write header; OpenScope] ++ body ++ [CloseScope EmptyString])
    /\ (balanced body ->
        balanced ([Write ("for (" +:+ id +:+ " = "); Write (e_code init);
                   Write header; OpenScope] ++ body
                  ++ [CloseScope EmptyString])).
Proof.
  intros Hs Hi Hl Hstep. unfold For_statement.
  assert (Hbal : forall header, balanced body ->
            balanced ([Write ("for (" +:+ id +:+ " = "); Write (e_code init);
                       Write header; OpenScope] ++ body
                      ++ [CloseScope EmptyString])).
  { intros header Hbody. unfold balanced. cbn.
    by rewrite scopeDepth_app, (balanced_at _ 1 Hbody). }
  destruct step as [e|].
  - destruct (Hstep e eq_refl) as [Ht [v Hv]].
    rewrite (For_header_with_step _ _ _ _ _ _ _ _ _ _ Hs Hi Hl), Ht, Hv.
    rewrite bool_decide_eq_true_2 by reflexivity. cbn [bind].
    rewrite For_body_parent by reflexivity.
    eexists. split; [|apply Hbal].
    unfold For_endParse, For_emit, For_codeGenerator. cbn.
    by rewrite <- !app_assoc.
  - rewrite (For_header_without_step _ _ _ _ _ _ _ _ _ Hs Hi Hl).
    cbn [bind]. rewrite For_body_parent by reflexivity.
    eexists. split; [|apply Hbal].
    unfold For_endParse, For_emit, For_codeGenerator. cbn.
    by rewrite <- !app_assoc.
Qed.

(** ** The multi-way branch *)

Lemma writtenText_app g1 g2 :
  writtenText (g1 ++ g2) = writtenText g1 +:+ writtenText g2.
Proof.
  induction g1 as [|op g1 IH]; [reflexivity|].
  destruct op; cbn; [|exact IH|exact IH].
  by rewrite IH, append_assoc.
Qed.

Lemma writtenText_rangeWrites var glue r rs :
  writtenText (rangeWrites var glue (r :: rs))
  = glue +:+ join " || "
               (map (fun r => CaseLabelList_cond var (fst r) (snd r))
                  (r :: rs)).
Proof.
  revert glue r. induction rs as [|r' rs IH]; intros glue r.
  - cbn. by rewrite append_empty_r.
  - change (writtenText (rangeWrites var glue (r :: r' :: rs)))
      with ((glue +:+ CaseLabelList_cond var (fst r) (snd r))
            +:+ writtenText (rangeWrites var " || " (r' :: rs))).
    rewrite IH.
    change (join " || "
              (map (fun r => CaseLabelList_cond var (fst r) (snd r))
                 (r :: r' :: rs)))
      with (CaseLabelList_cond var (fst r) (snd r) +:+ " || "
            +:+ join " || "
                  (map (fun r => CaseLabelList_cond var (fst r) (snd r))
                     (r' :: rs))).
    by rewrite !append_assoc.
Qed.

Lemma scopeDepth_rangeWrites var glue rs d :
  scopeDepth (rangeWrites var glue rs) d = Some d.
Proof.
  revert glue. induction rs as [|r rs IH]; intros glue; [reflexivity|].
  cbn. apply IH.
Qed.

Lemma CaseRange_token_literal find st T l r :
  cs_type st = Some T -> labelFits T l ->
  CaseRange_token find st (labelToken l) r
  = Ok (match fst r with
        | None => (Some (labelConst l), snd r)
        | Some _ => (fst r, Some (labelConst l))
        end).
Proof.
  intros HT Hl. destruct l as [type v|c];
    unfold CaseRange_token, labelToken, CaseRange_handleConst,
      CaseRange_handleLabel, Case_handleLabelType.
  - destruct Hl as (-> & Hmatch & _). rewrite HT, Hmatch. cbn [bind].
    by destruct (fst r).
  - cbn [isStringLiteral stringAsChar]. cbn in Hl. rewrite HT, Hl.
    cbn [bind]. by destruct (fst r).
Qed.

Lemma CaseRange_range_literal find st T r glue :
  cs_type st = Some T -> rangeFits T r ->
  CaseRange_range find (labelRange r) (glue, st)
  = CaseLabelList_handleRange
      (Some (fst (rangeConsts r)), snd (rangeConsts r)) (glue, st).
Proof.
  intros HT [Hfrom Hto]. destruct r as [from [to|]];
    unfold CaseRange_range, labelRange, rangeConsts;
    cbn [fst snd fmap option_fmap option_map].
  - rewrite (CaseRange_token_literal find st T from _ HT Hfrom).
    cbn [bind fst].
    by rewrite (CaseRange_token_literal find st T to _ HT (Hto to eq_refl)).
  - by rewrite (CaseRange_token_literal find st T from _ HT Hfrom).
Qed.

Lemma CaseLabelList_ranges_literal find T rs : forall st,
  cs_type st = Some T -> Forall (rangeFits T) rs ->
  CaseLabelList_ranges find (map labelRange rs) (" || ", st)
  = Ok (" || ", mkCase (cs_type st) (cs_firstCase st) (cs_var st)
                  (cs_out st
                   ++ rangeWrites (cs_var st) " || " (map rangeConsts rs))).
Proof.
  induction rs as [|r rs IH]; intros st HT Hfits.
  - cbn. rewrite app_nil_r. by destruct st.
  - apply Forall_cons in Hfits as [Hr Hfits].
    cbn [map CaseLabelList_ranges].
    rewrite (CaseRange_range_literal find st T) by done.
    cbn. rewrite IH by done. cbn. by rewrite <- app_assoc.
Qed.

Lemma CaseLabel_case_literal find st T c :
  cs_type st = Some T -> caseFits T c ->
  CaseLabel_case find (literalCase c) st
  = Ok (mkCase (Some T) false (cs_var st)
          (cs_out st ++ caseBlock (cs_firstCase st) (cs_var st) c)).
Proof.
  intros HT Hfits. destruct c as [[r rs] body].
  unfold caseFits in Hfits. cbn [fst snd] in Hfits.
  apply Forall_cons in Hfits as [Hr Hfits].
  unfold CaseLabel_case, literalCase, caseBlock, caseGuard.
  cbn [fst snd map CaseLabelList_ranges].
  rewrite (CaseRange_range_literal find st T) by done.
  unfold CaseLabelList_handleRange. cbn [fst snd bind].
  rewrite bool_decide_eq_true_2 by reflexivity.
  unfold CaseLabel_caseLabelBegin, Case_beginCase.
  destruct (cs_firstCase st) eqn:Hfirst; cbn [bind Case_write cs_var cs_out
    cs_type cs_firstCase];
    (rewrite (CaseLabelList_ranges_literal find T) by done);
    unfold CaseLabel_endParse, CaseLabel_caseLabelEnd; cbn;
    rewrite HT, ?Hfirst; rewrite <- !app_assoc; reflexivity.
Qed.

Lemma scopeDepth_guard first var rs d :
  scopeDepth (caseGuard first var rs) d = Some d.
Proof.
  unfold caseGuard.
  assert (Hguard : scopeDepth ([Write "if ("]
                     ++ rangeWrites var EmptyString rs
                     ++ [Write ")"]) d = Some d).
  { change (scopeDepth (rangeWrites var EmptyString rs
                        ++ [Write ")"]) d = Some d).
    by rewrite scopeDepth_app, scopeDepth_rangeWrites. }
  destruct first; exact Hguard.
Qed.

Lemma scopeDepth_caseBlock first var c d :
  balanced (snd c) -> scopeDepth (caseBlock first var c) d = Some d.
Proof.
  intros Hbody. unfold caseBlock.
  rewrite scopeDepth_app, scopeDepth_guard. cbn [mbind option_bind].
  cbn [app scopeDepth].
  by rewrite scopeDepth_app, (balanced_at _ (S d) Hbody).
Qed.

(** X5.  One case of a CASE statement whose labels are literals that fit
    the case expression, numbers or characters, writes a single guard and
    the block of its statements: [else ] unless it is the first case, then
    [if (], the conditions of its ranges joined by [ || ], a single label
    as [var === label] and a range as [(var >= from && var <= to)], a
    character by its code, and [)]; the next case is no longer the
    first. *)
Theorem CaseLabel_case_guard find st T r rs body :
  cs_type st = Some T ->
  Forall (rangeFits T) (r :: rs) ->
  CaseLabel_case find (literalCase (r, rs, body)) st
  = Ok (mkCase (Some T) false (cs_var st)
          (cs_out st
           ++ caseGuard (cs_firstCase st) (cs_var st)
                (map rangeConsts (r :: rs))
           ++ [OpenScope] ++ body ++ [CloseScope EmptyString]))
  /\ writtenText (caseGuard (cs_firstCase st) (cs_var st)
                    (map rangeConsts (r :: rs)))
     = (if cs_firstCase st then EmptyString else "else ")
       +:+ "if ("
       +:+ join " || "
             (map (fun r => CaseLabelList_cond (cs_var st) (fst r) (snd r))
                (map rangeConsts (r :: rs)))
       +:+ ")"
  /\ forall d,
       scopeDepth (caseGuard (cs_firstCase st) (cs_var st)
                     (map rangeConsts (r :: rs))) d = Some d.
Proof.
  intros HT Hfits. split; [|split].
  - by rewrite (CaseLabel_case_literal find st T (r, rs, body)).
  - unfold caseGuard. cbn [map].
    rewrite !writtenText_app, writtenText_rangeWrites.
    destruct (cs_firstCase st); cbn; by rewrite ?append_assoc.
  - intros d. apply scopeDepth_guard.
Qed.

Lemma Case_cases_literal find T cases : forall st,
  cs_type st = Some T -> Forall (caseFits T) cases ->
  Case_cases find (map literalCase cases) st
  = Ok (mkCase (Some T) (cs_firstCase st && bool_decide (cases = []))
          (cs_var st)
          (cs_out st ++ caseBlocks (cs_firstCase st) (cs_var st) cases)).
Proof.
  induction cases as [|c cases IH]; intros st HT Hfits.
  - cbn. rewrite app_nil_r, andb_true_r. destruct st; cbn in *; by subst.
  - apply Forall_cons in Hfits as [Hc Hfits].
    cbn [map Case_cases].
    rewrite (CaseLabel_case_literal find st T) by done. cbn [bind].
    rewrite IH by done.
    cbn [cs_type cs_firstCase cs_var cs_out caseBlocks andb].
    rewrite (bool_decide_eq_false_2 (c :: cases = [])) by discriminate.
    rewrite andb_false_r. by rewrite <- app_assoc.
Qed.

Lemma scopeDepth_caseBlocks var cases : forall first d,
  Forall (fun c : LiteralCase => balanced (snd c)) cases ->
  scopeDepth (caseBlocks first var cases) d = Some d.
Proof.
  induction cases as [|c cases IH]; intros first d Hbal; [reflexivity|].
  apply Forall_cons in Hbal as [Hbody Hbal]. cbn [caseBlocks].
  rewrite scopeDepth_app, scopeDepth_caseBlock by exact Hbody.
  by apply IH.
Qed.

(** X6.  A CASE statement over an integer or CHAR expression whose labels
    are literals that fit it, numbers or characters, keeps the output
    before it, stores the expression in its variable and appends one
    guarded block per case, in order, every case but the first after
    [else ]; the blocks are opened and closed in matched pairs whenever the
    bodies are.  An expression of any other type that is not a string
    literal fails. *)
Theorem Case_statement_blocks find var e T cases out :
  e_type e = Some T ->
  (isInt T = true \/ T = Basic ch ->
   Forall (caseFits T) cases ->
   Case_statement find var e (map literalCase cases) out
   = Ok (out ++ [Write ("var " +:+ var +:+ " = "); Write (e_code e);
                 Write (";" +:+ LF)] ++ caseBlocks true var cases)
   /\ (Forall (fun c : LiteralCase => balanced (snd c)) cases ->
       balanced (caseBlocks true var cases)))
  /\ (isInt T = false -> T <> Basic ch -> isStringLiteral T = false ->
      forall cases',
        Case_statement find var e cases' out
        = throw (intsDescription
                 +:+ " or 'CHAR' expected as CASE expression")).
Proof.
  intros He. split.
  - intros HT Hfits. split; [|by apply scopeDepth_caseBlocks].
    assert (Hlit : isStringLiteral T = false).
    { destruct HT as [HT | ->]; [|reflexivity].
      destruct T; try reflexivity. discriminate HT. }
    assert (Hexpr : negb (isInt T) && negb (bool_decide (T = Basic ch))
                    = false).
    { destruct HT as [-> | ->]; [reflexivity|].
      rewrite bool_decide_eq_true_2 by reflexivity. apply andb_false_r. }
    unfold Case_statement, Expression_endParse, Case_handleExpression.
    rewrite He, Hlit, Hexpr. cbn [bind].
    rewrite (Case_cases_literal find T) by done. cbn [bind].
    cbn. by rewrite <- !app_assoc.
  - intros Hint Hch Hlit cases'.
    unfold Case_statement, Expression_endParse, Case_handleExpression.
    rewrite He, Hlit, Hint. by rewrite bool_decide_eq_false_2.
Qed.

(** ** Arithmetic and logical operators *)

(** X7.  The operators [+] and [-] resolve alike: both to the integer
    operation for an integer operand, to the REAL one for REAL, to the set
    operation for SET, and for any other operand both fail with the same
    operator type mismatch, although [+] is matched by a table of its own
    and [-] through the shared numeric-or-set check. *)
Theorem AddOperator_plus_minus_agree t :
  match operandClass t with
  | IntegerOperand =>
      AddOperator_matchOperator "+" t = Ok (Some addInt)
      /\ AddOperator_matchOperator "-" t = Ok (Some subInt)
  | RealOperand =>
      AddOperator_matchOperator "+" t = Ok (Some addReal)
      /\ AddOperator_matchOperator "-" t = Ok (Some subReal)
  | SetOperand =>
      AddOperator_matchOperator "+" t = Ok (Some setUnion)
      /\ AddOperator_matchOperator "-" t = Ok (Some setDiff)
  | OtherOperand =>
      AddOperator_matchOperator "+" t
      = throw ("operator '+' type mismatch: numeric type or SET expected, got '"
               +:+ description t +:+ "'")
      /\ AddOperator_matchOperator "-" t
         = throw ("operator '-' type mismatch: numeric type or SET expected, got '"
                  +:+ description t +:+ "'")
  end.
Proof.
  destruct t as [[]| | | | | | | | |]; vm_compute; split; reflexivity.
Qed.

(** X8.  The multiplying operators: [/] refuses an integer operand with the
    hint to use DIV and otherwise resolves exactly for REAL and SET; DIV
    and MOD resolve exactly for integer operands, [*] exactly for numeric
    and SET operands, [&] exactly for BOOLEAN; none of them ever hands an
    undefined operation to the parent. *)
Theorem MulOperator_resolution t :
  (isInt t = true ->
   MulOperator_handleLiteral "/" t
   = throw "operator DIV expected for integer division")
  /\ isOk (MulOperator_handleLiteral "/" t)
     = bool_decide (t = Basic real) || bool_decide (t = Basic set_)
  /\ isOk (MulOperator_handleLiteral "DIV" t) = isInt t
  /\ isOk (MulOperator_handleLiteral "MOD" t) = isInt t
  /\ isOk (MulOperator_handleLiteral "*" t)
     = match operandClass t with OtherOperand => false | _ => true end
  /\ isOk (MulOperator_handleLiteral "&" t) = bool_decide (t = Basic bool_)
  /\ (forall s, s ∈ ["*"; "/"; "DIV"; "MOD"; "&"] ->
      MulOperator_handleLiteral s t <> Ok None).
Proof.
  split; [|split; [|split; [|split; [|split; [|split]]]]].
  - destruct t as [[]| | | | | | | | |]; try discriminate; reflexivity.
  - destruct t as [[]| | | | | | | | |]; vm_compute; reflexivity.
  - destruct t as [[]| | | | | | | | |]; vm_compute; reflexivity.
  - destruct t as [[]| | | | | | | | |]; vm_compute; reflexivity.
  - destruct t as [[]| | | | | | | | |]; vm_compute; reflexivity.
  - destruct t as [[]| | | | | | | | |]; vm_compute; reflexivity.
  - intros s Hs.
    assert (Hcases : s = "*" \/ s = "/" \/ s = "DIV" \/ s = "MOD"
                     \/ s = "&").
    { apply elem_of_cons in Hs as [Hs | Hs]; [by left|].
      apply elem_of_cons in Hs as [Hs | Hs]; [by right; left|].
      apply elem_of_cons in Hs as [Hs | Hs]; [by right; right; left|].
      apply elem_of_cons in Hs as [Hs | Hs];
        [by right; right; right; left|].
      apply elem_of_cons in Hs as [Hs | Hs];
        [by right; right; right; right|].
      by apply elem_of_nil in Hs. }
    destruct Hcases as [-> | [-> | [-> | [-> | ->]]]];
      destruct t as [[]| | | | | | | | |]; vm_compute; discriminate.
Qed.

(** X9.  The sign in front of a term: unary minus resolves for integer,
    REAL and SET operands, the latter to the set complement, and unary plus
    for integer and REAL operands only; a SET after unary plus fails with
    the mismatch that expects a numeric type. *)
Theorem SimpleExpression_unary_sign t :
  match operandClass t with
  | IntegerOperand =>
      SimpleExpression_unaryOperator "-" t = Ok (Some negateInt)
      /\ SimpleExpression_unaryOperator "+" t = Ok (Some unaryPlus)
  | RealOperand =>
      SimpleExpression_unaryOperator "-" t = Ok (Some negateReal)
      /\ SimpleExpression_unaryOperator "+" t = Ok (Some unaryPlus)
  | SetOperand =>
      SimpleExpression_unaryOperator "-" t = Ok (Some setComplement)
      /\ SimpleExpression_unaryOperator "+" t
         = throw ("operator '+' type mismatch: numeric type expected, got '"
                  +:+ description t +:+ "'")
  | OtherOperand =>
      SimpleExpression_unaryOperator "-" t
      = throw ("operator '-' type mismatch: numeric type or SET expected, got '"
               +:+ description t +:+ "'")
      /\ SimpleExpression_unaryOperator "+" t
         = throw ("operator '+' type mismatch: numeric type expected, got '"
                  +:+ description t +:+ "'")
  end.
Proof.
  destruct t as [[]| | | | | | | | |]; vm_compute; split; reflexivity.
Qed.

(** ** Imports *)

Lemma ModuleImport_item_pending item st :
  truthy (mi_currentAlias st) = false ->
  exists alias,
    ModuleImport_item item st
    = Ok (mkModuleImport (mi_import st) (Some (snd item)) alias)
    /\ (if truthy alias then alias else Some (snd item))
       = Some (itemAlias item).
Proof.
  intros Hfalsy. destruct item as [[alias|] module];
    unfold ModuleImport_item, ModuleImport_handleLiteral,
      ModuleImport_handleIdent, itemAlias; cbn [fst snd].
  - rewrite bool_decide_eq_true_2 by reflexivity. cbn.
    exists (Some alias). split; [reflexivity|].
    unfold truthy. destruct (bool_decide (alias = EmptyString)); reflexivity.
  - cbn. exists (mi_currentAlias st). rewrite Hfalsy. by split.
Qed.

Lemma ModuleImport_handleImport_pending entries module alias item :
  module <> EmptyString ->
  (if truthy alias then alias else Some module) = Some (itemAlias item) ->
  exists alias',
    truthy alias' = false
    /\ ModuleImport_handleImport (mkModuleImport entries (Some module) alias)
       = (ModuleImport_checkImport entries (Some (itemAlias item))
            (Some module) ;;;
          Ok (mkModuleImport (entries ++ [(itemAlias item, Some module)])
                (Some module) alias')).
Proof.
  intros Hmodule Halias. unfold ModuleImport_handleImport.
  cbn [mi_currentAlias mi_currentModule mi_import].
  destruct (truthy alias) eqn:Ht.
  - exists None. split; [reflexivity|]. by rewrite Halias.
  - exists alias. split; [exact Ht|]. by rewrite Halias.
Qed.

Lemma ModuleImport_items_importAll first rest st :
  truthy (mi_currentAlias st) = false ->
  Forall (fun item => snd item <> EmptyString) (first :: rest) ->
  (st' <-- ModuleImport_items first rest st ;;
   st' <-- (if truthy (mi_currentModule st')
            then ModuleImport_handleImport st' else Ok st') ;;
   Ok (mi_import st'))
  = importAll (mi_import st) (first :: rest).
Proof.
  revert first st. induction rest as [|item rest IH]; intros first st Hst Hne.
  - apply Forall_cons in Hne as [Hfirst _].
    cbn [ModuleImport_items importAll].
    destruct (ModuleImport_item_pending first st Hst)
      as (alias & -> & Halias).
    cbn [bind mi_currentModule].
    replace (truthy (Some (snd first))) with true
      by (cbn; by rewrite bool_decide_eq_false_2).
    destruct (ModuleImport_handleImport_pending (mi_import st) (snd first)
                alias first Hfirst Halias) as (alias' & _ & ->).
    by destruct (ModuleImport_checkImport _ _ _).
  - apply Forall_cons in Hne as [Hfirst Hne].
    cbn [ModuleImport_items].
    destruct (ModuleImport_item_pending first st Hst)
      as (alias & -> & Halias).
    cbn [bind]. unfold ModuleImport_handleLiteral at 1.
    rewrite bool_decide_eq_false_2 by discriminate.
    rewrite bool_decide_eq_true_2 by reflexivity.
    destruct (ModuleImport_handleImport_pending (mi_import st) (snd first)
                alias first Hfirst Halias) as (alias' & Hfalsy & ->).
    cbn [importAll].
    destruct (ModuleImport_checkImport _ _ _); [|reflexivity].
    cbn [bind].
    by rewrite (IH item (mkModuleImport _ _ alias') Hfalsy Hne).
Qed.

Lemma ModuleImport_checkImport_cases entries a m :
  ModuleImport_checkImport entries (Some a) (Some m) = Ok tt
  \/ ModuleImport_checkImport entries (Some a) (Some m)
     = throw ("duplicated alias: '" +:+ a +:+ "'")
  \/ ModuleImport_checkImport entries (Some a) (Some m)
     = throw ("module already imported: '" +:+ m +:+ "'").
Proof.
  induction entries as [|[a' m'] entries IH]; [by left|].
  cbn [ModuleImport_checkImport].
  case_bool_decide; [right; by left|].
  case_bool_decide; [right; by right|]. exact IH.
Qed.

Lemma ModuleImport_checkImport_Ok entries a m :
  ModuleImport_checkImport entries (Some a) (Some m) = Ok tt
  <-> (a ∉ entries.*1) /\ (Some m ∉ entries.*2).
Proof.
  induction entries as [|[a' m'] entries IH].
  - split; [intros _; split; apply not_elem_of_nil | done].
  - cbn [ModuleImport_checkImport fmap list_fmap fst snd].
    rewrite !not_elem_of_cons.
    case_bool_decide as Ha.
    + split; [discriminate|]. intros [[Hne _] _]. congruence.
    + case_bool_decide as Hm.
      * split; [discriminate|]. intros [_ [Hne _]]. congruence.
      * rewrite IH. split.
        -- intros [H1 H2]. repeat split; congruence.
        -- intros [[_ H1] [_ H2]]. by split.
Qed.

Lemma importAll_spec items : forall entries table,
  NoDup (entries.*1) -> NoDup (entries.*2) ->
  importAll entries items = Ok table
  <-> table
      = entries ++ ((fun item => (itemAlias item, Some (snd item))) <$> items)
      /\ NoDup (table.*1) /\ NoDup (table.*2).
Proof.
  induction items as [|item items IH]; intros entries table Hk Hv.
  - cbn [importAll fmap list_fmap]. rewrite app_nil_r. split.
    + intros [= <-]. by repeat split.
    + intros [-> _]. reflexivity.
  - cbn [importAll fmap list_fmap].
    pose proof (ModuleImport_checkImport_Ok entries (itemAlias item)
                  (snd item)) as Hcheck.
    destruct (ModuleImport_checkImport_cases entries (itemAlias item)
                (snd item)) as [Hok | Herr].
    + rewrite Hok. cbn [bind].
      apply Hcheck in Hok as [Ha Hm].
      rewrite IH.
      * by rewrite <- app_assoc.
      * rewrite fmap_app. apply NoDup_app. repeat split; [exact Hk| |].
        -- intros x Hx Hx'. apply list_elem_of_singleton in Hx'. by subst.
        -- apply NoDup_singleton.
      * rewrite fmap_app. apply NoDup_app. repeat split; [exact Hv| |].
        -- intros x Hx Hx'. apply list_elem_of_singleton in Hx'. by subst.
        -- apply NoDup_singleton.
    + assert (ModuleImport_checkImport entries (Some (itemAlias item))
                (Some (snd item)) <> Ok tt) as Hnot
        by (destruct Herr as [-> | ->]; discriminate).
      split.
      * destruct Herr as [-> | ->]; discriminate.
      * intros (-> & Hk' & Hv'). exfalso. apply Hnot, Hcheck.
        rewrite fmap_app in Hk'. rewrite fmap_app in Hv'.
        apply NoDup_app in Hk' as (_ & Hk' & _).
        apply NoDup_app in Hv' as (_ & Hv' & _).
        split; intros Hin.
        -- apply (Hk' _ Hin). cbn. left.
        -- apply (Hv' _ Hin). cbn. left.
Qed.

Lemma importAll_error items : forall entries e,
  importAll entries items = Err e ->
  exists item,
    item ∈ items
    /\ (e = CompileError ("duplicated alias: '" +:+ itemAlias item +:+ "'")
        \/ e = CompileError
                 ("module already imported: '" +:+ snd item +:+ "'")).
Proof.
  induction items as [|item items IH]; intros entries e; [discriminate|].
  cbn [importAll].
  destruct (ModuleImport_checkImport_cases entries (itemAlias item)
              (snd item)) as [-> | [-> | ->]]; cbn [bind].
  - intros H. destruct (IH _ _ H) as (item' & Hin & Hcases).
    exists item'. split; [by right | exact Hcases].
  - intros [= <-]. exists item. split; [left | by left].
  - intros [= <-]. exists item. split; [left | by right].
Qed.

(** X10.  The table of an import list [IMPORT item {, item}] over module
    names that are identifiers: the list is accepted exactly when the
    aliases its entries are bound to (the module name where no alias is
    given) are pairwise distinct and so are the modules; the table is then
    the entries in the order written.  Every other list fails with
    'duplicated alias' or 'module already imported' for one of its
    entries. *)
Theorem ModuleImport_table_distinct first rest :
  Forall (fun item => snd item <> EmptyString) (first :: rest) ->
  (forall table,
     ModuleImport_table first rest = Ok table
     <-> table
         = ((fun item => (itemAlias item, Some (snd item)))
              <$> first :: rest)
         /\ NoDup (itemAlias <$> first :: rest)
         /\ NoDup (snd <$> first :: rest))
  /\ (forall e,
        ModuleImport_table first rest = Err e ->
        exists item,
          item ∈ first :: rest
          /\ (e = CompileError
                    ("duplicated alias: '" +:+ itemAlias item +:+ "'")
              \/ e = CompileError
                       ("module already imported: '" +:+ snd item
                        +:+ "'"))).
Proof.
  intros Hne. unfold ModuleImport_table.
  rewrite (ModuleImport_items_importAll first rest ModuleImport_init
             eq_refl Hne).
  cbn [mi_import ModuleImport_init]. split.
  - intros table.
    rewrite (importAll_spec (first :: rest) [] table)
      by (cbn; apply NoDup_nil_2).
    rewrite app_nil_l. split.
    + intros (-> & Hk & Hv). split; [reflexivity|].
      rewrite <- list_fmap_compose in Hk, Hv.
      split; [exact Hk|].
      apply (NoDup_fmap_1 Some). by rewrite <- list_fmap_compose.
    + intros (-> & Hk & Hv). split; [reflexivity|].
      rewrite <- !list_fmap_compose. split; [exact Hk|].
      assert (Inj (=) (=) (@Some string)) as Hinj by (by intros ? ? [= ->]).
      apply (NoDup_fmap_2 Some) in Hv.
      by rewrite <- list_fmap_compose in Hv.
  - intros e. apply importAll_error.
Qed.

Lemma ModuleImport_resolve_self makeJS moduleResolver self entries :
  forall modules unresolved,
  self ∈ entries.*2 ->
  ModuleImport_resolve makeJS moduleResolver self entries modules unresolved
  = throw ("module '" +:+ js_str self +:+ "' cannot import itself").
Proof.
  induction entries as [|[alias name] entries IH]; intros modules unresolved.
  - intros H. by apply elem_of_nil in H.
  - cbn [fmap list_fmap snd]. intros Hin.
    cbn [ModuleImport_resolve]. unfold ModuleDeclaration_findModule.
    case_bool_decide as Hself; [reflexivity|].
    apply elem_of_cons in Hin as [Heq | Hin]; [congruence|].
    cbn [bind].
    destruct (Context_findModule _ _ _); by apply IH.
Qed.

Lemma ModuleImport_resolve_others makeJS moduleResolver self entries :
  forall modules unresolved,
  self ∉ entries.*2 ->
  ModuleImport_resolve makeJS moduleResolver self entries modules unresolved
  = Ok (modules ++ foundModules makeJS moduleResolver entries,
        unresolved
        ++ ((fun entry => default EmptyString (snd entry))
              <$> notFound makeJS moduleResolver entries)).
Proof.
  induction entries as [|[alias name] entries IH]; intros modules unresolved.
  - intros _. cbn. by rewrite !app_nil_r.
  - cbn [fmap list_fmap snd]. intros Hin.
    apply not_elem_of_cons in Hin as [Hne Hin].
    cbn [ModuleImport_resolve]. unfold ModuleDeclaration_findModule.
    rewrite bool_decide_eq_false_2 by congruence. cbn [bind].
    unfold foundModules, notFound. cbn [omap list_omap fst snd].
    rewrite filter_cons. cbn [snd].
    destruct (Context_findModule makeJS moduleResolver name) as [m|] eqn:Hm.
    + rewrite (IH _ _ Hin). cbn [fmap option_fmap option_map].
      rewrite decide_False by discriminate.
      by rewrite <- app_assoc.
    + rewrite (IH _ _ Hin). cbn [fmap option_fmap option_map].
      rewrite decide_True by reflexivity.
      cbn [fmap list_fmap snd]. by rewrite <- app_assoc.
Qed.

(** X11.  The end of an import list, over its table: a table that names the
    module being compiled fails with 'module ... cannot import itself',
    whatever else it holds; any other table with entries no module is found
    for fails with 'module(s) not found: ' followed by all their names in
    the order of the table, separated by ', '; and every other table gives
    the symbols alias |-> module in the order of the table.  The
    pseudo-module JS is found without any resolver. *)
Theorem ModuleImport_endParse_resolution makeJS moduleResolver self entries :
  (self ∈ entries.*2 ->
   ModuleImport_endParse makeJS moduleResolver self entries
   = throw ("module '" +:+ js_str self +:+ "' cannot import itself"))
  /\ (self ∉ entries.*2 ->
      notFound makeJS moduleResolver entries <> [] ->
      ModuleImport_endParse makeJS moduleResolver self entries
      = throw ("module(s) not found: "
               +:+ join ", "
                     ((fun entry => default EmptyString (snd entry))
                        <$> notFound makeJS moduleResolver entries)))
  /\ (self ∉ entries.*2 ->
      notFound makeJS moduleResolver entries = [] ->
      ModuleImport_endParse makeJS moduleResolver self entries
      = Ok (foundModules makeJS moduleResolver entries)
      /\ length (foundModules makeJS moduleResolver entries)
         = length entries)
  /\ (forall alias,
        self <> Some "JS" ->
        ModuleImport_endParse makeJS None self [(alias, Some "JS")]
        = Ok [mkSymbol alias makeJS]).
Proof.
  unfold ModuleImport_endParse. split; [|split; [|split]].
  - intros Hin. by rewrite ModuleImport_resolve_self.
  - intros Hin Hmissing. rewrite ModuleImport_resolve_others by exact Hin.
    cbn [bind fst snd app].
    rewrite bool_decide_eq_false_2; [reflexivity|].
    intros Hnil. apply fmap_nil_inv in Hnil. contradiction.
  - intros Hin Hnil. split.
    { rewrite ModuleImport_resolve_others by exact Hin.
      cbn [bind fst snd app]. rewrite Hnil. reflexivity. }
    clear Hin. revert Hnil. unfold notFound, foundModules.
    induction entries as [|entry entries IH]; [reflexivity|].
    rewrite filter_cons. cbn [omap list_omap].
    destruct (Context_findModule makeJS moduleResolver (snd entry)).
    + rewrite decide_False by discriminate. cbn. intros Hnil.
      by rewrite IH.
    + rewrite decide_True by reflexivity. discriminate.
  - intros alias Hself. cbn.
    unfold ModuleDeclaration_findModule, Context_findModule.
    rewrite bool_decide_eq_false_2 by congruence.
    by rewrite bool_decide_eq_true_2.
Qed.

Lemma ModuleDeclaration_imports_lookup modules : forall imports name,
  ModuleDeclaration_imports modules imports !! name
  = match last (filter (fun s => js_str (moduleNameOf s) = name) modules) with
    | Some s => Some (sym_id s)
    | None => imports !! name
    end.
Proof.
  unfold ModuleDeclaration_imports.
  induction modules as [|s modules IH]; intros imports name; [reflexivity|].
  cbn [fold_left]. rewrite IH, filter_cons.
  destruct (decide (js_str (moduleNameOf s) = name)) as [Heq | Hne].
  - destruct (filter _ modules) as [|s' l] eqn:Hl.
    + cbn. by rewrite <- Heq, lookup_insert_eq.
    + rewrite last_cons_cons.
      destruct (last (s' :: l)) eqn:Hlast; [reflexivity|].
      by apply last_None in Hlast.
  - destruct (last (filter _ modules)); [reflexivity|].
    by rewrite lookup_insert_ne.
Qed.

(** X12.  How a scope is qualified once the import list has been handed to
    the module declaration, for a module whose name is not a property every
    object has: the scope of the module itself and every scope that is not
    a module get no prefix; the scope of another module gets the alias of
    the last import of that module followed by a dot, and the text
    'module ... is not imported' when the import list does not hold it. *)
Theorem qualifyScope_after_handleImport modules scope :
  md_imports moduleDecl = ModuleDeclaration_imports modules ∅ ->
  (forall s, scope = Some (ModuleScope s) ->
             moduleId types s ∉ inheritedKeys) ->
  qualifyScope scope
  = match scope with
    | Some (ModuleScope s) =>
        if bool_decide (Some s = md_moduleScope moduleDecl) then EmptyString
        else
          match last (filter (fun sym => js_str (moduleNameOf sym)
                                         = moduleId types s) modules) with
          | Some sym => sym_id sym +:+ "."
          | None => "module '" +:+ moduleId types s +:+ "' is not imported"
          end
    | _ => EmptyString
    end.
Proof.
  intros Himports _. unfold qualifyScope.
  destruct scope as [[s|]|]; try reflexivity.
  case_bool_decide; [reflexivity|].
  rewrite Himports, ModuleDeclaration_imports_lookup.
  destruct (last _); [reflexivity|]. by rewrite lookup_empty.
Qed.

(** ** String literals *)

Lemma escapeLoop_app s : forall result,
  escapeLoop s result = result +:+ escapeLoop s EmptyString.
Proof.
  induction s as [|c s IH]; intros result; cbn [escapeLoop].
  - by rewrite append_empty_r.
  - rewrite IH. rewrite (IH (EmptyString +:+ _)). cbn.
    by rewrite append_assoc.
Qed.

Lemma escapeLoop_cons c s :
  escapeLoop (String c s) EmptyString
  = match escapeChars c with
    | Some escape => escape
    | None => String c EmptyString
    end +:+ escapeLoop s EmptyString.
Proof. cbn [escapeLoop]. by rewrite escapeLoop_app. Qed.

Lemma escapeChars_Some c escape :
  escapeChars c = Some escape ->
  exists x,
    escape = String backslash (String x EmptyString)
    /\ unescapeChar x = Some c.
Proof.
  unfold escapeChars. repeat case_bool_decide; intros [= <-]; subst;
    eexists; (split; [reflexivity|]); reflexivity.
Qed.

Lemma escapeChars_None c :
  escapeChars c = None ->
  c <> backslash /\ c <> quote /\ c <> charLF /\ c <> charCR.
Proof.
  unfold escapeChars. repeat case_bool_decide; try discriminate. done.
Qed.

Lemma unescape_escapeLoop s : forall fuel,
  String.length (escapeLoop s EmptyString) < fuel ->
  unescape fuel (escapeLoop s EmptyString) = Some s.
Proof.
  induction s as [|c s IH]; intros fuel Hfuel.
  - destruct fuel; [cbn in Hfuel; lia | reflexivity].
  - rewrite escapeLoop_cons in Hfuel |- *.
    destruct (escapeChars c) as [escape|] eqn:Hc.
    + destruct (escapeChars_Some _ _ Hc) as (x & -> & Hx).
      change (String backslash (String x EmptyString)
              +:+ escapeLoop s EmptyString)
        with (String backslash (String x (escapeLoop s EmptyString)))
        in Hfuel |- *.
      cbn [String.length] in Hfuel. destruct fuel as [|fuel]; [lia|].
      cbn [unescape].
      rewrite bool_decide_eq_true_2 by reflexivity.
      rewrite Hx, IH by lia. reflexivity.
    + destruct (escapeChars_None _ Hc) as (H1 & H2 & H3 & H4).
      change (String c EmptyString +:+ escapeLoop s EmptyString)
        with (String c (escapeLoop s EmptyString)) in Hfuel |- *.
      cbn [String.length] in Hfuel. destruct fuel as [|fuel]; [lia|].
      cbn [unescape].
      rewrite !bool_decide_eq_false_2 by assumption.
      cbn [orb]. rewrite IH by lia. reflexivity.
Qed.

Lemma escapeString_body s :
  escapeString s
  = String quote (escapeLoop s EmptyString +:+ String quote EmptyString).
Proof. unfold escapeString. by rewrite escapeLoop_app. Qed.

Lemma length_append (a b : string) :
  String.length (a +:+ b) = String.length a + String.length b.
Proof.
  induction a as [|x a IH]; [reflexivity|].
  change (S (String.length (a +:+ b))
          = S (String.length a + String.length b)).
  by rewrite IH.
Qed.

Lemma append_inj_r (a b c : string) : a +:+ c = b +:+ c -> a = b.
Proof.
  intros H.
  assert (Hlen : String.length a = String.length b).
  { apply (f_equal String.length) in H.
    rewrite !length_append in H. lia. }
  revert b H Hlen. induction a as [|x a IH]; intros [|y b] H Hlen;
    try discriminate; [reflexivity|].
  cbn in H, Hlen. injection H as -> H. f_equal. apply IH; [exact H | lia].
Qed.

(** X13.  The literal [escapeString] writes for a string is a quote, a
    body and a quote; read back as a JavaScript string literal the body
    gives the string again, it holds no bare quote and no line terminator,
    and two different strings never get the same literal. *)
Theorem escapeString_round_trip s :
  escapeString s
  = String quote (escapeLoop s EmptyString +:+ String quote EmptyString)
  /\ unescape (S (String.length (escapeLoop s EmptyString)))
       (escapeLoop s EmptyString) = Some s
  /\ forall s', escapeString s' = escapeString s -> s' = s.
Proof.
  split; [apply escapeString_body|]. split.
  - apply unescape_escapeLoop. lia.
  - intros s'. rewrite !escapeString_body. intros [= H].
    apply append_inj_r in H.
    pose proof (unescape_escapeLoop s'
                  (S (String.length (escapeLoop s' EmptyString)))) as H1.
    pose proof (unescape_escapeLoop s
                  (S (String.length (escapeLoop s EmptyString)))) as H2.
    rewrite H in H1. rewrite H1 in H2 by lia.
    specialize (H2 ltac:(lia)). congruence.
Qed.

(** ** Fields and base types of records *)

Lemma isTypeRecursive_holds rank base :
  ranked rank ->
  forall fuel t,
    S (height rank t) < fuel ->
    exists b,
      isTypeRecursive fuel (Some t) base = Ok b
      /\ (b = true <-> holds base t).
Proof.
  intros Hranked. induction fuel as [|fuel IH]; intros t Hfuel; [lia|].
  cbn [isTypeRecursive]. case_bool_decide as Hself.
  { injection Hself as ->. exists true. split; [reflexivity|].
    split; [intros _; constructor | reflexivity]. }
  destruct t as [| | | init e n | e | r | | | |];
    try (exists false; split; [reflexivity|];
         split; [discriminate | inversion 1]).
  - cbn [height] in Hfuel.
    destruct (IH e ltac:(lia)) as (b & -> & Hb). exists b.
    split; [reflexivity|]. rewrite Hb. split; [by constructor|].
    by inversion 1.
  - cbn [height] in Hfuel.
    destruct (IH e ltac:(lia)) as (b & -> & Hb). exists b.
    split; [reflexivity|]. rewrite Hb. split; [by constructor|].
    by inversion 1.
  - cbn [height] in Hfuel. destruct (Hranked r) as [Hbase Hfields].
    assert (Hb : exists b,
               isTypeRecursive fuel (Record_ <$> recordBase types r) base
               = Ok b
               /\ (b = true
                   <-> exists r', recordBase types r = Some r'
                                  /\ holds base (Record_ r'))).
    { destruct (recordBase types r) as [r'|] eqn:Hr'.
      - specialize (Hbase r' eq_refl).
        destruct (IH (Record_ r') ltac:(cbn; lia)) as (b & Hb & Hiff).
        exists b. split; [exact Hb|]. rewrite Hiff. split.
        + intros H. by exists r'.
        + by intros (? & [= <-] & H).
      - exists false. split.
        + destruct fuel; [lia | reflexivity].
        + split; [discriminate | by intros (? & ? & _)]. }
    destruct Hb as (b & -> & Hb). cbn [bind].
    destruct b.
    { exists true. split; [reflexivity|]. split; [|reflexivity].
      intros _. destruct (proj1 Hb eq_refl) as (r' & Hr' & Hholds).
      by apply (holds_base _ _ r'). }
    assert (Hloop : forall fields,
               (forall f t, (f, t) ∈ fields -> S (height rank t) < fuel) ->
               exists b,
                 anyFieldRecursive
                   (fun t => isTypeRecursive fuel (Some t) base) fields
                 = Ok b
                 /\ (b = true
                     <-> exists f t, (f, t) ∈ fields /\ holds base t)).
    { induction fields as [|[f t] fields IHf]; intros Hlt.
      - exists false. split; [reflexivity|].
        split; [discriminate|]. intros (? & ? & H & _).
        by apply elem_of_nil in H.
      - cbn [anyFieldRecursive snd].
        destruct (IH t (Hlt f t ltac:(left))) as (b & -> & Hbt).
        cbn [bind]. destruct b.
        + exists true. split; [reflexivity|]. split; [|reflexivity].
          intros _. exists f, t. split; [left | by apply Hbt].
        + destruct IHf as (b & -> & Hbf).
          { intros f' t' Hin. apply (Hlt f' t'). by right. }
          exists b. split; [reflexivity|]. rewrite Hbf. split.
          * intros (f' & t' & Hin & Hh). exists f', t'.
            split; [by right | exact Hh].
          * intros (f' & t' & Hin & Hh).
            apply elem_of_cons in Hin as [[= -> ->] | Hin].
            -- apply Hbt in Hh. discriminate.
            -- by exists f', t'. }
    destruct (Hloop (recordOwnFields types r)) as (b & -> & Hbf).
    { intros f t Hin. specialize (Hfields f t Hin). lia. }
    exists b. split; [reflexivity|]. rewrite Hbf. split.
    + intros (f & t & Hin & Hh). by apply (holds_field _ _ f t).
    + inversion 1 as [Heq | r0 r' Hr' Hh | r0 f t Hin Hh | |]; subst.
      * congruence.
      * assert (false = true) by (apply Hb; by exists r'). discriminate.
      * by exists f, t.
Qed.

Lemma isTypeRecursive_true rank base fuel t :
  ranked rank -> S (height rank t) < fuel -> holds base t ->
  isTypeRecursive fuel (Some t) base = Ok true.
Proof.
  intros Hranked Hfuel Hholds.
  destruct (isTypeRecursive_holds rank base Hranked fuel t Hfuel)
    as (b & -> & Hb).
  f_equal. by apply Hb.
Qed.

Lemma isTypeRecursive_false rank base fuel t :
  ranked rank -> S (height rank t) < fuel -> ~ holds base t ->
  isTypeRecursive fuel (Some t) base = Ok false.
Proof.
  intros Hranked Hfuel Hholds.
  destruct (isTypeRecursive_holds rank base Hranked fuel t Hfuel)
    as (b & -> & Hb).
  f_equal. destruct b; [|reflexivity]. exfalso. by apply Hholds, Hb.
Qed.

(** X14.  Over a store whose records are ranked (bases and field types lie
    below the record they belong to), [isTypeRecursive] returns, and it
    returns true exactly when the type holds the record: the type is the
    record itself, an array of such a type, or a record that has such a
    base or such a field.  A pointer never holds anything. *)
Theorem isTypeRecursive_decides rank base fuel t :
  ranked rank ->
  S (height rank t) < fuel ->
  (holds base t -> isTypeRecursive fuel (Some t) base = Ok true)
  /\ (~ holds base t -> isTypeRecursive fuel (Some t) base = Ok false)
  /\ (forall p, t = Pointer p -> ~ holds base t).
Proof.
  intros Hranked Hfuel. split; [|split].
  - by apply (isTypeRecursive_true rank).
  - by apply (isTypeRecursive_false rank).
  - intros p ->. inversion 1.
Qed.

(** X15.  Adding a field to the record that is being declared, over a
    ranked store: a field whose type holds the record (the record itself, an
    array of it, a record with it inside) is rejected as a recursive field
    definition before the type sees it; any other field, in particular a
    pointer, even one to the record itself, is added to the type, and only
    when it carries the export mark is the enclosing declaration asked
    whether it may be exported. *)
Theorem RecordDecl_addField_recursion rank fuel typeAddField parent rd
    field type :
  ranked rank ->
  S (height rank type) < fuel ->
  (holds (rd_type rd) type ->
   RecordDecl_addField fuel typeAddField parent rd field type
   = throw ("recursive field definition: '" +:+ id_id field +:+ "'"))
  /\ (~ holds (rd_type rd) type ->
      RecordDecl_addField fuel typeAddField parent rd field type
      = (typeAddField (rd_type rd) field type ;;;
         if id_exported field then exportField parent (id_id field)
         else Ok tt))
  /\ (forall p, type = Pointer p -> ~ holds (rd_type rd) type).
Proof.
  intros Hranked Hfuel. unfold RecordDecl_addField. split; [|split].
  - intros Hholds.
    by rewrite (isTypeRecursive_true rank _ _ _ Hranked Hfuel Hholds).
  - intros Hholds.
    by rewrite (isTypeRecursive_false rank _ _ _ Hranked Hfuel Hholds).
  - intros p ->. inversion 1.
Qed.

(** X16.  Setting the base of the record that is being declared, over a
    ranked store: a type that is not a record is rejected with 'RECORD type
    is expected as a base type'; a record that holds the declared record,
    the record itself or one of its extensions among them, is rejected as
    recursive inheritance; every other record becomes the base. *)
Theorem RecordDecl_setBaseType_recursion rank fuel typeSetBase rd type :
  ranked rank ->
  S (height rank type) < fuel ->
  (isRecord type = false ->
   RecordDecl_setBaseType fuel typeSetBase rd type
   = throw ("RECORD type is expected as a base type, got '"
            +:+ description type +:+ "'"))
  /\ (isRecord type = true -> holds (rd_type rd) type ->
      RecordDecl_setBaseType fuel typeSetBase rd type
      = throw ("recursive inheritance: '"
               +:+ typeName (Record_ (rd_type rd)) +:+ "'"))
  /\ (forall r, type = Record_ r -> extends r (rd_type rd) ->
      holds (rd_type rd) type)
  /\ (isRecord type = true -> ~ holds (rd_type rd) type ->
      RecordDecl_setBaseType fuel typeSetBase rd type
      = typeSetBase (rd_type rd) type).
Proof.
  intros Hranked Hfuel. unfold RecordDecl_setBaseType.
  split; [|split; [|split]].
  - by intros ->.
  - intros -> Hholds. cbn [negb].
    by rewrite (isTypeRecursive_true rank _ _ _ Hranked Hfuel Hholds).
  - intros r -> Hext. clear Hfuel.
    induction Hext.
    + eapply holds_base; [eassumption | constructor].
    + eapply holds_base; eassumption.
  - intros -> Hholds. cbn [negb].
    by rewrite (isTypeRecursive_false rank _ _ _ Hranked Hfuel Hholds).
Qed.

Lemma checkIfFieldCanBeExported_first name hint idents :
  match filter (fun id => id_exported id = false) idents with
  | [] => checkIfFieldCanBeExported name idents hint = Ok tt
  | id :: _ =>
      checkIfFieldCanBeExported name idents hint
      = throw ("field '" +:+ name +:+ "' can be exported only if " +:+ hint
               +:+ " '" +:+ id_id id +:+ "' itself is exported too")
  end.
Proof.
  induction idents as [|id idents IH]; [reflexivity|].
  rewrite filter_cons. cbn [checkIfFieldCanBeExported].
  destruct (id_exported id) eqn:Hid.
  - rewrite decide_False by discriminate. exact IH.
  - rewrite decide_True by reflexivity. reflexivity.
Qed.

(** X17.  Whether a field of a record may carry the export mark: the
    enclosing declaration accepts it exactly when every name it declares
    (the type name of a TYPE declaration, the variables of a VAR
    declaration, the fields of an enclosing field list) is exported itself;
    otherwise the error names the first name that is not.  A record under a
    POINTER TO never may export a field. *)
Theorem exportField_enclosing parent name :
  let idents := match parent with
                | InTypeDeclaration id => [id]
                | InVariableDeclaration idents
                | InFieldListDeclaration idents => idents
                | InPointerDecl => []
                end in
  let hint := match parent with
              | InTypeDeclaration _ => "record"
              | InVariableDeclaration _ => "variable"
              | _ => "field"
              end in
  (exportField parent name = Ok tt
   <-> parent <> InPointerDecl
       /\ Forall (fun id => id_exported id = true) idents)
  /\ (forall id rest,
        filter (fun id => id_exported id = false) idents = id :: rest ->
        exportField parent name
        = throw ("field '" +:+ name +:+ "' can be exported only if "
                 +:+ hint +:+ " '" +:+ id_id id
                 +:+ "' itself is exported too")).
Proof.
  assert (Hall : forall idents hint,
             checkIfFieldCanBeExported name idents hint = Ok tt
             <-> Forall (fun id => id_exported id = true) idents).
  { intros idents hint.
    pose proof (checkIfFieldCanBeExported_first name hint idents) as H.
    destruct (filter _ idents) as [|id rest] eqn:Hf.
    - split; [intros _ | by intros _].
      apply Forall_forall. intros id Hin.
      destruct (id_exported id) eqn:Hid; [reflexivity|].
      assert (id ∈ filter (fun id => id_exported id = false) idents)
        as Hin' by (by apply list_elem_of_filter).
      rewrite Hf in Hin'. by apply elem_of_nil in Hin'.
    - rewrite H. split; [discriminate|]. intros Hforall.
      assert (id ∈ filter (fun id => id_exported id = false) idents)
        as Hin by (rewrite Hf; left).
      apply list_elem_of_filter in Hin as [Hid Hin].
      rewrite Forall_forall in Hforall. specialize (Hforall _ Hin).
      congruence. }
  assert (Hfirst : forall idents hint id rest,
             filter (fun id => id_exported id = false) idents = id :: rest ->
             checkIfFieldCanBeExported name idents hint
             = throw ("field '" +:+ name +:+ "' can be exported only if "
                      +:+ hint +:+ " '" +:+ id_id id
                      +:+ "' itself is exported too")).
  { intros idents hint id rest Hf.
    pose proof (checkIfFieldCanBeExported_first name hint idents) as H.
    by rewrite Hf in H. }
  destruct parent as [id | idents | idents |]; cbn zeta; unfold exportField.
  - split; [|apply Hfirst]. rewrite Hall. split; [by split | by intros [_ H]].
  - split; [|apply Hfirst]. rewrite Hall. split; [by split | by intros [_ H]].
  - split; [|apply Hfirst]. rewrite Hall. split; [by split | by intros [_ H]].
  - split; [|intros id rest; by rewrite filter_nil].
    split; [discriminate | by intros [H _]].
Qed.

(** ** Arrays *)

Lemma ArrayDimensions_handleExpression_Ok e dimensions dimensions' :
  ArrayDimensions_handleExpression e dimensions = Ok dimensions'
  <-> exists n,
        integerConstant e = Some n /\ (0 < n)%Z
        /\ dimensions' = dimensions ++ [n].
Proof.
  unfold ArrayDimensions_handleExpression, integerConstant.
  destruct (e_type e) as [type|].
  2: { split; [discriminate | by intros (? & ? & _)]. }
  case_bool_decide as Htype; cbn [negb].
  - subst type. destruct (e_constValue e) as [v|].
    2: { split; [discriminate | by intros (? & ? & _)]. }
    destruct (Z.leb_spec (value v) 0).
    + split; [discriminate|]. intros (n & [= <-] & Hn & _). lia.
    + split.
      * intros [= <-]. exists (value v). by repeat split.
      * by intros (n & [= <-] & _ & ->).
  - split; [discriminate|]. intros (n & Hn & _).
    destruct type as [[]| | | | | | | | |]; congruence.
Qed.

Lemma ArrayDimensions_expressions_Ok es : forall dimensions dimensions',
  ArrayDimensions_expressions es dimensions = Ok dimensions'
  <-> exists ns,
        integerConstant <$> es = Some <$> ns
        /\ Forall (fun n => 0 < n)%Z ns
        /\ dimensions' = dimensions ++ ns.
Proof.
  induction es as [|e es IH]; intros dimensions dimensions'.
  - cbn. split.
    + intros [= <-]. exists []. by rewrite app_nil_r.
    + intros (ns & Hns & _ & ->). symmetry in Hns.
      apply fmap_nil_inv in Hns as ->. by rewrite app_nil_r.
  - cbn [ArrayDimensions_expressions fmap list_fmap]. split.
    + destruct (ArrayDimensions_handleExpression e dimensions)
        as [dimensions1|] eqn:He; [|discriminate].
      apply ArrayDimensions_handleExpression_Ok in He
        as (n & Hn & Hpos & ->).
      cbn [bind]. rewrite IH. intros (ns & Hns & Hall & ->).
      exists (n :: ns). cbn [fmap list_fmap]. rewrite Hn, Hns.
      split; [reflexivity|]. split; [by constructor|].
      by rewrite <- app_assoc.
    + intros ([|n ns] & Hns & Hall & ->); [discriminate|].
      cbn [fmap list_fmap] in Hns. injection Hns as Hn Hns.
      apply Forall_cons in Hall as [Hpos Hall].
      assert (ArrayDimensions_handleExpression e dimensions
              = Ok (dimensions ++ [n])) as ->
        by (apply ArrayDimensions_handleExpression_Ok; by exists n).
      cbn [bind]. apply IH. exists ns. by rewrite <- app_assoc.
Qed.

(** X18.  The dimensions of an array type: the list of expressions is
    accepted exactly when each of them is an INTEGER expression with a
    constant greater than 0, and the dimensions are then these constants in
    the order written. *)
Theorem ArrayDimensions_positive_constants es dimensions :
  ArrayDimensions_expressions es [] = Ok dimensions
  <-> integerConstant <$> es = Some <$> dimensions
      /\ Forall (fun n => 0 < n)%Z dimensions.
Proof.
  rewrite ArrayDimensions_expressions_Ok. split.
  - by intros (ns & Hns & Hall & ->).
  - intros [Hns Hall]. by exists dimensions.
Qed.

Lemma pretty_N_go_nonempty (x : N) : forall s,
  s <> EmptyString -> pretty_N_go x s <> EmptyString.
Proof.
  induction (N.lt_wf_0 x) as [x _ IH]; intros s Hs.
  destruct (decide (0 < x)%N) as [Hpos|Hzero].
  - rewrite pretty_N_go_step by exact Hpos.
    apply IH; [apply N.div_lt; lia | discriminate].
  - assert (x = 0%N) as -> by lia. by rewrite pretty_N_go_0.
Qed.

Lemma pretty_N_nonempty (x : N) : pretty x <> EmptyString.
Proof.
  unfold pretty, pretty_N. case_decide; [discriminate|].
  rewrite pretty_N_go_step by lia. by apply pretty_N_go_nonempty.
Qed.

Lemma pretty_Z_nonempty (z : Z) : pretty z <> EmptyString.
Proof.
  destruct z; [discriminate | apply pretty_N_nonempty | discriminate].
Qed.

Lemma ArrayDecl_loop_dimensions makeCharArray makeArray makeType
    elementsType dims : forall i,
  snd (ArrayDecl_loop makeCharArray makeArray makeType elementsType i dims)
  = join ", " (pretty <$> dims).
Proof.
  induction dims as [|d dims IH]; intros i; [reflexivity|].
  cbn [ArrayDecl_loop]. specialize (IH (S i)).
  destruct (ArrayDecl_loop _ _ _ _ (S i) dims) as [type dimensions].
  cbn [snd] in IH |- *. subst dimensions.
  destruct dims as [|d' dims]; [by rewrite append_empty_r|].
  cbn [fmap list_fmap join]. cbn [fmap list_fmap join] in *.
  replace (truthy _) with true; [reflexivity|].
  symmetry. cbn [truthy]. rewrite bool_decide_eq_false_2; [reflexivity|].
  destruct dims; [apply pretty_Z_nonempty|].
  apply append_nonempty_l, pretty_Z_nonempty.
Qed.

Lemma ArrayDecl_loop_inner makeCharArray makeArray makeType elementsType
    dims : forall i,
  fst (ArrayDecl_loop makeCharArray makeArray makeType elementsType (S i)
         dims)
  = foldr (fun d t => makeType t None d) elementsType dims.
Proof.
  induction dims as [|d dims IH]; intros i; [reflexivity|].
  cbn [ArrayDecl_loop foldr]. specialize (IH (S i)).
  destruct (ArrayDecl_loop _ _ _ _ (S (S i)) dims) as [type dimensions].
  cbn [fst] in IH |- *. by subst type.
Qed.

(** X19.  The type of [ARRAY d {, d'} OF T] for dimensions that are exact
    integers: static arrays nested in the order of the dimensions with [T]
    innermost, of which only the outermost carries initialization code;
    that code names all the dimensions in decimal, separated by ', ', and
    the initializer of [T], which is wrapped in a function when [T] is an
    array or a record and replaced by the character array template when [T]
    is CHAR. *)
Theorem ArrayDecl_setType_nesting makeCharArray makeArray makeType d dims
    elementsType :
  Forall exactInteger (d :: dims) ->
  let dimensions := join ", " (pretty <$> d :: dims) in
  ArrayDecl_setType makeCharArray makeArray makeType (d :: dims) elementsType
  = makeType
      (foldr (fun d t => makeType t None d) elementsType dims)
      (Some (if bool_decide (elementsType = Basic ch) then
               makeCharArray dimensions
             else if isArray elementsType || isRecord elementsType then
               makeArray (dimensions +:+ ", function(){return "
                          +:+ initializer elementsType +:+ ";}")
             else
               makeArray (dimensions +:+ ", "
                          +:+ initializer elementsType)))
      d.
Proof.
  intros _. cbv zeta. unfold ArrayDecl_setType.
  pose proof (ArrayDecl_loop_dimensions makeCharArray makeArray makeType
                elementsType (d :: dims) 0) as Hdims.
  pose proof (ArrayDecl_loop_inner makeCharArray makeArray makeType
                elementsType dims 0) as Hinner.
  cbn [ArrayDecl_loop] in Hdims |- *.
  destruct (ArrayDecl_loop _ _ _ _ 1 dims) as [type dimensions].
  cbn [fst snd] in Hdims, Hinner |- *. rewrite Hdims, Hinner.
  unfold ArrayDecl_makeInit.
  case_bool_decide; [reflexivity|].
  by destruct (isArray elementsType || isRecord elementsType).
Qed.

(** ** Procedure declarations *)










(** X21.  The RETURN of a procedure, from the end of its heading to the end
    of its declaration.  A procedure declared without result type must
    have no RETURN and one declared with a result type must have one, of a
    type that casts to the result type; each violation has its own error.
    A procedure that obeys this and is closed under its own name writes its
    body, the return statement if any, and closes the block the heading
    opened; under another name it fails with 'mismatched procedure
    names'. *)
Theorem ProcDecl_body_return castClone body ret closing st :
  pd_returnParsed st = false ->
  (pd_result st = None -> ret <> None ->
   ProcDecl_body castClone body ret closing st
   = throw "unexpected RETURN in PROCEDURE declared with no result type")
  /\ (forall result type e,
        pd_result st = Some result -> ret = Some e ->
        e_type e = Some type -> implicitCastFails type result = true ->
        ProcDecl_body castClone body ret closing st
        = throw ("RETURN '" +:+ description result +:+ "' expected, got '"
                 +:+ description type +:+ "'"))
  /\ (forall result,
        pd_result st = Some result -> ret = None ->
        closing = id_id (pd_id st) ->
        ProcDecl_body castClone body ret closing st
        = throw ("RETURN expected at the end of PROCEDURE declared with '"
                 +:+ typeName result +:+ "' result type"))
  /\ (forall g,
        returnWrites castClone (pd_result st) ret = Some g ->
        (closing = id_id (pd_id st) ->
         ProcDecl_body castClone body ret closing st
         = Ok (pd_out st ++ body ++ g ++ [CloseScope EmptyString])
         /\ forall d,
              scopeDepth (pd_out st) 0 = Some (S d) -> balanced body ->
              scopeDepth (pd_out st ++ body ++ g ++ [CloseScope EmptyString])
                0 = Some d)
        /\ (closing <> id_id (pd_id st) ->
            ProcDecl_body castClone body ret closing st
            = throw ("mismatched procedure names: '" +:+ id_id (pd_id st)
                     +:+ "' at the begining and '" +:+ closing
                     +:+ "' at the end"))).
Proof.
  intros Hparsed. unfold ProcDecl_body, ProcDecl_handleReturn.
  cbn [pd_id pd_scope pd_firstArgument pd_out pd_arguments pd_result
       pd_returnParsed pd_outerScope].
  split; [|split; [|split]].
  - intros -> Hret. by destruct ret.
  - intros result type e -> -> -> ->. reflexivity.
  - intros result -> -> ->. cbn [bind]. unfold ProcDecl_handleIdent.
    cbn [pd_id]. rewrite bool_decide_eq_true_2 by reflexivity.
    cbn [negb bind]. unfold ProcDecl_endParse.
    cbn [pd_result pd_returnParsed]. by rewrite Hparsed.
  - intros g Hg. unfold returnWrites in Hg.
    assert (Hdepth : forall d,
               scopeDepth (pd_out st) 0 = Some (S d) -> balanced body ->
               (forall k, scopeDepth g k = Some k) ->
               scopeDepth (pd_out st ++ body ++ g ++ [CloseScope EmptyString])
                 0 = Some d).
    { intros d Hout Hbody Hwrites.
      rewrite scopeDepth_app, Hout. cbn [mbind option_bind].
      rewrite scopeDepth_app, (balanced_at body _ Hbody).
      cbn [mbind option_bind].
      by rewrite scopeDepth_app, Hwrites. }
    destruct (pd_result st) as [result|] eqn:Hresult.
    + destruct ret as [e|]; [|discriminate].
      destruct (e_type e) as [type|]; [|discriminate].
      destruct (implicitCastFails type result); [discriminate|].
      injection Hg as <-. cbn [bind]. unfold ProcDecl_handleIdent.
      cbn [pd_id]. split.
      * intros ->. rewrite bool_decide_eq_true_2 by reflexivity.
        cbn [negb bind]. unfold ProcDecl_endParse.
        cbn [pd_result pd_returnParsed pd_out negb].
        split; [by rewrite <- !app_assoc|].
        intros d Hout Hbody. by apply Hdepth.
      * intros Hne. by rewrite bool_decide_eq_false_2 by congruence.
    + destruct ret as [e|]; [discriminate|].
      injection Hg as <-. cbn [bind]. unfold ProcDecl_handleIdent.
      cbn [pd_id]. split.
      * intros ->. rewrite bool_decide_eq_true_2 by reflexivity.
        cbn [negb bind]. unfold ProcDecl_endParse.
        cbn [pd_result pd_returnParsed pd_out negb]. rewrite ?Hresult.
        split; [by rewrite <- !app_assoc|].
        intros d Hout Hbody. by apply Hdepth.
      * intros Hne. by rewrite bool_decide_eq_false_2 by congruence.
Qed.

(** ** Pointer declarations *)

Lemma handleForwardTypeMsg_chained before chain id sc :
  Forall (fun h => h = ChainedHandler) before ->
  handleForwardTypeMsg (before ++ chain) id sc
  = handleForwardTypeMsg chain id sc.
Proof.
  induction 1 as [|h before -> _ IH]; [reflexivity | exact IH].
Qed.

(** X22.  The base of [POINTER TO q].  A name that is declared must be a
    type name, and its type a record: the pointer is then based on it and
    the scope is left alone.  A name that is not declared is a forward
    reference only when it is unqualified and the nearest context above
    that handles the message is a type section: the pointer is based on a
    forward identifier, the name is outstanding in the scope, and the type
    section cannot end before it is declared.  Under a variable declaration
    the name 'was not declared', and a qualified name must be exported by
    its module. *)
Theorem PointerDecl_base find chain (anonymous : bool) genTypeName q sc :
  let name := if anonymous then EmptyString else genTypeName in
  let run := PointerDecl_handleQIdent find chain anonymous genTypeName q sc in
  (forall s,
     find (q_module q) (q_id q) = Some s ->
     match sym_info (found_symbol s) with
     | TypeId type | LazyTypeId (Some type) =>
         if isRecord type then run = Ok (name, TypeIdOf (Some type), sc)
         else run = throw ("RECORD is expected as a POINTER base type, got '"
                           +:+ description type +:+ "'")
     | LazyTypeId None => run = Err JsTypeError
     | _ => run = throw "type name expected"
     end)
  /\ (forall m,
        q_module q = Some m -> find (Some m) (q_id q) = None ->
        run = throw ("identifier '" +:+ q_id q
                     +:+ "' is not exported by module '" +:+ m +:+ "'"))
  /\ (forall before after,
        q_module q = None -> find None (q_id q) = None ->
        Forall (fun h => h = ChainedHandler) before ->
        (chain = before ++ TypeSectionHandler :: after ->
         run = Ok (name, ForwardTypeId (q_id q),
                   TypeSection_handleForwardType (q_id q) sc)
         /\ q_id q ∈ sc_unresolved
                       (TypeSection_handleForwardType (q_id q) sc)
         /\ TypeSection_endParse
              (TypeSection_handleForwardType (q_id q) sc) <> Ok tt)
        /\ (chain = before ++ VariableDeclarationHandler :: after ->
            run = throw ("type '" +:+ q_id q +:+ "' was not declared"))).
Proof.
  cbv zeta. unfold PointerDecl_handleQIdent. split; [|split].
  - intros s Hs. unfold getQIdSymbolAndScope, getSymbolAndScope.
    destruct (q_module q) as [m|]; rewrite Hs; cbn [bind];
      unfold unwrapTypeIdInfo, PointerDecl_setTypeId;
      (destruct (sym_info (found_symbol s)) as [| | |type|[type|]|];
       try reflexivity; cbn [bind fst snd];
       by destruct (isRecord type)).
  - intros m Hm Hnone.
    unfold getQIdSymbolAndScope, getSymbolAndScope. by rewrite Hm, Hnone.
  - intros before after Hm Hnone Hbefore. rewrite Hm, Hnone. cbn [bind].
    split.
    + intros ->. rewrite handleForwardTypeMsg_chained by exact Hbefore.
      cbn [handleForwardTypeMsg bind fst snd PointerDecl_setTypeId].
      split; [reflexivity|].
      assert (Hin : q_id q ∈ sc_unresolved
                               (TypeSection_handleForwardType (q_id q) sc)).
      { unfold TypeSection_handleForwardType, Scope_addUnresolved.
        case_bool_decide as Hin; [exact Hin|].
        cbn [sc_unresolved]. apply elem_of_app. right. left. }
      split; [exact Hin|].
      unfold TypeSection_endParse, Scope_unresolved.
      case_bool_decide as Hnil; [|discriminate].
      rewrite Hnil in Hin. by apply elem_of_nil in Hin.
    + intros ->. by rewrite handleForwardTypeMsg_chained by exact Hbefore.
Qed.

(** ** Designators: index lists and dereference *)

(** X23.  An index list is a sequence of single indexes: what the comma of
    [a[i, j]] does to a designator is what the closing bracket followed by
    an opening bracket of [a[i][j]] does, errors included. *)
Theorem Designator_index_list_is_nested ds :
  Designator_handleLiteral "," ds
  = (ds' <-- Designator_handleLiteral "]" ds ;;
     Designator_handleLiteral "[" ds').
Proof.
  unfold Designator_handleLiteral.
  rewrite !(bool_decide_eq_true_2 ("," = ",")) by reflexivity.
  rewrite !(bool_decide_eq_true_2 ("]" = "]")) by reflexivity.
  rewrite !(bool_decide_eq_true_2 ("[" = "[")) by reflexivity.
  rewrite !(bool_decide_eq_false_2 ("," = "]")) by discriminate.
  rewrite !(bool_decide_eq_false_2 ("]" = ",")) by discriminate.
  rewrite !(bool_decide_eq_false_2 ("]" = "[")) by discriminate.
  rewrite !(bool_decide_eq_false_2 ("[" = "]")) by discriminate.
  rewrite !(bool_decide_eq_false_2 ("[" = ",")) by discriminate.
  rewrite !(bool_decide_eq_false_2 ("]" = "^")) by discriminate.
  cbn [orb].
  destruct (Designator_handleIndexExpression ds) as [index|]; reflexivity.
Qed.

(** X24.  Dereference [d^]: only a pointer can be dereferenced, and not
    one to a record that is not exported; the designator then stands for
    the record the pointer is based on, with its code unchanged, as a
    variable passed by reference, so that the code that passes it by
    reference is the code of the designator itself. *)
Theorem Designator_deref ds :
  match ds_currentType ds with
  | None => Designator_handleLiteral "^" ds = Err JsTypeError
  | Some (Pointer p) =>
      if recordNonExported types (pointerBase types p) then
        Designator_handleLiteral "^" ds
        = throw "POINTER TO non-exported RECORD type cannot be dereferenced"
      else
        exists ds',
          Designator_handleLiteral "^" ds = Ok ds'
          /\ ds_currentType ds' = Some (Record_ (pointerBase types p))
          /\ ds_code ds' = ds_code ds
          /\ isReference (ds_info ds') = Ok true
          /\ forall code, Designator_makeRefCode ds' code = Ok code
  | Some t =>
      Designator_handleLiteral "^" ds
      = throw ("POINTER TO type expected, got '" +:+ description t +:+ "'")
  end.
Proof.
  unfold Designator_handleLiteral.
  rewrite !(bool_decide_eq_false_2 ("^" = "]")) by discriminate.
  rewrite !(bool_decide_eq_false_2 ("^" = ",")) by discriminate.
  rewrite !(bool_decide_eq_false_2 ("^" = "[")) by discriminate.
  rewrite !(bool_decide_eq_true_2 ("^" = "^")) by reflexivity.
  cbn [orb bind]. unfold Designator_handleDeref.
  destruct (ds_currentType ds) as [[| | | | | |p| | |]|]; try reflexivity.
  destruct (recordNonExported types (pointerBase types p)); [reflexivity|].
  cbn [bind]. eexists. split; [reflexivity|].
  cbn [ds_currentType ds_code ds_info fmap option_fmap option_map].
  repeat split. intros code. unfold Designator_makeRefCode.
  cbn [ds_currentType ds_info isReference bind].
  by destruct (isScalar _).
Qed.

(** ** The relations, compared *)

Lemma RelationOps_nest t :
  (is_Some (RelationOps_less t) <-> is_Some (RelationOps_greater t))
  /\ (is_Some (RelationOps_lessEq t) <-> is_Some (RelationOps_greaterEq t))
  /\ (is_Some (RelationOps_eq t) <-> is_Some (RelationOps_notEq t))
  /\ (is_Some (RelationOps_less t) -> is_Some (RelationOps_lessEq t))
  /\ (is_Some (RelationOps_lessEq t) -> is_Some (RelationOps_eq t)).
Proof.
  unfold RelationOps_less, RelationOps_greater, RelationOps_lessEq,
    RelationOps_greaterEq, RelationOps_eq, RelationOps_notEq,
    useIntOrderOp, useIntEqOp.
  destruct (isInt t); cbn [orb]; [by repeat split|].
  destruct (bool_decide (t = Basic ch)); cbn [orb].
  { rewrite orb_true_r. cbn [orb]. by repeat split. }
  rewrite orb_false_r.
  destruct (bool_decide (t = Basic bool_) || isPointer t || isProcedure t
            || bool_decide (t = NilType)) eqn:Heq.
  - destruct (isString t); [by repeat split|].
    destruct (bool_decide (t = Basic real)); [by repeat split|].
    destruct (bool_decide (t = Basic set_)); by repeat split.
  - destruct (isString t); [by repeat split|].
    destruct (bool_decide (t = Basic real)); [by repeat split|].
    destruct (bool_decide (t = Basic set_)); repeat split;
      by intros [? [=]].
Qed.

Lemma relationAccepted_ordinary leftType rightType literal ops expect :
  relationOp leftType rightType literal
  = (t <-- RelationOps_coalesceType leftType rightType ;;
     match ops t with
     | Some o => Ok (Some o)
     | None => throwOperatorTypeMismatch literal expect (Some t)
     end) ->
  relationAccepted leftType rightType literal
  <-> exists t, RelationOps_coalesceType leftType rightType = Ok t
                /\ is_Some (ops t).
Proof.
  intros Hop. unfold relationAccepted. rewrite Hop.
  destruct (RelationOps_coalesceType leftType rightType) as [t|err].
  - cbn [bind]. split.
    + intros [o Ho]. exists t. split; [reflexivity|].
      destruct (ops t); [by eexists | discriminate].
    + intros (t' & [= <-] & [o Ho]). rewrite Ho. by exists o.
  - split; [by intros [? ?] | by intros (? & ? & _)].
Qed.

(** X25.  The six comparisons accept operands in nested classes, whatever
    the two operand types are: [<] and [>] have an operation for the same
    operands, and so have [<=] and [>=], and [=] and [#]; operands that can
    be compared by [<] can be compared by [<=], and operands that can be
    compared by [<=] can be compared by [=]. *)
Theorem relationOp_relations_nest leftType rightType :
  (relationAccepted leftType rightType "<"
   <-> relationAccepted leftType rightType ">")
  /\ (relationAccepted leftType rightType "<="
      <-> relationAccepted leftType rightType ">=")
  /\ (relationAccepted leftType rightType "="
      <-> relationAccepted leftType rightType "#")
  /\ (relationAccepted leftType rightType "<"
      -> relationAccepted leftType rightType "<=")
  /\ (relationAccepted leftType rightType "<="
      -> relationAccepted leftType rightType "=").
Proof.
  rewrite (relationAccepted_ordinary leftType rightType "<"
             RelationOps_less RelationOps_strongRelExpect)
    by (by rewrite relationOp_ordinary).
  rewrite (relationAccepted_ordinary leftType rightType ">"
             RelationOps_greater RelationOps_strongRelExpect)
    by (by rewrite relationOp_ordinary).
  rewrite (relationAccepted_ordinary leftType rightType "<="
             RelationOps_lessEq RelationOps_relExpect)
    by (by rewrite relationOp_ordinary).
  rewrite (relationAccepted_ordinary leftType rightType ">="
             RelationOps_greaterEq RelationOps_relExpect)
    by (by rewrite relationOp_ordinary).
  rewrite (relationAccepted_ordinary leftType rightType "="
             RelationOps_eq RelationOps_eqExpect)
    by (by rewrite relationOp_ordinary).
  rewrite (relationAccepted_ordinary leftType rightType "#"
             RelationOps_notEq RelationOps_eqExpect)
    by (by rewrite relationOp_ordinary).
  assert (Hlift : forall (f g : Ty -> option Operator),
             (forall t, is_Some (f t) -> is_Some (g t)) ->
             (exists t, RelationOps_coalesceType leftType rightType = Ok t
                        /\ is_Some (f t)) ->
             exists t, RelationOps_coalesceType leftType rightType = Ok t
                       /\ is_Some (g t)).
  { intros f g Hfg (t & Ht & Hf). exists t. split; [exact Ht|].
    by apply Hfg. }
  split; [|split; [|split; [|split]]].
  - split; apply Hlift; intros t; apply (RelationOps_nest t).
  - split; apply Hlift; intros t; apply (RelationOps_nest t).
  - split; apply Hlift; intros t; apply (RelationOps_nest t).
  - apply Hlift; intros t; apply (RelationOps_nest t).
  - apply Hlift; intros t; apply (RelationOps_nest t).
Qed.

(** ** The root context *)

Lemma Context_findSymbol_loop_None scopes ident :
  Context_findSymbol_loop scopes ident = None
  <-> Forall (fun scope : ScopeLookup => scope ident = None) scopes.
Proof.
  induction scopes as [|scope scopes IH]; cbn [Context_findSymbol_loop].
  - split; [constructor | reflexivity].
  - rewrite Forall_cons, <- IH.
    destruct (scope ident); [split; [discriminate | by intros [? _]]|].
    split; [by split | by intros [_ ?]].
Qed.

(** X26.  The lookup of a name in the stack of scopes: the scope pushed
    last is asked first, so that a name it declares hides the same name of
    the scopes below, and a name it does not declare is looked up as
    before it was pushed; no symbol is found exactly when no scope of the
    stack has one; and popping the scope gives the stack back. *)
Theorem Context_findSymbol_innermost scopes scope ident :
  Context_findSymbol (Context_pushScope scope scopes) ident
  = match scope ident with
    | Some s => Some s
    | None => Context_findSymbol scopes ident
    end
  /\ (Context_findSymbol scopes ident = None
      <-> Forall (fun scope : ScopeLookup => scope ident = None) scopes)
  /\ Context_popScope (Context_pushScope scope scopes) = Ok scopes.
Proof.
  unfold Context_findSymbol, Context_pushScope, Context_popScope.
  rewrite rev_unit. split; [reflexivity|]. split.
  - assert (Hrev : forall x : ScopeLookup, x ∈ rev scopes <-> x ∈ scopes).
    { intros x. rewrite !list_elem_of_In. symmetry. apply in_rev. }
    rewrite Context_findSymbol_loop_None, !Forall_forall.
    split; intros H x Hx; apply H; by apply Hrev.
  - by rewrite rev_involutive.
Qed.

Lemma Context_genTypeNames_spec n : forall gen,
  Context_genTypeNames n gen
  = ((fun k => "anonymous$" +:+ pretty (gen + Z.of_nat k)%Z)
       <$> seq 1 n,
     (gen + Z.of_nat n)%Z).
Proof.
  induction n as [|n IH]; intros gen.
  - cbn. by rewrite Z.add_0_r.
  - cbn [Context_genTypeNames Context_genTypeName]. rewrite IH.
    cbn [seq fmap list_fmap]. f_equal.
    + f_equal. rewrite <- (fmap_S_seq 1 n), <- list_fmap_compose.
      apply list_fmap_ext. intros _ k _. cbn. do 2 f_equal. lia.
    + lia.
Qed.

Lemma append_inj_l (a b c : string) : a +:+ b = a +:+ c -> b = c.
Proof.
  induction a as [|x a IH]; [done|]. intros [= H]. by apply IH.
Qed.

(** X27.  The names of anonymous types: as long as the counter stays in
    the range where numbers are exact, [n] calls of [genTypeName] give [n]
    pairwise different names, 'anonymous$' followed by the numbers after
    the counter, and leave the counter [n] higher. *)
Theorem Context_genTypeName_fresh n gen :
  (0 <= gen)%Z ->
  (gen + Z.of_nat n <= 2 ^ 53)%Z ->
  let '(names, gen') := Context_genTypeNames n gen in
  NoDup names
  /\ length names = n
  /\ gen' = (gen + Z.of_nat n)%Z
  /\ forall name, name ∈ names ->
       exists k, (gen < k <= gen')%Z /\ name = "anonymous$" +:+ pretty k.
Proof.
  intros Hgen Hbound. rewrite Context_genTypeNames_spec.
  split; [|split; [|split]].
  - apply NoDup_fmap_2; [|apply NoDup_seq].
    intros j k Hjk. apply append_inj_l in Hjk.
    apply (inj pretty) in Hjk. lia.
  - by rewrite length_fmap, length_seq.
  - reflexivity.
  - intros name Hname. apply list_elem_of_fmap in Hname as (k & -> & Hk).
    apply elem_of_seq in Hk. exists (gen + Z.of_nat k)%Z. split; [lia|done].
Qed.

(** ** Variable declarations *)

Lemma VariableDeclaration_loop_spec type idents : forall sc out,
  NoDup (id_id <$> idents) ->
  (forall id, id ∈ idents -> sc_symbols sc !! id_id id = None) ->
  exists sc',
    VariableDeclaration_loop type idents sc out
    = Ok (sc',
          out ++ ((fun id => Write ("var " +:+ id_id id +:+ " = "
                                    +:+ initializer type +:+ ";"))
                    <$> idents))
    /\ sc_unresolved sc' = sc_unresolved sc
    /\ (forall id, id ∈ idents ->
          sc_symbols sc' !! id_id id = Some (VariableInfo type false false))
    /\ (forall name, name ∉ id_id <$> idents ->
          sc_symbols sc' !! name = sc_symbols sc !! name).
Proof.
  induction idents as [|id idents IH]; intros sc out Hnodup Hfresh.
  - exists sc. cbn. rewrite app_nil_r.
    split; [reflexivity|]. split; [reflexivity|]. split; [|done].
    intros id Hid. by apply elem_of_nil in Hid.
  - cbn [fmap list_fmap] in Hnodup.
    apply NoDup_cons in Hnodup as [Hid Hnodup].
    cbn [VariableDeclaration_loop]. unfold Scope_addSymbol.
    rewrite (Hfresh id) by left. cbn [bind].
    match goal with
    | |- context [VariableDeclaration_loop type idents ?sc1 ?out1] =>
        destruct (IH sc1 out1) as (sc' & Hrun & Hun & Hin & Hout)
    end.
    + exact Hnodup.
    + intros id' Hid'. cbn [sc_symbols]. rewrite lookup_insert_ne.
      * apply Hfresh. by right.
      * intros Heq. apply Hid. rewrite Heq.
        apply list_elem_of_fmap. by exists id'.
    + cbn [sc_symbols sc_unresolved] in Hun, Hout.
      exists sc'. split; [|split; [|split]].
      * rewrite Hrun. cbn [fmap list_fmap]. by rewrite <- app_assoc.
      * exact Hun.
      * intros id' Hid'. apply elem_of_cons in Hid' as [-> | Hid'].
        -- rewrite Hout by exact Hid. by rewrite lookup_insert_eq.
        -- by apply Hin.
      * intros name Hname. cbn [fmap list_fmap] in Hname.
        apply not_elem_of_cons in Hname as [Hne Hname].
        rewrite Hout by exact Hname. by rewrite lookup_insert_ne.
Qed.

(** X28.  A variable declaration [VAR a, b: T] whose names are pairwise
    distinct and new in the scope: every name is bound in the scope to a
    variable of type [T] that is neither read-only nor a reference, every
    other name of the scope is left as it was, and what is written is one
    'var name = initializer;' per name, in order, followed by a line
    feed. *)
Theorem VariableDeclaration_declares type idents sc out :
  NoDup (id_id <$> idents) ->
  (forall id, id ∈ idents -> sc_symbols sc !! id_id id = None) ->
  exists sc',
    VariableDeclaration_endParse type idents sc out
    = Ok (sc',
          out ++ ((fun id => Write ("var " +:+ id_id id +:+ " = "
                                    +:+ initializer type +:+ ";"))
                    <$> idents)
              ++ [Write LF])
    /\ (forall id, id ∈ idents ->
          sc_symbols sc' !! id_id id = Some (VariableInfo type false false))
    /\ (forall name, name ∉ id_id <$> idents ->
          sc_symbols sc' !! name = sc_symbols sc !! name).
Proof.
  intros Hnodup Hfresh. unfold VariableDeclaration_endParse.
  destruct (VariableDeclaration_loop_spec type idents sc out Hnodup Hfresh)
    as (sc' & -> & _ & Hin & Hout).
  exists sc'. cbn [bind fst snd]. split; [by rewrite <- app_assoc|].
  by split.
Qed.

End Translation.

(** * The properties on the sample module *)

(** ** The counted loop *)

(** [FOR i := 1 TO 10 BY 0]: the header is accepted and emitted with the
    comparison [<=] and the update [i += 0]; no error is raised. *)
Lemma For_step_zero_is_accepted :
  For_header sample_description sample_find "i"
    (intExpr 1) (intExpr 10) (Some (intExpr 0)) []
  = Ok (mkFor (Some "i") true "10" true true (Some 0%Z)
          [Write "for (i = "; Write "1"; Write "; i <= 10; i += 0)";
           OpenScope]).
Proof. vm_compute. reflexivity. Qed.

Lemma For_step_must_be_integer_constant_witness :
  sample_find None "i"
  = Some (mkFound (mkSymbol "i" (VariableInfo (Basic integer) false false))
            (Some (ModuleScope 0)))
  /\ e_type (intExpr 1) = Some (Basic integer)
  /\ e_type (intExpr 10) = Some (Basic integer)
  /\ isOk (For_header sample_description sample_find "i"
             (intExpr 1) (intExpr 10) (Some (intExpr 2)) []) = true
  /\ For_header sample_description sample_find "i"
       (intExpr 1) (intExpr 10) (Some (varExpr "n" (Basic integer))) []
     = throw "constant expression expected as 'BY' parameter".
Proof.
  split; [reflexivity|]. split; [reflexivity|]. split; [reflexivity|]. split.
  - apply (For_step_must_be_integer_constant sample_description sample_find
             "i" "i" false false (Some (ModuleScope 0))
             (intExpr 1) (intExpr 10) (intExpr 2) []);
      [reflexivity | reflexivity | reflexivity |].
    split; [reflexivity | eexists; reflexivity].
  - apply (For_step_must_be_integer_constant sample_description sample_find
             "i" "i" false false (Some (ModuleScope 0))
             (intExpr 1) (intExpr 10) (varExpr "n" (Basic integer)) []);
      reflexivity.
Defined.

(** [FOR i := 10 TO 1 BY -1] compares with [>=] and decrements by 1. *)
Lemma For_header_direction_witness :
  sample_find None "i"
  = Some (mkFound (mkSymbol "i" (VariableInfo (Basic integer) false false))
            (Some (ModuleScope 0)))
  /\ e_type (intExpr 10) = Some (Basic integer)
  /\ e_type (intExpr 1) = Some (Basic integer)
  /\ exactInteger (-1)
  /\ For_header sample_description sample_find "i"
       (intExpr 10) (intExpr 1) (Some (intExpr (-1))) []
     = Ok (mkFor (Some "i") true "1" true true (Some (-1)%Z)
             [Write "for (i = "; Write "10"; Write "; i >= 1; i -= 1)";
              OpenScope]).
Proof.
  assert (Hexact : exactInteger (-1)) by (split; vm_compute; discriminate).
  split; [reflexivity|]. split; [reflexivity|]. split; [reflexivity|].
  split; [exact Hexact|].
  pose proof (For_header_direction sample_description sample_find
                "i" "i" false false (Some (ModuleScope 0))
                (intExpr 10) (intExpr 1) [] eq_refl eq_refl eq_refl) as H.
  cbv zeta in H. destruct H as (_ & Hnegative & _).
  rewrite (Hnegative (intExpr (-1)) (IntConst (-1)) eq_refl eq_refl
             ltac:(cbn; lia) Hexact).
  reflexivity.
Defined.

(** ** Guarded casts *)

(** A by-reference [A] is cast to its extension [D]; to the unrelated [C]
    the cast fails. *)
Lemma checkTypeCast_extension_witness :
  chainEnds sample_types (targetRecord sample_types (Record_ 3)) 3
  /\ 3 <= 5
  /\ checkTypeCast sample_types sample_description 5
       (Some (VariableInfo (Record_ 0) false true)) (Record_ 0) (Record_ 3)
       "type cast" = Ok tt.
Proof.
  assert (Hchain : chainEnds sample_types
                     (targetRecord sample_types (Record_ 3)) 3).
  { apply chainEnds_some. apply (chainEnds_some sample_types 1).
    apply (chainEnds_some sample_types 0). apply chainEnds_none. }
  split; [exact Hchain|]. split; [lia|].
  apply (checkTypeCast_extension sample_types sample_description 5
           (Some (VariableInfo (Record_ 0) false true)) (Record_ 0) (Record_ 3)
           "type cast" 3 Hchain); [lia|].
  right. exists 0, 3, (Record_ 0), false.
  repeat split.
  apply (extends_step sample_types 3 1 0); [reflexivity|].
  apply extends_base. reflexivity.
Defined.

(** ** Indexing *)

(** [s[0]] for the empty string constant [s]: the step fails, but with the
    error of the empty string, not with the index-out-of-bounds error. *)
Lemma Designator_index_empty_string :
  staticLength (Some (String_ EmptyString)) = Some 0%Z
  /\ (ds <-- Designator_handleQIdent (fun _ code => code) sample_find
               (mkQIdent None "s" "s") Designator_init ;;
      ds <-- Designator_handleLiteral sample_types sample_description
               "'INTEGER' or 'BYTE'" (fun e => e) sample_checkIndex "[" ds ;;
      Designator_handleLiteral sample_types sample_description
        "'INTEGER' or 'BYTE'" (fun e => e) sample_checkIndex "]"
        (Designator_handleExpression (intExpr 0) ds))
     = throw "cannot index empty string".
Proof. split; vm_compute; reflexivity. Qed.

(** [a[3]] for [a : ARRAY 3 OF INTEGER] is out of bounds. *)
Lemma Designator_index_bounds_witness :
  let ds := mkDesignatorState
              (Some (StaticArray "[0, 0, 0]" (Basic integer) 3))
              (Some (VariableInfo (StaticArray "[0, 0, 0]" (Basic integer) 3)
                       false false))
              (Some (ModuleScope 0)) EmptyString None (Some (intExpr 3))
              (Some "a") None in
  ds_indexExpression ds = Some (intExpr 3)
  /\ e_type (intExpr 3) = Some (Basic integer)
  /\ isInt (Basic integer) = true
  /\ staticLength (ds_currentType ds) = Some 3%Z
  /\ (0 < 3)%Z
  /\ isConstOrReadOnly (ds_info ds) = Ok false
  /\ (forall v, (0 <= v)%Z -> sample_checkIndex v = Ok tt)
  /\ exactInteger 3
  /\ Designator_handleIndexExpression sample_description
       "'INTEGER' or 'BYTE'" (fun e => e) sample_checkIndex ds
     = throw "index out of bounds: maximum possible index is 2, got 3".
Proof.
  intros ds.
  assert (Hcheck : forall v, (0 <= v)%Z -> sample_checkIndex v = Ok tt).
  { intros v Hv. unfold sample_checkIndex.
    destruct (Z.ltb_spec v 0); [lia | reflexivity]. }
  assert (Hexact : exactInteger 3) by (split; vm_compute; discriminate).
  repeat (split; [first [reflexivity | lia | exact Hcheck | exact Hexact]|]).
  destruct (Designator_index_bounds sample_description "'INTEGER' or 'BYTE'"
              (fun e => e) sample_checkIndex ds (intExpr 3) (Basic integer) 3
              eq_refl eq_refl eq_refl eq_refl Hcheck)
    as (Hstatic & _).
  destruct (Hstatic false ltac:(lia) eq_refl) as (Hout & _).
  apply (Hout (IntConst 3) eq_refl); [cbn; lia | exact Hexact | exact Hexact].
Defined.

(** ** Reference code *)

(** The INTEGER variable [i] reached directly: its reference code is a
    setter and getter pair over [i], a cell, not the code [i] itself. *)
Lemma Designator_refCode_of_direct_scalar :
  (ds <-- Designator_handleQIdent (fun _ code => code) sample_find
            (mkQIdent None "i" "i") Designator_init ;;
   d_refCode (Designator_endParse sample_rtl sample_isScalar ds) "i")
  = Ok "{set: function($v){i = $v;}, get: function(){return i;}}".
Proof. vm_compute. reflexivity. Qed.

Lemma Designator_makeRefCode_cases_witness :
  let ds := mkDesignatorState (Some (Basic integer))
              (Some (VariableInfo (Basic integer) false false)) None
              "a[1]" None (Some (intExpr 1)) (Some "a") (Some "1") in
  ds_currentType ds = Some (Basic integer)
  /\ Designator_makeRefCode sample_rtl sample_isScalar ds "a[1]"
     = Ok "RTL$.makeRef(a, 1)".
Proof.
  intros ds. split; [reflexivity|].
  destruct (Designator_makeRefCode_cases sample_types sample_rtl
              sample_description sample_isScalar "'INTEGER' or 'BYTE'"
              (fun _ code => code) (fun e => e) sample_checkIndex
              ds (Basic integer) "a[1]" eq_refl)
    as (_ & _ & Hcell & _).
  apply (Hcell (Basic integer) false); reflexivity.
Defined.

(** ** Relational operators *)

Lemma sample_findPointerBaseType_pointer a b c :
  sample_findPointerBaseType a b = Some c -> isPointer c = true.
Proof.
  unfold sample_findPointerBaseType.
  destruct a; try discriminate. destruct b; try discriminate.
  destruct (_ || _); [|discriminate]. by intros [= <-].
Qed.

Lemma relationOp_set_and_ordering_witness :
  sample_areTypesMatch (Basic set_) (Basic set_) = true
  /\ relationOp sample_description sample_typeName "'INTEGER' or 'BYTE'"
       sample_areTypesMatch sample_findPointerBaseType
       (fun _ _ => false) (Basic set_) (Basic set_) "<="
     = Ok (Some setInclL)
  /\ isOk (relationOp sample_description sample_typeName "'INTEGER' or 'BYTE'"
             sample_areTypesMatch sample_findPointerBaseType
             (fun _ _ => false) (Pointer 1) (Pointer 3) "<") = false.
Proof.
  split; [reflexivity|].
  destruct (relationOp_set_and_ordering sample_description sample_typeName
              "'INTEGER' or 'BYTE'" sample_areTypesMatch
              sample_findPointerBaseType (fun _ _ => false) eq_refl
              sample_findPointerBaseType_pointer)
    as (_ & _ & Hincl & _ & _ & _ & Hnone).
  split; [exact Hincl|].
  apply Hnone.
  - right. left. reflexivity.
  - apply list_elem_of_here.
Defined.

(** ** Set literals *)

(** [{1, 3 .. 5}] folds to the mask 58, and [{1, n, 3 .. 5, m .. 7}] is the
    set builder over [n] and [m .. 7] or-ed with 58. *)
Lemma Set_literal_folds_witness :
  let n := varExpr "n" (Basic integer) in
  let m := varExpr "m" (Basic integer) in
  let els := [(intExpr 1, None); (n, None);
              (intExpr 3, Some (intExpr 5)); (m, Some (intExpr 7))] in
  (forall el, el ∈ els -> codesNonEmpty el)
  /\ (forall el, el ∈ els -> exactMembers el)
  /\ Set_literal sample_rtl [(intExpr 1, None); (intExpr 3, Some (intExpr 5))]
     = HandleConst (Basic set_) (SetConst 58) "58"
  /\ Set_literal sample_rtl els
     = HandleFactor
         (makeExpression "RTL$.makeSet(n, [m, 7]) | 58" (Some (Basic set_))
            None None).
Proof.
  intros n m els.
  assert (Hcodes : forall l : list (Expression * option Expression),
             Forall (fun el => bool_decide (e_code (fst el) <> EmptyString)
                               && match snd el with
                                  | Some e' =>
                                      bool_decide (e_code e' <> EmptyString)
                                  | None => true
                                  end = true) l ->
             forall el, el ∈ l -> codesNonEmpty el).
  { intros l Hl el Hel. rewrite Forall_forall in Hl.
    specialize (Hl el Hel). apply andb_true_iff in Hl as [H1 H2].
    apply bool_decide_eq_true in H1. split; [exact H1|].
    intros e' He'. rewrite He' in H2. by apply bool_decide_eq_true in H2. }
  assert (Hexact : forall l : list (Expression * option Expression),
             Forall (fun el =>
                       let inRange (e : Expression) :=
                         match e_constValue e with
                         | Some c => (- 2 ^ 53 <=? value c)%Z
                                     && (value c <? 2 ^ 53)%Z
                         | None => true
                         end in
                       inRange (fst el)
                       && match snd el with
                          | Some e' => inRange e'
                          | None => true
                          end = true) l ->
             forall el, el ∈ l -> exactMembers el).
  { intros l Hl el Hel. rewrite Forall_forall in Hl.
    specialize (Hl el Hel). cbv zeta in Hl.
    apply andb_true_iff in Hl as [H1 H2].
    intros c [Hc | (e' & He' & Hc)].
    - rewrite Hc in H1. apply andb_true_iff in H1 as [Hlo Hhi].
      apply Z.leb_le in Hlo. apply Z.ltb_lt in Hhi. by split.
    - rewrite He', Hc in H2. apply andb_true_iff in H2 as [Hlo Hhi].
      apply Z.leb_le in Hlo. apply Z.ltb_lt in Hhi. by split. }
  assert (Hels : forall el, el ∈ els -> codesNonEmpty el).
  { apply Hcodes. repeat constructor. }
  assert (Hrange : forall el, el ∈ els -> exactMembers el).
  { apply Hexact. repeat constructor. }
  split; [exact Hels|]. split; [exact Hrange|]. split.
  - destruct (Set_literal_folds sample_rtl
                [(intExpr 1, None); (intExpr 3, Some (intExpr 5))])
      as (Hconst & _).
    { apply Hcodes. repeat constructor. }
    { apply Hexact. repeat constructor. }
    rewrite Hconst by reflexivity. reflexivity.
  - destruct (Set_literal_folds sample_rtl els Hels Hrange)
      as (_ & Hbuilder & _).
    rewrite Hbuilder by discriminate. reflexivity.
Defined.

(** ** Type sections *)

(** [P = POINTER TO T; Q = POINTER TO U; T = RECORD END]: [U] is never
    defined and closing the section reports it. *)
Lemma TypeSection_endParse_unresolved_witness :
  let evs := [TypeIdentdef "P"; ForwardType "T"; TypeDefined "P" (Pointer 0);
              TypeIdentdef "Q"; ForwardType "U"; TypeDefined "Q" (Pointer 1);
              TypeIdentdef "T"; TypeDefined "T" (Record_ 0)] in
  forwardPending "U" evs
  /\ TypeSection_section evs (mkScope ∅ [])
     = throw "no declaration found for 'U'".
Proof.
  intros evs.
  assert (Hpending : forwardPending "U" evs).
  { exists [TypeIdentdef "P"; ForwardType "T"; TypeDefined "P" (Pointer 0);
            TypeIdentdef "Q"],
           [TypeDefined "Q" (Pointer 1); TypeIdentdef "T";
            TypeDefined "T" (Record_ 0)].
    split; [reflexivity|]. intros t Ht.
    repeat (apply elem_of_cons in Ht as [Ht | Ht]; [discriminate Ht|]).
    by apply elem_of_nil in Ht. }
  split; [exact Hpending|].
  destruct TypeSection_endParse_unresolved as (_ & _ & _ & Hclose).
  destruct (Hclose evs (mkScope ∅ [])
              (mkScope
                 (<["T" := LazyTypeId (Some (Record_ 0))]>
                    (<["Q" := LazyTypeId (Some (Pointer 1))]>
                       (<["P" := LazyTypeId (Some (Pointer 0))]> ∅)))
                 ["U"])
              "U" eq_refl)
    as [Hthrow _].
  - vm_compute. reflexivity.
  - exact Hpending.
  - exact Hthrow.
Defined.

(** ** Procedures as expression values *)

(** The module procedure [P] becomes an expression; the local procedure [L]
    and the standard procedure [INC] are refused. *)
Lemma Term_setDesignator_procedure_witness :
  let designator (name : string) (t : Ty) (scope : option ScopeKind) :=
    mkDesignator name name (fun code => Ok code) (Some t)
      (Some (ProcedureId t)) scope in
  d_info (designator "L" (Procedure 2) (Some (ProcedureScope 1)))
  = Some (ProcedureId (Procedure 2))
  /\ Term_setDesignator sample_types sample_description
       (fun e => Ok (e_code e))
       (designator "L" (Procedure 2) (Some (ProcedureScope 1)))
     = throw "local procedure 'L' cannot be referenced"
  /\ Term_setDesignator sample_types sample_description
       (fun e => Ok (e_code e)) (designator "INC" (Procedure 0) None)
     = throw "PROCEDURE cannot be referenced"
  /\ Term_setDesignator sample_types sample_description
       (fun e => Ok (e_code e))
       (designator "P" (Procedure 1) (Some (ModuleScope 0)))
     = Ok "P".
Proof.
  intros designator. split; [reflexivity|]. split; [|split].
  - apply (Term_setDesignator_procedure sample_types sample_description
             (fun e => Ok (e_code e))
             (designator "L" (Procedure 2) (Some (ProcedureScope 1)))
             (Procedure 2) eq_refl); reflexivity.
  - apply (Term_setDesignator_procedure sample_types sample_description
             (fun e => Ok (e_code e)) (designator "INC" (Procedure 0) None)
             (Procedure 0) eq_refl); reflexivity.
  - destruct (Term_setDesignator_procedure sample_types sample_description
                (fun e => Ok (e_code e))
                (designator "P" (Procedure 1) (Some (ModuleScope 0)))
                (Procedure 1) eq_refl) as (_ & _ & Hpass & _).
    rewrite Hpass by reflexivity. reflexivity.
Defined.

(** ** Record constructors *)

(** [B = RECORD (A) c: INTEGER END] calls the constructor of [A] and then
    initializes [c] only. *)
Lemma RecordDecl_constructor_body_witness :
  (forall b, recordBase sample_types 1 = Some b ->
             sample_typeName (Record_ b) <> EmptyString)
  /\ RecordDecl_generateConstructor sample_types sample_module
       sample_typeName sample_initializer sample_mangleField
       sample_generatorResult (mkRecordDecl "B" 1)
     = sample_generatorResult
         [Write "function B()"; OpenScope;
          Write ("A.call(this);" +:+ LF +:+ "this.c = 0;" +:+ LF);
          CloseScope EmptyString].
Proof.
  assert (Hname : forall b, recordBase sample_types 1 = Some b ->
                            sample_typeName (Record_ b) <> EmptyString).
  { intros b [= <-]. discriminate. }
  split; [exact Hname|].
  destruct (RecordDecl_constructor_body sample_types sample_module
              sample_typeName sample_initializer sample_mangleField
              sample_generatorResult (mkRecordDecl "B" 1) Hname)
    as (Hbody & _).
  rewrite Hbody. reflexivity.
Defined.

(** * The statements, declarations and imports on the sample module *)

(** ** Conditions and loops *)

(** [IF b THEN x() END]. *)
Lemma If_statement_blocks_witness :
  exists ops,
    If_statement sample_description
      (varExpr "b" (Basic bool_), [Write "x();"]) [] None []
    = Ok ([] ++ ops)
    /\ balanced ops.
Proof.
  destruct (If_statement_blocks sample_description
              (varExpr "b" (Basic bool_), [Write "x();"]) [] None [])
    as [Hblocks _].
  apply Hblocks.
  - repeat constructor.
  - repeat constructor.
  - intros body Hbody. discriminate Hbody.
Defined.

(** [WHILE b DO x() ELSIF c DO y() END]. *)
Lemma While_statement_blocks_witness :
  While_statement sample_description
    (varExpr "b" (Basic bool_), [Write "x();"])
    [(varExpr "c" (Basic bool_), [Write "y();"])] []
  = Ok [Write "while (true)"; OpenScope;
        Write "if ("; Write "b"; Write ")"; OpenScope; Write "x();";
        CloseScope EmptyString;
        Write "else if ("; Write "c"; Write ")"; OpenScope; Write "y();";
        CloseScope (" else break;" +:+ LF); CloseScope EmptyString].
Proof.
  destruct (While_statement_blocks sample_description
              (varExpr "b" (Basic bool_), [Write "x();"])
              [(varExpr "c" (Basic bool_), [Write "y();"])] [])
    as [Hblocks _].
  destruct Hblocks as [Hrun _]; [repeat constructor|].
  exact Hrun.
Defined.

(** [REPEAT x() UNTIL b], with the negation written as [!]. *)
Lemma Repeat_statement_negates_witness :
  Repeat_statement sample_description
    (fun e => makeExpression ("!" +:+ e_code e) (e_type e) None None)
    [Write "x();"] (varExpr "b" (Basic bool_)) []
  = Ok ([] ++ [Write "do "; OpenScope] ++ [Write "x();"]
           ++ [CloseScope " while ("; Write "!b"; Write (");" +:+ LF)]).
Proof.
  destruct (Repeat_statement_negates sample_description
              (fun e => makeExpression ("!" +:+ e_code e) (e_type e)
                          None None)
              [Write "x();"] (varExpr "b" (Basic bool_)) [])
    as [Hwritten _].
  apply Hwritten. reflexivity.
Defined.

(** [FOR i := 1 TO 10 DO x() END]. *)
Lemma For_statement_blocks_witness :
  sample_find None "i"
  = Some (mkFound (mkSymbol "i" (VariableInfo (Basic integer) false false))
            (Some (ModuleScope 0)))
  /\ e_type (intExpr 1) = Some (Basic integer)
  /\ e_type (intExpr 10) = Some (Basic integer)
  /\ exists header,
       For_statement sample_description sample_find "i" (intExpr 1)
         (intExpr 10) None [Write "x();"] []
       = Ok ([] ++ [Write ("for (" +:+ "i" +:+ " = ");
                    Write (e_code (intExpr 1)); Write header; OpenScope]
                ++ [Write "x();"] ++ [CloseScope EmptyString])
       /\ (balanced [Write "x();"] ->
           balanced ([Write ("for (" +:+ "i" +:+ " = ");
                      Write (e_code (intExpr 1)); Write header; OpenScope]
                     ++ [Write "x();"] ++ [CloseScope EmptyString])).
Proof.
  split; [reflexivity|]. split; [reflexivity|]. split; [reflexivity|].
  apply (For_statement_blocks sample_description sample_find "i" "i" false
           false (Some (ModuleScope 0)) (intExpr 1) (intExpr 10) None
           [Write "x();"] []);
    [reflexivity | reflexivity | reflexivity |].
  intros e He. discriminate He.
Defined.

(** The case [1, 3..5: x()] of a CASE over an INTEGER. *)
Lemma CaseLabel_case_guard_witness :
  CaseLabel_case sample_typeName sample_areTypesMatch sample_find
    (literalCase
       ((NumberLabel (Basic integer) (IntConst 1), None),
        [(NumberLabel (Basic integer) (IntConst 3),
          Some (NumberLabel (Basic integer) (IntConst 5)))],
        [Write "x();"]))
    (mkCase (Some (Basic integer)) true "$c" [])
  = Ok (mkCase (Some (Basic integer)) false "$c"
          [Write "if ("; Write "$c === 1";
           Write " || ($c >= 3 && $c <= 5)"; Write ")"; OpenScope;
           Write "x();"; CloseScope EmptyString]).
Proof.
  assert (Hexact : forall z, (- 2 ^ 53 <=? z)%Z && (z <=? 2 ^ 53)%Z = true ->
                             exactInteger z).
  { intros z Hz. apply andb_true_iff in Hz as [Hlo Hhi].
    apply Z.leb_le in Hlo. apply Z.leb_le in Hhi. by split. }
  destruct (CaseLabel_case_guard sample_typeName sample_areTypesMatch
              sample_find (mkCase (Some (Basic integer)) true "$c" [])
              (Basic integer)
              (NumberLabel (Basic integer) (IntConst 1), None)
              [(NumberLabel (Basic integer) (IntConst 3),
                Some (NumberLabel (Basic integer) (IntConst 5)))]
              [Write "x();"] eq_refl) as [Hrun _].
  - assert (Hfits : forall z,
              (- 2 ^ 53 <=? z)%Z && (z <=? 2 ^ 53)%Z = true ->
              labelFits sample_areTypesMatch (Basic integer)
                (NumberLabel (Basic integer) (IntConst z))).
    { intros z Hz. split; [reflexivity|]. split; [reflexivity|].
      by apply Hexact. }
    apply Forall_cons. split.
    + split; [by apply Hfits|]. intros l Hl. discriminate Hl.
    + apply Forall_cons. split; [|apply Forall_nil_2].
      split; [by apply Hfits|]. intros l [= <-]. by apply Hfits.
  - exact Hrun.
Defined.

(** [CASE c OF "a": x() | "b".."d": y() END] over a CHAR; the characters
    have the codes 97, 98 and 100. *)
Lemma Case_statement_blocks_witness :
  e_type (varExpr "c" (Basic ch)) = Some (Basic ch)
  /\ Case_statement sample_typeName "'INTEGER' or 'BYTE'"
       sample_areTypesMatch sample_find "$c" (varExpr "c" (Basic ch))
       (map literalCase
          [((CharLabel (Ascii.ascii_of_nat 97), None), [], [Write "x();"]);
           ((CharLabel (Ascii.ascii_of_nat 98),
             Some (CharLabel (Ascii.ascii_of_nat 100))), [],
            [Write "y();"])])
       []
     = Ok [Write "var $c = "; Write "c"; Write (";" +:+ LF);
           Write "if ("; Write "$c === 97"; Write ")"; OpenScope;
           Write "x();"; CloseScope EmptyString;
           Write "else "; Write "if ("; Write "($c >= 98 && $c <= 100)";
           Write ")"; OpenScope; Write "y();"; CloseScope EmptyString].
Proof.
  split; [reflexivity|].
  destruct (Case_statement_blocks sample_typeName "'INTEGER' or 'BYTE'"
              sample_areTypesMatch sample_find "$c"
              (varExpr "c" (Basic ch)) (Basic ch)
              [((CharLabel (Ascii.ascii_of_nat 97), None), [], [Write "x();"]);
               ((CharLabel (Ascii.ascii_of_nat 98),
                 Some (CharLabel (Ascii.ascii_of_nat 100))), [],
                [Write "y();"])]
              [] eq_refl)
    as [Hblocks _].
  destruct Hblocks as [Hrun _]; [by right | | exact Hrun].
  apply Forall_cons. split.
  - apply Forall_cons. split; [|apply Forall_nil_2].
    split; [reflexivity|]. intros l Hl. discriminate Hl.
  - apply Forall_cons. split; [|apply Forall_nil_2].
    apply Forall_cons. split; [|apply Forall_nil_2].
    split; [reflexivity|]. intros l [= <-]. reflexivity.
Defined.

(** ** Imports *)

(** [IMPORT A, B := C]. *)
Lemma ModuleImport_table_distinct_witness :
  Forall (fun item : option string * string => snd item <> EmptyString)
    [(None, "A"); (Some "B", "C")]
  /\ ModuleImport_table (None, "A") [(Some "B", "C")]
     = Ok [("A", Some "A"); ("B", Some "C")].
Proof.
  assert (Hnames : Forall (fun item : option string * string =>
                             snd item <> EmptyString)
                     [(None, "A"); (Some "B", "C")])
    by (repeat constructor; discriminate).
  split; [exact Hnames|].
  destruct (ModuleImport_table_distinct (None, "A") [(Some "B", "C")] Hnames)
    as [Htable _].
  apply Htable. split; [reflexivity|].
  split; [apply (bool_decide_unpack (NoDup ["A"; "B"]))
         | apply (bool_decide_unpack (NoDup ["A"; "C"]))];
    vm_compute; exact I.
Defined.

(** The module [M] imports the module [Math] as [L] and itself as [N]. *)
Lemma ModuleImport_endParse_resolution_witness :
  ModuleImport_endParse (ModuleInfo "this") None (Some "M")
    [("L", Some "Math"); ("N", Some "M")]
  = throw "module 'M' cannot import itself".
Proof.
  destruct (ModuleImport_endParse_resolution (ModuleInfo "this") None
              (Some "M") [("L", Some "Math"); ("N", Some "M")])
    as [Hself _].
  apply Hself. cbn. right. left.
Defined.

(** A record of the module [M], seen from a module that imports [M] as
    [L]. *)
Lemma qualifyScope_after_handleImport_witness :
  md_imports sample_importer
  = ModuleDeclaration_imports [mkSymbol "L" (ModuleInfo "M")] ∅
  /\ qualifyScope sample_types sample_importer (Some (ModuleScope 1)) = "L.".
Proof.
  split; [reflexivity|].
  rewrite (qualifyScope_after_handleImport sample_types sample_importer
             [mkSymbol "L" (ModuleInfo "M")] (Some (ModuleScope 1))
             eq_refl).
  - reflexivity.
  - intros s _. cbn. intros H.
    repeat (apply elem_of_cons in H as [H | H]; [discriminate H|]).
    by apply elem_of_nil in H.
Defined.

(** ** String literals *)

(** The literal of a line feed followed by [ab]. *)
Lemma escapeString_round_trip_witness :
  unescape 5 (escapeLoop (String charLF "ab") EmptyString)
  = Some (String charLF "ab").
Proof.
  destruct (escapeString_round_trip (String charLF "ab"))
    as (_ & Hback & _).
  exact Hback.
Defined.

(** ** Records *)

Lemma sample_types_ranked : ranked sample_types S.
Proof.
  intros r. split.
  - intros r' Hbase. destruct r as [|[|[|[|r]]]]; cbn in Hbase;
      try discriminate Hbase; injection Hbase as <-; lia.
  - intros f t Hin.
    assert (Ht : t = Basic integer).
    { destruct r as [|[|r]]; cbn in Hin;
        repeat (apply elem_of_cons in Hin as [Hin | Hin];
                [by injection Hin as _ -> |]);
        by apply elem_of_nil in Hin. }
    rewrite Ht. cbn. lia.
Qed.

(** An array of [D], which extends [B], which extends [A], holds [A]. *)
Lemma isTypeRecursive_decides_witness :
  ranked sample_types S
  /\ S (height S (StaticArray "x" (Record_ 3) 2)) < 10
  /\ isTypeRecursive sample_types 10
       (Some (StaticArray "x" (Record_ 3) 2)) 0 = Ok true.
Proof.
  split; [exact sample_types_ranked|]. split; [cbn; lia|].
  destruct (isTypeRecursive_decides sample_types S 0 10
              (StaticArray "x" (Record_ 3) 2) sample_types_ranked
              ltac:(cbn; lia)) as [Hholds _].
  apply Hholds. constructor.
  apply (holds_base sample_types 0 3 1); [reflexivity|].
  apply (holds_base sample_types 0 1 0); [reflexivity|]. constructor.
Defined.

(** A field of type [D] in the record [A]. *)
Lemma RecordDecl_addField_recursion_witness :
  ranked sample_types S
  /\ S (height S (Record_ 3)) < 10
  /\ RecordDecl_addField sample_types 10 (fun _ _ _ => Ok tt) InPointerDecl
       (mkRecordDecl "A" 0) (mkIdentdef "f" false) (Record_ 3)
     = throw "recursive field definition: 'f'".
Proof.
  split; [exact sample_types_ranked|]. split; [cbn; lia|].
  destruct (RecordDecl_addField_recursion sample_types S 10
              (fun _ _ _ => Ok tt) InPointerDecl (mkRecordDecl "A" 0)
              (mkIdentdef "f" false) (Record_ 3) sample_types_ranked
              ltac:(cbn; lia)) as [Hholds _].
  apply Hholds.
  apply (holds_base sample_types 0 3 1); [reflexivity|].
  apply (holds_base sample_types 0 1 0); [reflexivity|]. constructor.
Defined.

(** INTEGER as the base of a record. *)
Lemma RecordDecl_setBaseType_recursion_witness :
  ranked sample_types S
  /\ S (height S (Basic integer)) < 10
  /\ RecordDecl_setBaseType sample_types sample_description sample_typeName
       10 (fun _ _ => Ok tt) (mkRecordDecl "C" 2) (Basic integer)
     = throw "RECORD type is expected as a base type, got 'INTEGER'".
Proof.
  split; [exact sample_types_ranked|]. split; [cbn; lia|].
  destruct (RecordDecl_setBaseType_recursion sample_types sample_description
              sample_typeName S 10 (fun _ _ => Ok tt) (mkRecordDecl "C" 2)
              (Basic integer) sample_types_ranked ltac:(cbn; lia))
    as [Hbase _].
  apply Hbase. reflexivity.
Defined.

(** [TYPE T = RECORD x*: ... END]. *)
Lemma exportField_enclosing_witness :
  exportField (InTypeDeclaration (mkIdentdef "T" false)) "x"
  = throw
      "field 'x' can be exported only if record 'T' itself is exported too".
Proof.
  pose proof (exportField_enclosing
                (InTypeDeclaration (mkIdentdef "T" false)) "x") as H.
  cbv zeta in H. destruct H as [_ Hfirst].
  apply (Hfirst (mkIdentdef "T" false) []). reflexivity.
Defined.

(** ** Arrays *)

(** [ARRAY 3, 4 OF]. *)
Lemma ArrayDimensions_positive_constants_witness :
  ArrayDimensions_expressions sample_description [intExpr 3; intExpr 4] []
  = Ok [3%Z; 4%Z].
Proof.
  apply (ArrayDimensions_positive_constants sample_description
           [intExpr 3; intExpr 4] [3%Z; 4%Z]).
  split; [reflexivity|]. repeat constructor.
Defined.

(** [ARRAY 3, 4 OF INTEGER]. *)
Lemma ArrayDecl_setType_nesting_witness :
  Forall exactInteger [3%Z; 4%Z]
  /\ ArrayDecl_setType sample_initializer sample_makeCharArray
       sample_makeArray sample_makeType [3%Z; 4%Z] (Basic integer)
     = StaticArray "RTL$.makeArray(3, 4, 0)"
         (StaticArray EmptyString (Basic integer) 4) 3.
Proof.
  assert (Hexact : Forall exactInteger [3%Z; 4%Z]).
  { apply Forall_cons. split; [split; vm_compute; discriminate|].
    apply Forall_cons. split; [split; vm_compute; discriminate|].
    apply Forall_nil_2. }
  split; [exact Hexact|].
  pose proof (ArrayDecl_setType_nesting sample_initializer
                sample_makeCharArray sample_makeArray sample_makeType
                3%Z [4%Z] (Basic integer) Hexact) as H.
  cbv zeta in H. exact H.
Defined.

(** ** Procedures *)


(** A RETURN in a procedure declared without a result type. *)
Lemma ProcDecl_body_return_witness :
  pd_returnParsed
    (ProcDecl_handleIdentdef (mkIdentdef "P" false) (mkScope ∅ []) [])
  = false
  /\ ProcDecl_body sample_description sample_typeName (fun _ _ => false)
       (fun _ _ e => e_code e) [] (Some (intExpr 1)) "P"
       (ProcDecl_handleIdentdef (mkIdentdef "P" false) (mkScope ∅ []) [])
     = throw "unexpected RETURN in PROCEDURE declared with no result type".
Proof.
  split; [reflexivity|].
  destruct (ProcDecl_body_return sample_description sample_typeName
              (fun _ _ => false) (fun _ _ e => e_code e) []
              (Some (intExpr 1)) "P"
              (ProcDecl_handleIdentdef (mkIdentdef "P" false)
                 (mkScope ∅ []) [])
              eq_refl) as [Hunexpected _].
  apply Hunexpected; [reflexivity | discriminate].
Defined.

(** ** Pointers *)

(** [TYPE P = POINTER TO T] before [T] is declared. *)
Lemma PointerDecl_base_witness :
  PointerDecl_handleQIdent sample_description sample_find
    [ChainedHandler; TypeSectionHandler] false "P"
    (mkQIdent None "T" "T") (mkScope ∅ [])
  = Ok ("P", ForwardTypeId "T", mkScope ∅ ["T"]).
Proof.
  pose proof (PointerDecl_base sample_description sample_find
                [ChainedHandler; TypeSectionHandler] false "P"
                (mkQIdent None "T" "T") (mkScope ∅ [])) as H.
  cbv zeta in H. destruct H as (_ & _ & Hforward).
  destruct (Hforward [ChainedHandler] [] eq_refl eq_refl
              ltac:(repeat constructor)) as [Hsection _].
  destruct (Hsection eq_refl) as [Hrun _]. exact Hrun.
Defined.

(** ** Relations *)

(** Two INTEGER operands, compared by [<], can be compared by [<=]. *)
Lemma relationOp_relations_nest_witness :
  relationAccepted sample_description sample_typeName "'INTEGER' or 'BYTE'"
    sample_areTypesMatch sample_findPointerBaseType (fun _ _ => false)
    (Basic integer) (Basic integer) "<=".
Proof.
  destruct (relationOp_relations_nest sample_description sample_typeName
              "'INTEGER' or 'BYTE'" sample_areTypesMatch
              sample_findPointerBaseType (fun _ _ => false)
              (Basic integer) (Basic integer))
    as (_ & _ & _ & Hle & _).
  apply Hle. exists lessInt. reflexivity.
Defined.

(** ** The root context *)

(** A name no scope declares. *)
Lemma Context_findSymbol_innermost_witness :
  Context_findSymbol [sample_find None] "zz" = None.
Proof.
  destruct (Context_findSymbol_innermost [sample_find None]
              (sample_find None) "zz") as (_ & Hnone & _).
  apply Hnone. repeat constructor.
Defined.

(** The first three anonymous types. *)
Lemma Context_genTypeName_fresh_witness :
  (0 <= 0)%Z
  /\ (0 + Z.of_nat 3 <= 2 ^ 53)%Z
  /\ NoDup (fst (Context_genTypeNames 3 0)).
Proof.
  assert (Hbound : (0 + Z.of_nat 3 <= 2 ^ 53)%Z)
    by (vm_compute; discriminate).
  split; [lia|]. split; [exact Hbound|].
  pose proof (Context_genTypeName_fresh 3 0 ltac:(lia) Hbound) as H.
  destruct (Context_genTypeNames 3 0) as [names gen'].
  apply H.
Defined.

(** [VAR a, b: INTEGER]. *)
Lemma VariableDeclaration_declares_witness :
  NoDup (id_id <$> [mkIdentdef "a" false; mkIdentdef "b" true])
  /\ exists sc',
       VariableDeclaration_endParse sample_initializer (Basic integer)
         [mkIdentdef "a" false; mkIdentdef "b" true] (mkScope ∅ []) []
       = Ok (sc', [Write "var a = 0;"; Write "var b = 0;"; Write LF]).
Proof.
  assert (Hnames : NoDup (id_id <$> [mkIdentdef "a" false;
                                     mkIdentdef "b" true]))
    by (apply (bool_decide_unpack (NoDup ["a"; "b"])); vm_compute; exact I).
  split; [exact Hnames|].
  destruct (VariableDeclaration_declares sample_initializer (Basic integer)
              [mkIdentdef "a" false; mkIdentdef "b" true] (mkScope ∅ []) []
              Hnames) as (sc' & Hrun & _).
  - intros id _. apply lookup_empty.
  - exists sc'. exact Hrun.
Defined.

(** ** Operators *)

(** [i / j] on INTEGER operands. *)
Lemma MulOperator_resolution_witness :
  isInt (Basic integer) = true
  /\ MulOperator_handleLiteral sample_description "'INTEGER' or 'BYTE'" "/"
       (Basic integer)
     = throw "operator DIV expected for integer division".
Proof.
  split; [reflexivity|].
  destruct (MulOperator_resolution sample_description "'INTEGER' or 'BYTE'"
              (Basic integer)) as [Hdiv _].
  apply Hdiv. reflexivity.
Defined.

